(** * VisualRNG: the generator registry and the grid generation of rand_bw.py

    A shallow embedding of the numeric core of [rand_bw.py]: the four step
    functions, the registry [ALGORITHMS], the colour mapping [value_to_color]
    and the method [RNGVisualizerPro.generate_visualization].

    Python integers are unbounded, so a state is a [Z]; [%] with a positive
    right operand is [Z.modulo], [<<] and [>>] are [Z.shiftl] and [Z.shiftr]
    (both defined on negative numbers the way Python defines them), [&] and
    [^] are [Z.land] and [Z.lxor] on the infinite two's complement
    representation. *)

From Stdlib Require Import ZArith Zpow_facts QArith Qabs Qround Lia Lqa List String Ascii Bool.
From stdpp Require Import base option gmap strings.

Local Open Scope Z_scope.

(** ** The step functions (rand_bw.py, lines 55-76) *)

Module Registry.

(** [def lcg(s)]: [return (s * 9301 + 49297) % 233280, 233280] *)
Definition lcg (s : Z) : Z * Z :=
  ((s * 9301 + 49297) mod 233280, 233280).

(** [def park_miller(s)]: [return (s * 16807) % 2147483647, 2147483647] *)
Definition park_miller (s : Z) : Z * Z :=
  ((s * 16807) mod 2147483647, 2147483647).

(** [def xorshift(s)]: the three augmented assignments of the source, in
    order.  Only the two left shifts are masked before the exclusive or,
    and the result is masked once more on return. *)
Definition xorshift (s : Z) : Z * Z :=
  let s := Z.lxor s (Z.land (Z.shiftl s 13) 0xFFFFFFFF) in
  let s := Z.lxor s (Z.shiftr s 17) in
  let s := Z.lxor s (Z.land (Z.shiftl s 5) 0xFFFFFFFF) in
  (Z.land s 0xFFFFFFFF, 0xFFFFFFFF).

(** [def multiply_with_carry(s)] *)
Definition multiply_with_carry (s : Z) : Z * Z :=
  let a := 4294957665 in
  let c := Z.land (Z.shiftr s 32) 0xFFFFFFFF in
  let x := Z.land s 0xFFFFFFFF in
  let result := Z.land (a * x + c) 0xFFFFFFFFFFFFFFFF in
  (result, 0xFFFFFFFFFFFFFFFF).

(** An entry of the dictionary [ALGORITHMS]. *)
Record algorithm := Algorithm {
  func : Z -> Z * Z;
  desc : string;
  color : string
}.

(** The dictionary [ALGORITHMS] (lines 78-99), keyed by display name. *)
Definition ALGORITHMS : gmap string algorithm :=
  <["Linear Congruential (LCG)" :=
      Algorithm lcg "Classic PRNG used in many systems" "#00d4ff"]>
  (<["Park-Miller" :=
      Algorithm park_miller "Minimal standard, good statistical properties" "#00ff88"]>
  (<["Xorshift" :=
      Algorithm xorshift "Fast bitwise operation-based generator" "#ffaa00"]>
  (<["Multiply-with-Carry" :=
      Algorithm multiply_with_carry "High-quality long-period generator" "#ff4466"]>
   ∅))).

(** Xorshift as the table words it: every intermediate result is cut to
    32 bits. *)
Definition mask32 (z : Z) : Z := Z.land z 0xFFFFFFFF.

Definition xorshift_table (s : Z) : Z * Z :=
  let s1 := mask32 (Z.lxor s (Z.shiftl s 13)) in
  let s2 := mask32 (Z.lxor s1 (Z.shiftr s1 17)) in
  let s3 := mask32 (Z.lxor s2 (Z.shiftl s2 5)) in
  (s3, 0xFFFFFFFF).

End Registry.

(** ** Python values, exceptions and text conversions *)

Module Py.

(** The exceptions the modelled code can raise. *)
Inductive exn :=
| KeyError (key : string)
| ValueError
| ZeroDivisionError
| OverflowError.

(** The outcome of an expression: a value, or a raised exception. *)
Inductive result (A : Type) :=
| Ok (a : A)
| Raise (e : exn).
Arguments Ok {A} a.
Arguments Raise {A} e.

#[global] Instance result_ret : MRet result := fun A a => Ok a.
#[global] Instance result_bind : MBind result := fun A B f m =>
  match m with Ok a => f a | Raise e => Raise e end.

(** [float('inf')] or an integer: the values the local [min_val] takes. *)
Inductive number :=
| Int (z : Z)
| Inf.

(** [min(a, s)] for [a] an integer or [float('inf')] and [s] an integer:
    Python returns the first argument unless the second is smaller. *)
Definition min (a : number) (s : Z) : number :=
  match a with
  | Inf => Int s
  | Int z => if s <? z then Int s else Int z
  end.

(** [max(a, s)] on integers. *)
Definition max (a s : Z) : Z := if a <? s then s else a.

(** Comparison [a <= b] of an integer-or-infinity with an integer. *)
Definition number_le_int (a : number) (b : Z) : Prop :=
  match a with Int z => z <= b | Inf => False end.

(** *** Decimal and hexadecimal digits *)

Definition digit_value (c : ascii) : option Z :=
  let n := Z.of_N (N_of_ascii c) in
  if (48 <=? n) && (n <=? 57) then Some (n - 48) else None.

Definition hex_digit_value (c : ascii) : option Z :=
  let n := Z.of_N (N_of_ascii c) in
  if (48 <=? n) && (n <=? 57) then Some (n - 48)
  else if (97 <=? n) && (n <=? 102) then Some (n - 87)
  else if (65 <=? n) && (n <=? 70) then Some (n - 55)
  else None.

(** *** The characters of a text

    A text is held in UTF-8, as the string literals of this file are.  Its
    characters are the code points the bytes encode.  A Python text may
    also hold lone surrogates, which UTF-8 does not encode and which are
    neither digits nor white space; bytes that encode no code point (a
    stray or missing continuation byte, an overlong form, a surrogate, a
    value above [0x10FFFF]) stand for such a text: [code_points] gives
    [None] and the conversions below raise [ValueError]. *)

Definition byte_code (c : ascii) : Z := Z.of_N (N_of_ascii c).

(** The six bits a continuation byte [10xxxxxx] carries. *)
Definition continuation (c : ascii) : option Z :=
  let n := byte_code c in
  if (0x80 <=? n) && (n <=? 0xBF) then Some (n - 0x80) else None.

Fixpoint code_points (text : string) : option (list Z) :=
  match text with
  | EmptyString => Some []
  | String b0 t1 =>
      let n0 := byte_code b0 in
      if n0 <? 0x80 then cons n0 <$> code_points t1
      else if n0 <? 0xC0 then None
      else if n0 <? 0xE0 then
        match t1 with
        | String b1 t2 =>
            match continuation b1 with
            | Some c1 =>
                let cp := (n0 - 0xC0) * 64 + c1 in
                if 0x80 <=? cp then cons cp <$> code_points t2 else None
            | None => None
            end
        | EmptyString => None
        end
      else if n0 <? 0xF0 then
        match t1 with
        | String b1 (String b2 t3) =>
            match continuation b1, continuation b2 with
            | Some c1, Some c2 =>
                let cp := ((n0 - 0xE0) * 64 + c1) * 64 + c2 in
                if (0x800 <=? cp) && negb ((0xD800 <=? cp) && (cp <=? 0xDFFF))
                then cons cp <$> code_points t3 else None
            | _, _ => None
            end
        | _ => None
        end
      else if n0 <? 0xF8 then
        match t1 with
        | String b1 (String b2 (String b3 t4)) =>
            match continuation b1, continuation b2, continuation b3 with
            | Some c1, Some c2, Some c3 =>
                let cp := (((n0 - 0xF0) * 64 + c1) * 64 + c2) * 64 + c3 in
                if (0x10000 <=? cp) && (cp <=? 0x10FFFF)
                then cons cp <$> code_points t4 else None
            | _, _, _ => None
            end
        | _ => None
        end
      else None
  end.

(** *** [int(text)]

    The conversion as CPython 3.11 performs it, with the Unicode database
    of that version (14.0) and the limit on the number of digits at its
    default, [sys.get_int_max_str_digits() = 4300]; the program changes
    neither.  Every refusal is a [ValueError]. *)

(** The white space beyond ASCII ([Py_UNICODE_ISSPACE]). *)
Definition unicode_space (cp : Z) : bool :=
  (cp =? 0x85) || (cp =? 0xA0) || (cp =? 0x1680)
  || ((0x2000 <=? cp) && (cp <=? 0x200A))
  || (cp =? 0x2028) || (cp =? 0x2029) || (cp =? 0x202F) || (cp =? 0x205F)
  || (cp =? 0x3000).

(** The characters of decimal value zero beyond ASCII; the nine characters
    after each are the digits one to nine of the same script. *)
Definition DECIMAL_ZEROS : list Z :=
  [ 0x660; 0x6F0; 0x7C0; 0x966; 0x9E6; 0xA66; 0xAE6; 0xB66;
    0xBE6; 0xC66; 0xCE6; 0xD66; 0xDE6; 0xE50; 0xED0; 0xF20;
    0x1040; 0x1090; 0x17E0; 0x1810; 0x1946; 0x19D0; 0x1A80; 0x1A90;
    0x1B50; 0x1BB0; 0x1C40; 0x1C50; 0xA620; 0xA8D0; 0xA900; 0xA9D0;
    0xA9F0; 0xAA50; 0xABF0; 0xFF10; 0x104A0; 0x10D30; 0x11066; 0x110F0;
    0x11136; 0x111D0; 0x112F0; 0x11450; 0x114D0; 0x11650; 0x116C0; 0x11730;
    0x118E0; 0x11950; 0x11C50; 0x11D50; 0x11DA0; 0x16A60; 0x16AC0; 0x16B50;
    0x1D7CE; 0x1D7D8; 0x1D7E2; 0x1D7EC; 0x1D7F6; 0x1E140; 0x1E2F0; 0x1E950;
    0x1FBF0 ].

(** The decimal value of a character beyond ASCII ([Py_UNICODE_TODECIMAL]). *)
Definition unicode_decimal (cp : Z) : option Z :=
  (fun zero => cp - zero)
    <$> List.find (fun zero => (zero <=? cp) && (cp <? zero + 10)) DECIMAL_ZEROS.

(** What [int] reads for a character: an ASCII character is kept, other
    white space is a space, another decimal digit is its ASCII digit and
    anything else is ["?"], which no number contains. *)
Definition to_ascii (cp : Z) : ascii :=
  if cp <? 127 then ascii_of_N (Z.to_N cp)
  else if unicode_space cp then " "%char
  else match unicode_decimal cp with
       | Some d => ascii_of_N (Z.to_N (48 + d))
       | None => "?"%char
       end.

Definition ascii_text (text : string) : option string :=
  (fun cps => string_of_list_ascii (map to_ascii cps)) <$> code_points text.

(** The white space of ASCII ([Py_ISSPACE]). *)
Definition is_space (c : ascii) : bool :=
  let n := N_of_ascii c in
  ((9 <=? n) && (n <=? 13))%N || (n =? 32)%N.

Fixpoint lstrip (s : string) : string :=
  match s with
  | String c s' => if is_space c then lstrip s' else s
  | EmptyString => EmptyString
  end.

Fixpoint rstrip (s : string) : string :=
  match s with
  | EmptyString => EmptyString
  | String c s' =>
      match rstrip s' with
      | EmptyString => if is_space c then EmptyString else String c EmptyString
      | t => String c t
      end
  end.

(** The digits after the first one: each is a digit, or an underscore
    followed by a digit. *)
Fixpoint dec_digits (acc : Z) (s : string) : option Z :=
  match s with
  | EmptyString => Some acc
  | String c s' =>
      match digit_value c with
      | Some d => dec_digits (acc * 10 + d) s'
      | None =>
          if Ascii.eqb c "_" then
            match s' with
            | String c' s'' =>
                match digit_value c' with
                | Some d => dec_digits (acc * 10 + d) s''
                | None => None
                end
            | EmptyString => None
            end
          else None
      end
  end.

Definition dec_number (s : string) : option Z :=
  match s with
  | String c s' =>
      match digit_value c with
      | Some d => dec_digits d s'
      | None => None
      end
  | EmptyString => None
  end.

(** The number of digits of a text, underscores and all else left out. *)
Fixpoint digit_count (s : string) : Z :=
  match s with
  | EmptyString => 0
  | String c s' =>
      match digit_value c with
      | Some _ => 1 + digit_count s'
      | None => digit_count s'
      end
  end.

Definition int_max_str_digits : Z := 4300.

(** [int(text)]: surrounding white space is dropped, a sign may come first,
    the digits may be separated by single underscores, and there are at most
    [int_max_str_digits] of them. *)
Definition int_of_text (text : string) : result Z :=
  match ascii_text text with
  | None => Raise ValueError
  | Some line =>
      let body := rstrip (lstrip line) in
      let '(negative, digits) :=
        match body with
        | String "-" s' => (true, s')
        | String "+" s' => (false, s')
        | _ => (false, body)
        end in
      if int_max_str_digits <? digit_count digits then Raise ValueError
      else
        match dec_number digits with
        | Some z => Ok (if negative then - z else z)
        | None => Raise ValueError
        end
  end.

(** [int(text, 16)]: as [int(text)] with the digits of base 16, in either
    case, an optional prefix [0x] or [0X] after the sign, which one
    underscore may follow, and no limit on the number of digits. *)
Fixpoint hex_digits (acc : Z) (s : string) : option Z :=
  match s with
  | EmptyString => Some acc
  | String c s' =>
      match hex_digit_value c with
      | Some d => hex_digits (acc * 16 + d) s'
      | None =>
          if Ascii.eqb c "_" then
            match s' with
            | String c' s'' =>
                match hex_digit_value c' with
                | Some d => hex_digits (acc * 16 + d) s''
                | None => None
                end
            | EmptyString => None
            end
          else None
      end
  end.

Definition hex_number (s : string) : option Z :=
  match s with
  | String c s' =>
      match hex_digit_value c with
      | Some d => hex_digits d s'
      | None => None
      end
  | EmptyString => None
  end.

Definition int16 (text : string) : result Z :=
  match ascii_text text with
  | None => Raise ValueError
  | Some line =>
      let body := rstrip (lstrip line) in
      let '(negative, number) :=
        match body with
        | String "-" s' => (true, s')
        | String "+" s' => (false, s')
        | _ => (false, body)
        end in
      let digits :=
        match number with
        | String "0" (String x s') =>
            if Ascii.eqb x "x" || Ascii.eqb x "X" then
              match s' with
              | String "_" s'' => s''
              | _ => s'
              end
            else number
        | _ => number
        end in
      match hex_number digits with
      | Some z => Ok (if negative then - z else z)
      | None => Raise ValueError
      end
  end.

(** [str(n)] for an integer. *)
Definition digit_char (d : Z) : ascii := ascii_of_N (Z.to_N (48 + d)).

Definition hex_char (d : Z) : ascii :=
  ascii_of_N (Z.to_N (if d <? 10 then 48 + d else 87 + d)).

(** The digits of a positive number in a base, most significant first,
    in front of [acc]. *)
Fixpoint digits_of_pos (fuel : nat) (to_char : Z -> ascii) (base n : Z)
    (acc : string) : string :=
  match fuel with
  | O => acc
  | S fuel' =>
      if n <? base then String (to_char n) acc
      else digits_of_pos fuel' to_char base (n / base)
             (String (to_char (n mod base)) acc)
  end.

(** The digits of a natural number (as many steps as its binary size
    suffice, every base here being larger than two). *)
Definition digits_of (to_char : Z -> ascii) (base n : Z) : string :=
  digits_of_pos (S (Z.to_nat (Z.log2 n))) to_char base n EmptyString.

Definition str (n : Z) : string :=
  if n <? 0 then String "-" (digits_of digit_char 10 (- n))
  else digits_of digit_char 10 n.

(** [f"{n:02x}"]: lower-case hexadecimal, a minus sign for a negative
    number, padded with zeros to two characters. *)
Definition format_02x (n : Z) : string :=
  if n <? 0 then String "-" (digits_of hex_char 16 (- n))
  else if n <? 16 then String "0" (digits_of hex_char 16 n)
  else digits_of hex_char 16 n.

(** [f"{n:,}"]: decimal digits in groups of three from the right. *)
Fixpoint group3 (rev_digits : list ascii) (k : nat) (acc : string) : string :=
  match rev_digits with
  | [] => acc
  | c :: rest =>
      match k with
      | S k' => group3 rest k' (String c acc)
      | O => group3 rest 2 (String c (String "," acc))
      end
  end.

Definition format_commas (n : Z) : string :=
  let ds := rev (list_ascii_of_string (digits_of digit_char 10 (Z.abs n))) in
  let body := group3 ds 3 EmptyString in
  if n <? 0 then String "-" body else body.

(** [f"{m:,}"] when [m] may be [float('inf')]. *)
Definition format_number_commas (m : number) : string :=
  match m with
  | Int z => format_commas z
  | Inf => "inf"
  end.

End Py.

(** ** Python's floats

    CPython's [float] is IEEE 754 binary64 and every operation used by
    [value_to_color] ([int / int], [float * int], [float + int],
    [int * float], [float + float]) returns the exact result rounded to the
    nearest binary64 value, ties to even.  A finite float is modelled by the
    rational number it denotes and an operation by the exact rational
    operation followed by [round64]. *)

Module PyFloat.

Local Open Scope Q_scope.

(** [floor_log2 q] is the integer [k] with [2^k <= q < 2^(k+1)], for
    [q > 0]. *)
Definition pow2 (e : Z) : Q :=
  if (0 <=? e)%Z then inject_Z (2 ^ e) else / inject_Z (2 ^ (- e)).

Definition floor_log2 (q : Q) : Z :=
  let k := (Z.log2 (Qnum q) - Z.log2 (Zpos (Qden q)))%Z in
  if Qle_bool (pow2 k) q then k else (k - 1)%Z.

(** The exponent of the unit in the last place of the binade of [q]:
    53 bits of precision, and never below the subnormal exponent -1074. *)
Definition cexp (q : Q) : Z :=
  Z.max (floor_log2 (Qabs q) - 52) (-1074).

(** Round to the nearest integer, ties to the even one. *)
Definition round_half_even (q : Q) : Z :=
  let f := Qfloor q in
  match Qcompare (q - inject_Z f) (1 # 2) with
  | Lt => f
  | Gt => (f + 1)%Z
  | Eq => if Z.even f then f else (f + 1)%Z
  end.

(** Round a rational to the nearest multiple of [2 ^ cexp q]. *)
Definition round64 (q : Q) : Q :=
  if Qeq_bool q 0 then 0
  else
    let e := cexp q in
    Qred (inject_Z (round_half_even (q / pow2 e)) * pow2 e).

(** The finite binary64 values are at most 2^1024 - 2^971 in magnitude;
    a rounded result outside is an infinity. *)
Definition finite64 (q : Q) : bool :=
  Qle_bool (Qabs q) (inject_Z (2 ^ 1024 - 2 ^ 971)).

Definition fl (q : Q) : option Q :=
  let r := round64 q in if finite64 r then Some r else None.

(** [int(x)] on a finite float: truncation toward zero. *)
Definition trunc (q : Q) : Z :=
  if Qle_bool 0 q then Qfloor q else Qceiling q.

(** The float operations of [value_to_color].  An integer operand is first
    converted to a float; a conversion or a true division whose result is
    too large raises [OverflowError] at once.  A product or a sum that is
    too large is an infinity in Python: it stays one through the float
    operations that follow and makes the next [int(...)] raise
    [OverflowError]; no effect takes place in between, so the model raises
    where the infinity appears. *)
Definition checked (q : Q) : Py.result Q :=
  match fl q with Some r => Py.Ok r | None => Py.Raise Py.OverflowError end.

Definition of_int (z : Z) : Py.result Q := checked (inject_Z z).

Definition true_div (a b : Z) : Py.result Q :=
  if (b =? 0)%Z then Py.Raise Py.ZeroDivisionError
  else checked (inject_Z a / inject_Z b).

Definition mul (x y : Q) : Py.result Q := checked (x * y).

Definition add (x y : Q) : Py.result Q := checked (x + y).

(** The literals [0.1] and [0.9]: the nearest binary64 values. *)
Definition lit_0_1 : Q := Eval vm_compute in round64 (1 # 10).
Definition lit_0_9 : Q := Eval vm_compute in round64 (9 # 10).

(** [f"{t:.3f}"] for a finite float: three decimals, nearest, ties to
    even. *)
Definition format_3f (t : Q) : string :=
  let n := round_half_even (Qabs t * 1000) in
  let frac := (n mod 1000)%Z in
  let pad := if (frac <? 10)%Z then "00" else if (frac <? 100)%Z then "0" else "" in
  ((if Qle_bool 0 t then "" else "-") ++ Py.str (n / 1000) ++ "." ++ pad ++ Py.str frac)%string.

End PyFloat.

(** ** The colour mapping (rand_bw.py, lines 102-112) *)

Module Color.

Import Py.

(** The blend of a tint byte and [base_gray]: [int(t * 0.1 + base_gray * 0.9)],
    the two products first, then their sum. *)
Definition blend (t base_gray : Z) : result Z :=
  a ← (tf ← PyFloat.of_int t; PyFloat.mul tf PyFloat.lit_0_1);
  b ← (gf ← PyFloat.of_int base_gray; PyFloat.mul gf PyFloat.lit_0_9);
  c ← PyFloat.add a b;
  mret (PyFloat.trunc c).

(** One channel: [int(int(algorithm_color[i:i+2], 16) * 0.1 + base_gray * 0.9)]. *)
Definition channel (algorithm_color : string) (i : nat) (base_gray : Z) : result Z :=
  t ← int16 (substring i 2 algorithm_color);
  blend t base_gray.

(** The local [base_gray]: [int(ratio * 200 + 20)] with [ratio = v / mod]
    (the parameter [mod] is spelled [mod_], [mod] being reserved). *)
Definition base_gray_of (v mod_ : Z) : result Z :=
  ratio ← PyFloat.true_div v mod_;
  x ← PyFloat.mul ratio 200;
  y ← PyFloat.add x 20;
  mret (PyFloat.trunc y).

(** The three channels before they are capped and printed. *)
Definition channels (v mod_ : Z) (algorithm_color : string) : result (Z * Z * Z) :=
  base_gray ← base_gray_of v mod_;
  r ← channel algorithm_color 1 base_gray;
  g ← channel algorithm_color 3 base_gray;
  b ← channel algorithm_color 5 base_gray;
  mret (r, g, b).

(** The channels as printed: [min(r, 255)], [min(g, 255)], [min(b, 255)]. *)
Definition capped (rgb : Z * Z * Z) : Z * Z * Z :=
  let '(r, g, b) := rgb in (Z.min r 255, Z.min g 255, Z.min b 255).

Definition hex_color (rgb : Z * Z * Z) : string :=
  let '(r, g, b) := rgb in
  ("#" ++ format_02x r ++ format_02x g ++ format_02x b)%string.

(** [def value_to_color(v, mod, algorithm_color)] *)
Definition value_to_color (v mod_ : Z) (algorithm_color : string) : result string :=
  rgb ← channels v mod_ algorithm_color;
  mret (hex_color (capped rgb)).

(** The colour ["#rrggbb"] of a three-byte tint. *)
Definition tint_text (tint : Z * Z * Z) : string := hex_color tint.

Definition is_byte (z : Z) : Prop := 0 <= z <= 255.

Definition is_tint (tint : Z * Z * Z) : Prop :=
  let '(r, g, b) := tint in is_byte r /\ is_byte g /\ is_byte b.

(** *** The mapping as the specification words it

    [ratio = value / range] over the rationals,
    [base_gray = clamp(round(ratio * 200 + 20), 0, 255)], and per channel
    the blend of 10% of the tint with 90% of [base_gray]. *)
Definition clamp (z lo hi : Z) : Z := Z.max lo (Z.min z hi).

Definition base_gray_spec (v range : Z) : Z :=
  clamp (PyFloat.round_half_even (inject_Z v / inject_Z range * 200 + 20)%Q) 0 255.

Definition blend_spec (t base_gray : Z) : Q :=
  ((1 # 10) * inject_Z t + (9 # 10) * inject_Z base_gray)%Q.

End Color.

(** ** The application object and generate_visualization (lines 616-679) *)

Module App.

Import Py.

(** The configuration constants (lines 10-11). *)
Definition GRID_W : Z := 120.
Definition GRID_H : Z := 120.
Definition PIXEL : Z := 5.

(** The entries of [COLORS] the method reads. *)
Definition COLORS_accent_primary : string := "#00d4ff".
Definition COLORS_success : string := "#00ff88".

(** An item made by [grid_canvas.create_rectangle(x1, y1, x2, y2, fill=...,
    outline="")]. *)
Record rectangle := Rectangle {
  rect_x1 : Z;
  rect_y1 : Z;
  rect_x2 : Z;
  rect_y2 : Z;
  rect_fill : string;
  rect_outline : string
}.

(** What [status_label.config(text=..., fg=...)] sets. *)
Record label := Label {
  label_text : string;
  label_fg : string
}.

(** The attributes of [RNGVisualizerPro] the method reads or writes:
    the selected name ([current_algorithm], a [StringVar]), the in-flight
    flag, the status label, the text of the seed entry, the items of the
    grid canvas in creation order, and for every label of [stats_items] the
    text its canvas shows. *)
Record RNGVisualizerPro := Visualizer {
  current_algorithm : string;
  is_generating : bool;
  status_label : label;
  seed_entry : string;
  grid_canvas : list rectangle;
  stats_items : gmap string string
}.

(** What selecting an algorithm in the panel does (line 313). *)
Definition set_current_algorithm (name : string) (self : RNGVisualizerPro) :=
  Visualizer name (is_generating self) (status_label self) (seed_entry self)
    (grid_canvas self) (stats_items self).

Definition set_is_generating (b : bool) (self : RNGVisualizerPro) :=
  Visualizer (current_algorithm self) b (status_label self) (seed_entry self)
    (grid_canvas self) (stats_items self).

Definition set_status_label (l : label) (self : RNGVisualizerPro) :=
  Visualizer (current_algorithm self) (is_generating self) l (seed_entry self)
    (grid_canvas self) (stats_items self).

Definition set_seed_entry (t : string) (self : RNGVisualizerPro) :=
  Visualizer (current_algorithm self) (is_generating self) (status_label self) t
    (grid_canvas self) (stats_items self).

Definition set_grid_canvas (c : list rectangle) (self : RNGVisualizerPro) :=
  Visualizer (current_algorithm self) (is_generating self) (status_label self)
    (seed_entry self) c (stats_items self).

Definition set_stats_items (m : gmap string string) (self : RNGVisualizerPro) :=
  Visualizer (current_algorithm self) (is_generating self) (status_label self)
    (seed_entry self) (grid_canvas self) m.

(** [def _update_stat(self, label, value)]: only a label that exists is
    updated. *)
Definition _update_stat (lbl value : string) (self : RNGVisualizerPro) :=
  match stats_items self !! lbl with
  | Some _ => set_stats_items (<[lbl := value]> (stats_items self)) self
  | None => self
  end.

(** What the method takes from its surroundings: the entropy
    [random.randint] consumes and the two readings of [time.time()]. *)
Record world := World {
  entropy : Z;
  time_start : Q;
  time_end : Q
}.

(** [random.randint(a, b)]: an integer [n] with [a <= n <= b], chosen by the
    entropy. *)
Definition randint (a b : Z) (bits : Z) : Z := a + bits mod (b - a + 1).

(** [range(n)] *)
Definition range (n : Z) : list Z := map Z.of_nat (seq 0 (Z.to_nat n)).

(** The local variables of the method while the loops run, with the
    object. *)
Record frame := Frame {
  self_ : RNGVisualizerPro;
  s : Z;
  last_value : Z;
  min_val : number;
  max_val : Z
}.

(** A [for] statement: the body runs for every element in order and an
    exception ends it, the state being what it was when the exception was
    raised. *)
Fixpoint for_each {S : Type} (xs : list Z) (body : Z -> S -> option exn * S)
    (st : S) : option exn * S :=
  match xs with
  | [] => (None, st)
  | x :: xs' =>
      match body x st with
      | (None, st') => for_each xs' body st'
      | (Some e, st') => (Some e, st')
      end
  end.

(** The body of the inner loop (lines 651-664). *)
Definition cell (algo_func : Z -> Z * Z) (algo_color : string) (y x : Z)
    (fr : frame) : option exn * frame :=
  let '(s', mod_) := algo_func (s fr) in
  let min_val' := Py.min (min_val fr) s' in
  let max_val' := Py.max (max_val fr) s' in
  match Color.value_to_color s' mod_ algo_color with
  | Raise e => (Some e, Frame (self_ fr) s' s' min_val' max_val')
  | Ok color =>
      let item :=
        Rectangle (x * PIXEL) (y * PIXEL) ((x + 1) * PIXEL) ((y + 1) * PIXEL)
          color "" in
      let self' := set_grid_canvas (grid_canvas (self_ fr) ++ [item]) (self_ fr) in
      (None, Frame self' s' s' min_val' max_val')
  end.

(** The two nested loops over a grid of [width] columns and [height] rows
    (lines 649-664, where they are [GRID_W] and [GRID_H]). *)
Definition grid_loops (algo_func : Z -> Z * Z) (algo_color : string)
    (width height : Z) (fr : frame) : option exn * frame :=
  for_each (range height)
    (fun y => for_each (range width) (fun x => cell algo_func algo_color y x))
    fr.

(** The locals as lines 641-647 set them before the loops: [min_val =
    float('inf')], [max_val = 0], [s = seed], [last_value = s]. *)
Definition initial_frame (self : RNGVisualizerPro) (seed : Z) : frame :=
  Frame self seed seed Inf 0.

(** The method from "Clear grid" on (lines 637-679), for a grid of
    [width] by [height] cells. *)
Definition generate_from (algo_name : string) (algo_func : Z -> Z * Z)
    (algo_color : string) (seed width height : Z) (w : world)
    (self : RNGVisualizerPro) : option exn * RNGVisualizerPro :=
  let self := set_grid_canvas [] self in
  let start_time := time_start w in
  let fr := initial_frame self seed in
  match grid_loops algo_func algo_color width height fr with
  | (Some e, fr') => (Some e, self_ fr')
  | (None, fr') =>
      let self := self_ fr' in
      let gen_time := PyFloat.round64 (time_end w - start_time) in
      let self := _update_stat "Final Value" (format_commas (last_value fr')) self in
      let self := _update_stat "Iterations" (format_commas (width * height)) self in
      let self := _update_stat "Min Value" (format_number_commas (min_val fr')) self in
      let self := _update_stat "Max Value" (format_commas (max_val fr')) self in
      let self := _update_stat "Generation Time" (PyFloat.format_3f gen_time ++ "s") self in
      let self :=
        set_status_label
          (Label ("Generated " ++ format_commas (width * height)
                  ++ " values using " ++ algo_name)
                 COLORS_success) self in
      (None, set_is_generating false self)
  end.

(** The seed the run uses and the object after "Get seed" (lines 629-635). *)
Definition get_seed (w : world) (self : RNGVisualizerPro) : Z * RNGVisualizerPro :=
  match int_of_text (seed_entry self) with
  | Ok seed => (seed, self)
  | Raise _ =>
      let seed := randint 1 999999 (entropy w) in
      (seed, set_seed_entry (str seed) self)
  end.

(** The method over a grid of [width] by [height] cells. *)
Definition generate_on (width height : Z) (w : world) (self : RNGVisualizerPro)
    : option exn * RNGVisualizerPro :=
  if is_generating self then (None, self)
  else
    let self := set_is_generating true self in
    let self := set_status_label (Label "Generating..." COLORS_accent_primary) self in
    let algo_name := current_algorithm self in
    match Registry.ALGORITHMS !! algo_name with
    | None => (Some (KeyError algo_name), self)
    | Some entry =>
        let algo_func := Registry.func entry in
        let algo_color := Registry.color entry in
        let '(seed, self) := get_seed w self in
        generate_from algo_name algo_func algo_color seed width height w self
    end.

(** [def generate_visualization(self)] *)
Definition generate_visualization (w : world) (self : RNGVisualizerPro)
    : option exn * RNGVisualizerPro :=
  generate_on GRID_W GRID_H w self.

(** The object as [__init__] leaves it: the default selection, the seed
    ["12345"], an empty canvas and a dash for every statistic. *)
Definition dash : string := "—".

Definition initial : RNGVisualizerPro :=
  Visualizer "Linear Congruential (LCG)" false (Label "" "") "12345" []
    (<["Final Value" := dash]> (<["Iterations" := dash]> (<["Min Value" := dash]>
     (<["Max Value" := dash]> (<["Generation Time" := dash]> ∅))))).

End App.

(** ** The run as a sequence of values

    What the loops compute, written without the object: the values the step
    function goes through, the cells in the order the loops visit them, and
    the items painted for them. *)

Module Engine.

Import Py.

(** The first [n] values after the state [st]. *)
Fixpoint trajectory (algo_func : Z -> Z * Z) (st : Z) (n : nat) : list Z :=
  match n with
  | O => []
  | S n' => let v := fst (algo_func st) in v :: trajectory algo_func v n'
  end.

(** The cells [(y, x)] in row-major order. *)
Definition grid_cells (width height : Z) : list (Z * Z) :=
  flat_map (fun y => map (fun x => (y, x)) (App.range width)) (App.range height).

(** The item of a cell whose colour was computed. *)
Definition item (y x : Z) (color : string) : App.rectangle :=
  App.Rectangle (x * App.PIXEL) (y * App.PIXEL) ((x + 1) * App.PIXEL)
    ((y + 1) * App.PIXEL) color "".

(** The items painted for the cells, starting from the state [st]; [None]
    when the colour mapping raises for one of them. *)
Fixpoint items (algo_func : Z -> Z * Z) (algo_color : string)
    (cells : list (Z * Z)) (st : Z) : option (list App.rectangle) :=
  match cells with
  | [] => Some []
  | (y, x) :: rest =>
      let '(v, mod_) := algo_func st in
      match Color.value_to_color v mod_ algo_color with
      | Ok color =>
          option_map (cons (item y x color)) (items algo_func algo_color rest v)
      | Raise _ => None
      end
  end.

(** The statistics of a run over the values [vs] from the seed: the last
    value (the seed when there is none), the smallest from
    [float('inf')] and the largest from [0]. *)
Definition last_of (vs : list Z) (seed : Z) : Z := List.last vs seed.

Definition min_of (vs : list Z) : number := fold_left Py.min vs Inf.

Definition max_of (vs : list Z) : Z := fold_left Py.max vs 0.

(** The statistics of one run. *)
Record GenerationStats := Stats {
  stat_last_value : Z;
  stat_iteration_count : Z;
  stat_min_value : number;
  stat_max_value : Z
}.

(** The grid and the statistics of a run, from the algorithm, the seed and
    the dimensions alone. *)
Definition generate (algo_func : Z -> Z * Z) (algo_color : string)
    (seed width height : Z) : option (list App.rectangle * GenerationStats) :=
  let cells := grid_cells width height in
  let vs := trajectory algo_func seed (length cells) in
  option_map
    (fun its => (its, Stats (last_of vs seed) (width * height) (min_of vs) (max_of vs)))
    (items algo_func algo_color cells seed).

(** The object once a run is shown: the grid on the canvas, the five
    statistics on the labels that exist, the status text and the flag
    lowered. *)
Definition shown (algo_name : string) (grid : list App.rectangle)
    (st : GenerationStats) (gen_time : Q) (self : App.RNGVisualizerPro)
    : App.RNGVisualizerPro :=
  let self := App.set_grid_canvas grid self in
  let self := App._update_stat "Final Value" (format_commas (stat_last_value st)) self in
  let self := App._update_stat "Iterations" (format_commas (stat_iteration_count st)) self in
  let self := App._update_stat "Min Value" (format_number_commas (stat_min_value st)) self in
  let self := App._update_stat "Max Value" (format_commas (stat_max_value st)) self in
  let self := App._update_stat "Generation Time" (PyFloat.format_3f gen_time ++ "s") self in
  let self :=
    App.set_status_label
      (App.Label ("Generated " ++ format_commas (stat_iteration_count st)
                  ++ " values using " ++ algo_name)
                 App.COLORS_success) self in
  App.set_is_generating false self.

(** The text a label of the statistics shows after an update, given what
    the labels were before: nothing when the label does not exist. *)
Definition label_shows (before after : App.RNGVisualizerPro) (lbl text : string) : Prop :=
  App.stats_items after !! lbl = (App.stats_items before !! lbl) ≫= (fun _ => Some text).

End Engine.

(** ** The other handlers of the shell (rand_bw.py, lines 312-314, 682-708) *)

Module Shell.

Import Py App.

Definition COLORS_text_tertiary : string := "#6b7a93".

(** [def _randomize_seed(self)] *)
Definition _randomize_seed (w : world) (self : RNGVisualizerPro) : RNGVisualizerPro :=
  let new_seed := randint 1 999999 (entropy w) in
  let self := set_seed_entry (str new_seed) self in
  set_status_label
    (Label ("Seed randomized to " ++ str new_seed) COLORS_text_tertiary) self.

(** [for label in self.stats_items: self._update_stat(label, "—")], over
    the labels the dictionary holds when the loop starts. *)
Definition reset_stats (self : RNGVisualizerPro) : RNGVisualizerPro :=
  fold_left (fun acc lbl => _update_stat lbl dash acc)
    (map fst (map_to_list (stats_items self))) self.

(** [def _clear_grid(self)] *)
Definition _clear_grid (self : RNGVisualizerPro) : RNGVisualizerPro :=
  let self := set_grid_canvas [] self in
  let self := reset_stats self in
  set_status_label (Label "Grid cleared" COLORS_text_tertiary) self.

(** The object when [__init__] returns: [initial] with the status text of
    line 539. *)
Definition created : RNGVisualizerPro :=
  set_status_label (Label "Ready to generate visualization" COLORS_text_tertiary)
    initial.

(** What the user can do: click an option of the selector (a handler
    [on_click] exists for each name of [ALGORITHMS], lines 266 and 312),
    edit the seed entry, press the generate button or Return, the
    "Random Seed" button or Control-r, the "Clear Grid" button or
    Control-c. *)
Inductive event :=
| Select (name : string)
| EditSeed (text : string)
| Generate (w : world)
| Randomize (w : world)
| Clear.

(** The events the window offers: only registered names can be clicked. *)
Definition offered (ev : event) : Prop :=
  match ev with
  | Select name => is_Some (Registry.ALGORITHMS !! name)
  | _ => True
  end.

Definition handle (ev : event) (self : RNGVisualizerPro)
    : option exn * RNGVisualizerPro :=
  match ev with
  | Select name => (None, set_current_algorithm name self)
  | EditSeed text => (None, set_seed_entry text self)
  | Generate w => generate_visualization w self
  | Randomize w => (None, _randomize_seed w self)
  | Clear => (None, _clear_grid self)
  end.

(** The objects a session can reach from the created one. *)
Inductive reachable : RNGVisualizerPro -> Prop :=
| reachable_created : reachable created
| reachable_step (ev : event) (self : RNGVisualizerPro) :
    reachable self -> offered ev -> reachable (snd (handle ev self)).

End Shell.

(** * Properties *)

(** ** The step functions *)

Section StepFunctions.

Import Registry.

Lemma mask_is_ones : 0xFFFFFFFF = Z.ones 32 /\ 0xFFFFFFFFFFFFFFFF = Z.ones 64.
Proof. split; reflexivity. Qed.

Lemma mask32_mod (z : Z) : mask32 z = z mod 2 ^ 32.
Proof. unfold mask32. change 0xFFFFFFFF with (Z.ones 32). now apply Z.land_ones. Qed.

Lemma mask32_range (z : Z) : 0 <= mask32 z <= 0xFFFFFFFF.
Proof. rewrite mask32_mod. pose proof (Z.mod_pos_bound z (2 ^ 32)). lia. Qed.

Lemma mask32_small (z : Z) : 0 <= z < 2 ^ 32 -> mask32 z = z.
Proof. intros H. rewrite mask32_mod. now apply Z.mod_small. Qed.

(** Masking commutes with exclusive or. *)
Lemma mask32_lxor (a b : Z) : mask32 (Z.lxor a b) = Z.lxor (mask32 a) (mask32 b).
Proof.
  unfold mask32. apply Z.bits_inj'. intros n Hn.
  rewrite Z.lxor_spec, !Z.land_spec, Z.lxor_spec.
  destruct (Z.testbit 0xFFFFFFFF n); rewrite ?andb_true_r, ?andb_false_r; reflexivity.
Qed.

(** Exclusive or and right shifts stay below [2 ^ 32]. *)
Lemma lxor_u32 (a b : Z) :
  0 <= a < 2 ^ 32 -> 0 <= b < 2 ^ 32 -> 0 <= Z.lxor a b < 2 ^ 32.
Proof.
  intros Ha Hb.
  rewrite <- (mask32_small a Ha), <- (mask32_small b Hb), <- mask32_lxor.
  pose proof (mask32_range (Z.lxor a b)). lia.
Qed.

Lemma shiftr_u32 (a n : Z) : 0 <= n -> 0 <= a < 2 ^ 32 -> 0 <= Z.shiftr a n < 2 ^ 32.
Proof.
  intros Hn Ha. rewrite Z.shiftr_div_pow2 by assumption.
  assert (0 < 2 ^ n) by (apply Z.pow_pos_nonneg; lia).
  split; [apply Z.div_pos; lia|].
  apply Z.div_lt_upper_bound; nia.
Qed.

(** The source's form of the function, step by step. *)
Lemma xorshift_steps (s : Z) :
  xorshift s =
    (mask32 (Z.lxor (Z.lxor (Z.lxor s (mask32 (Z.shiftl s 13)))
                            (Z.shiftr (Z.lxor s (mask32 (Z.shiftl s 13))) 17))
                    (mask32 (Z.shiftl
                       (Z.lxor (Z.lxor s (mask32 (Z.shiftl s 13)))
                               (Z.shiftr (Z.lxor s (mask32 (Z.shiftl s 13))) 17)) 5))),
     0xFFFFFFFF).
Proof. reflexivity. Qed.

(** For every integer, negative ones included, the function returns a value
    of 32 bits and the range [0xFFFFFFFF]. *)
Lemma xorshift_range (s : Z) :
  0 <= fst (xorshift s) <= 0xFFFFFFFF /\ snd (xorshift s) = 0xFFFFFFFF.
Proof. rewrite xorshift_steps. simpl fst; simpl snd. split; [apply mask32_range | reflexivity]. Qed.

(** C1. For every unsigned 64-bit state the three step functions return the
    pair of the table: [lcg] and [park_miller] the residue and the modulus,
    [multiply_with_carry] the masked sum and the 64-bit mask.  On such a
    state the shifts and masks of [multiply_with_carry] are the quotient and
    the remainders of the fixed-width reading. *)
Theorem step_functions_match_table (s : Z) (Hs : 0 <= s < 2 ^ 64) :
  lcg s = ((s * 9301 + 49297) mod 233280, 233280) /\
  park_miller s = ((s * 16807) mod 2147483647, 2147483647) /\
  multiply_with_carry s =
    (Z.land (4294957665 * Z.land s 0xFFFFFFFF + Z.land (Z.shiftr s 32) 0xFFFFFFFF)
       0xFFFFFFFFFFFFFFFF,
     0xFFFFFFFFFFFFFFFF) /\
  multiply_with_carry s =
    ((4294957665 * (s mod 2 ^ 32) + s / 2 ^ 32) mod 2 ^ 64, 2 ^ 64 - 1).
Proof.
  repeat split.
  unfold multiply_with_carry.
  change 0xFFFFFFFFFFFFFFFF with (Z.ones 64). change 0xFFFFFFFF with (Z.ones 32).
  rewrite !Z.land_ones, Z.shiftr_div_pow2 by lia.
  rewrite (Z.mod_small (s / 2 ^ 32)); [reflexivity|].
  split; [apply Z.div_pos; lia | apply Z.div_lt_upper_bound; lia].
Qed.

Lemma step_functions_match_table_witness :
  lcg 1 = ((1 * 9301 + 49297) mod 233280, 233280) /\
  park_miller 1 = ((1 * 16807) mod 2147483647, 2147483647) /\
  multiply_with_carry 1 =
    (Z.land (4294957665 * Z.land 1 0xFFFFFFFF + Z.land (Z.shiftr 1 32) 0xFFFFFFFF)
       0xFFFFFFFFFFFFFFFF,
     0xFFFFFFFFFFFFFFFF) /\
  multiply_with_carry 1 =
    ((4294957665 * (1 mod 2 ^ 32) + 1 / 2 ^ 32) mod 2 ^ 64, 2 ^ 64 - 1).
Proof. apply (step_functions_match_table 1). lia. Defined.

(** The scenario of the specification: one step of LCG from seed 1. *)
Example lcg_seed_1 : lcg 1 = (58598, 233280).
Proof. reflexivity. Qed.

(** The zero seed is a fixed point of Xorshift. *)
Example xorshift_seed_0 : xorshift 0 = (0, 0xFFFFFFFF).
Proof. reflexivity. Qed.

(** C2, as stated, fails: on a state of more than 32 bits, or a negative
    one, the bits from 32 up reach the result through the right shift,
    because the source masks the two left shifts and the returned value
    only. *)
Lemma xorshift_unmasked_high_bits :
  xorshift (2 ^ 32) = (1081344, 0xFFFFFFFF) /\
  xorshift_table (2 ^ 32) = (0, 0xFFFFFFFF) /\
  xorshift (-1) <> xorshift_table (-1).
Proof. repeat split. vm_compute. discriminate. Qed.

(** C2, amended. On every state of 32 bits, zero included, [xorshift]
    computes the three updates with every intermediate result masked to 32
    bits and returns the result with the range [0xFFFFFFFF]. *)
Theorem xorshift_masked_on_u32 (s : Z) (Hs : 0 <= s < 2 ^ 32) :
  xorshift s = xorshift_table s.
Proof.
  rewrite xorshift_steps. unfold xorshift_table.
  set (s1 := Z.lxor s (mask32 (Z.shiftl s 13))).
  assert (E1 : mask32 (Z.lxor s (Z.shiftl s 13)) = s1).
  { rewrite mask32_lxor, (mask32_small s Hs). reflexivity. }
  assert (B1 : 0 <= s1 < 2 ^ 32).
  { apply lxor_u32; [assumption|]. pose proof (mask32_range (Z.shiftl s 13)). lia. }
  rewrite E1.
  set (s2 := Z.lxor s1 (Z.shiftr s1 17)).
  assert (B2 : 0 <= s2 < 2 ^ 32).
  { apply lxor_u32; [assumption | apply shiftr_u32; [lia | assumption]]. }
  rewrite (mask32_small s2 B2).
  f_equal. rewrite !mask32_lxor, (mask32_small s2 B2).
  rewrite mask32_small; [reflexivity|].
  pose proof (mask32_range (Z.shiftl s2 5)). lia.
Qed.

Lemma xorshift_masked_on_u32_witness : xorshift 12345 = xorshift_table 12345.
Proof. apply (xorshift_masked_on_u32 12345). lia. Defined.

End StepFunctions.

(** ** Rounding to binary64 keeps integer bounds *)

Section Rounding.

Import PyFloat.
Local Open Scope Q_scope.

Lemma round_half_even_le (x : Q) (n : Z) :
  x <= inject_Z n -> (round_half_even x <= n)%Z.
Proof.
  intros H. unfold round_half_even.
  pose proof (Qfloor_le x) as Hf.
  assert (Hn : (Qfloor x <= n)%Z).
  { rewrite <- (Qfloor_Z n). now apply Qfloor_resp_le. }
  assert (Hup : 0 < x - inject_Z (Qfloor x) -> (Qfloor x + 1 <= n)%Z).
  { intros Hpos. assert (Qfloor x < n)%Z; [|lia].
    rewrite Zlt_Qlt. lra. }
  destruct (Qcompare_spec (x - inject_Z (Qfloor x)) (1 # 2)) as [E|E|E].
  - destruct (Z.even (Qfloor x)); [assumption | apply Hup; lra].
  - assumption.
  - apply Hup; lra.
Qed.

Lemma round_half_even_ge (x : Q) (n : Z) :
  inject_Z n <= x -> (n <= round_half_even x)%Z.
Proof.
  intros H. unfold round_half_even.
  assert (Hn : (n <= Qfloor x)%Z).
  { rewrite <- (Qfloor_Z n). now apply Qfloor_resp_le. }
  destruct (Qcompare (x - inject_Z (Qfloor x)) (1 # 2)); [destruct (Z.even (Qfloor x))| |]; lia.
Qed.

Lemma pow2_pos (e : Z) : 0 < pow2 e.
Proof.
  unfold pow2. destruct (0 <=? e)%Z eqn:E.
  - apply Z.leb_le in E. change 0 with (inject_Z 0). rewrite <- Zlt_Qlt.
    now apply Z.pow_pos_nonneg.
  - apply Z.leb_gt in E. apply Qinv_lt_0_compat.
    change 0 with (inject_Z 0). rewrite <- Zlt_Qlt. apply Z.pow_pos_nonneg; lia.
Qed.

(** A power of two with a negative or zero exponent is the inverse of an
    integer. *)
Lemma pow2_nonpos (e : Z) :
  (e <= 0)%Z -> pow2 e * inject_Z (2 ^ (- e)) == 1.
Proof.
  intros He. unfold pow2. destruct (0 <=? e)%Z eqn:E.
  - apply Z.leb_le in E. assert (e = 0%Z) by lia. subst e. reflexivity.
  - assert (0 < inject_Z (2 ^ (- e))).
    { change 0 with (inject_Z 0). rewrite <- Zlt_Qlt. apply Z.pow_pos_nonneg; lia. }
    field. lra.
Qed.

(** Below [2^53] the binary logarithm is at most 52, so the last place is
    a unit or a fraction of one. *)
Lemma floor_log2_upper (q : Q) :
  0 < q -> q < inject_Z (2 ^ 53) -> (floor_log2 q <= 52)%Z.
Proof.
  intros Hpos Hlt. destruct q as [n d]. unfold floor_log2. simpl Qnum; simpl Qden.
  assert (Hn : (0 < n)%Z).
  { unfold Qlt in Hpos. simpl in Hpos. lia. }
  assert (Hq : (n < 2 ^ 53 * Z.pos d)%Z).
  { unfold Qlt in Hlt. simpl in Hlt. lia. }
  set (k := (Z.log2 n - Z.log2 (Z.pos d))%Z).
  assert (Hk : (k <= 53)%Z).
  { destruct (Z.le_gt_cases k 53) as [L|G]; [assumption | exfalso].
    pose proof (Z.log2_spec n Hn) as [Hlo _].
    pose proof (Z.log2_spec (Z.pos d) (Pos2Z.is_pos d)) as [_ Hhi].
    pose proof (Z.log2_nonneg (Z.pos d)) as Hd0.
    assert (E : Z.log2 n = (Z.log2 (Z.pos d) + 1 + (k - 1))%Z) by (unfold k; lia).
    rewrite E, Z.pow_add_r in Hlo by lia.
    assert (2 ^ 53 <= 2 ^ (k - 1))%Z by (apply Z.pow_le_mono_r; lia).
    nia. }
  destruct (Qle_bool (pow2 k) (n # d)) eqn:B; [|lia].
  apply Qle_bool_iff in B.
  destruct (Z.le_gt_cases k 52) as [L|G]; [assumption | exfalso].
  assert (k = 53%Z) by lia. subst k. rewrite H in B.
  change (pow2 53) with (inject_Z (2 ^ 53)) in B. lra.
Qed.

Lemma cexp_nonpos (q : Q) :
  0 < q -> q < inject_Z (2 ^ 53) -> (cexp q <= 0)%Z.
Proof.
  intros Hpos Hlt. unfold cexp.
  assert (E : Qabs q = q).
  { destruct q as [n d]. unfold Qabs. f_equal. apply Z.abs_eq.
    unfold Qlt in Hpos. simpl in Hpos. lia. }
  rewrite E. pose proof (floor_log2_upper q Hpos Hlt). lia.
Qed.

(** Rounding is monotone across an integer: a value between two integers
    below [2^53] rounds to a value between them. *)
Lemma round64_bounds (q : Q) (lo hi : Z) :
  (0 <= lo)%Z -> (hi < 2 ^ 53)%Z ->
  inject_Z lo <= q <= inject_Z hi ->
  inject_Z lo <= round64 q <= inject_Z hi.
Proof.
  intros Hlo Hhi [Hq1 Hq2]. unfold round64.
  assert (H0 : 0 <= inject_Z lo) by (change 0 with (inject_Z 0); now rewrite <- Zle_Qle).
  assert (Hh : inject_Z hi < inject_Z (2 ^ 53)) by now rewrite <- Zlt_Qlt.
  destruct (Qeq_bool q 0) eqn:Ez.
  - apply Qeq_bool_iff in Ez. lra.
  - apply Qeq_bool_neq in Ez.
    assert (Hpos : 0 < q) by (apply Qle_lteq in H0; destruct (Qle_lt_or_eq 0 q); try lra; exfalso; apply Ez; now symmetry).
    assert (He : (cexp q <= 0)%Z) by (apply cexp_nonpos; lra).
    set (e := cexp q) in *.
    pose proof (pow2_nonpos e He) as HP. pose proof (pow2_pos e) as Hp.
    set (P := (2 ^ (- e))%Z) in *.
    assert (HPpos : 0 < inject_Z P).
    { change 0 with (inject_Z 0). rewrite <- Zlt_Qlt. apply Z.pow_pos_nonneg; lia. }
    assert (Ex : q / pow2 e == q * inject_Z P).
    { assert (Hinv : pow2 e == / inject_Z P).
      { apply (Qmult_inj_r _ _ (inject_Z P)); [lra|]. rewrite HP. field. lra. }
      rewrite Hinv. field. lra. }
    rewrite Qred_correct.
    assert (U : (round_half_even (q / pow2 e) <= hi * P)%Z).
    { apply round_half_even_le. rewrite Ex, inject_Z_mult.
      apply Qmult_le_compat_r; lra. }
    assert (L : (lo * P <= round_half_even (q / pow2 e))%Z).
    { apply round_half_even_ge. rewrite Ex, inject_Z_mult.
      apply Qmult_le_compat_r; lra. }
    set (m := round_half_even (q / pow2 e)) in *.
    rewrite Zle_Qle, inject_Z_mult in U, L.
    split.
    + apply Qmult_lt_0_le_reg_r with (z := inject_Z P); [assumption|].
      rewrite <- Qmult_assoc, HP. lra.
    + apply Qmult_lt_0_le_reg_r with (z := inject_Z P); [assumption|].
      rewrite <- Qmult_assoc, HP. lra.
Qed.

(** Such a value is finite, so the operation that produced it raises
    nothing. *)
Lemma checked_bounds (q : Q) (lo hi : Z) :
  (0 <= lo)%Z -> (hi < 2 ^ 53)%Z ->
  inject_Z lo <= q <= inject_Z hi ->
  exists r, checked q = Py.Ok r /\ inject_Z lo <= r <= inject_Z hi.
Proof.
  intros Hlo Hhi Hq.
  destruct (round64_bounds q lo hi Hlo Hhi Hq) as [B1 B2].
  exists (round64 q). split; [|split; assumption].
  unfold checked, fl.
  assert (F : finite64 (round64 q) = true).
  { unfold finite64. apply Qle_bool_iff.
    assert (0 <= inject_Z lo) by (change 0 with (inject_Z 0); now rewrite <- Zle_Qle).
    rewrite Qabs_pos by lra.
    apply Qle_trans with (inject_Z hi); [assumption|].
    rewrite <- Zle_Qle. assert (2 ^ 53 < 2 ^ 1024 - 2 ^ 971)%Z by reflexivity. lia. }
  rewrite F. reflexivity.
Qed.

Lemma trunc_bounds (q : Q) (lo hi : Z) :
  (0 <= lo)%Z -> inject_Z lo <= q <= inject_Z hi -> (lo <= trunc q <= hi)%Z.
Proof.
  intros Hlo [H1 H2]. unfold trunc.
  assert (B : Qle_bool 0 q = true).
  { apply Qle_bool_iff. assert (0 <= inject_Z lo) by (change 0 with (inject_Z 0); now rewrite <- Zle_Qle). lra. }
  rewrite B. split.
  - rewrite <- (Qfloor_Z lo). now apply Qfloor_resp_le.
  - rewrite <- (Qfloor_Z hi). now apply Qfloor_resp_le.
Qed.

End Rounding.

(** ** The colour mapping *)

Section ColorMapping.

Import Py Color.

Lemma bind_Ok {A B : Type} (a : A) (k : A -> result B) : (Ok a ≫= k) = k a.
Proof. reflexivity. Qed.

Lemma in_range (n z : Z) : 0 <= z < n -> In z (App.range n).
Proof.
  intros H. unfold App.range. apply in_map_iff. exists (Z.to_nat z).
  split; [lia | apply in_seq; lia].
Qed.

(** A byte prints as two hexadecimal digits that read back as the byte. *)
Definition byte_round_trip (z : Z) : bool :=
  match format_02x z with
  | String c1 (String c2 EmptyString) =>
      match int16 (String c1 (String c2 EmptyString)) with
      | Ok z' => z =? z'
      | Raise _ => false
      end
  | _ => false
  end.

Lemma bytes_round_trip : forallb byte_round_trip (App.range 256) = true.
Proof. vm_compute. reflexivity. Qed.

Lemma format_02x_byte (z : Z) :
  is_byte z ->
  exists c1 c2, format_02x z = String c1 (String c2 EmptyString) /\
                int16 (String c1 (String c2 EmptyString)) = Ok z.
Proof.
  intros Hz. pose proof bytes_round_trip as H.
  rewrite forallb_forall in H. specialize (H z (in_range 256 z ltac:(unfold is_byte in Hz; lia))).
  unfold byte_round_trip in H.
  destruct (format_02x z) as [|c1 [|c2 [|]]]; try discriminate.
  exists c1, c2. split; [reflexivity|].
  destruct (int16 (String c1 (String c2 "")))%string; [|discriminate].
  apply Z.eqb_eq in H. now subst.
Qed.

(** The three slices of the colour of a tint are its bytes. *)
Lemma tint_text_slices (r g b : Z) :
  is_tint (r, g, b) ->
  int16 (substring 1 2 (tint_text (r, g, b))) = Ok r /\
  int16 (substring 3 2 (tint_text (r, g, b))) = Ok g /\
  int16 (substring 5 2 (tint_text (r, g, b))) = Ok b.
Proof.
  intros (Hr & Hg & Hb).
  destruct (format_02x_byte r Hr) as (r1 & r2 & Er & Pr).
  destruct (format_02x_byte g Hg) as (g1 & g2 & Eg & Pg).
  destruct (format_02x_byte b Hb) as (b1 & b2 & Eb & Pb).
  unfold tint_text, hex_color. rewrite Er, Eg, Eb.
  cbn [append substring]. auto.
Qed.

Local Open Scope Q_scope.

(** [base_gray] lies between 20 and 220 when the value does not exceed the
    range. *)
Lemma base_gray_of_bounds (v range : Z) :
  (0 <= v <= range)%Z -> (0 < range)%Z ->
  exists bg, base_gray_of v range = Ok bg /\ (20 <= bg <= 220)%Z.
Proof.
  intros Hv Hr. unfold base_gray_of, PyFloat.true_div, PyFloat.mul, PyFloat.add.
  destruct (range =? 0)%Z eqn:E; [apply Z.eqb_eq in E; lia | clear E].
  assert (Hrq : 0 < inject_Z range) by (change 0 with (inject_Z 0); now rewrite <- Zlt_Qlt).
  assert (Hvq : 0 <= inject_Z v <= inject_Z range) by (change 0 with (inject_Z 0); rewrite <- !Zle_Qle; lia).
  destruct (checked_bounds (inject_Z v / inject_Z range) 0 1) as (ratio & -> & Bratio);
    [lia | reflexivity | |].
  { change (inject_Z 0) with 0. change (inject_Z 1) with 1.
    split; [apply Qle_shift_div_l | apply Qle_shift_div_r]; try assumption.
    - rewrite Qmult_0_l. apply Hvq.
    - rewrite Qmult_1_l. apply Hvq. }
  rewrite bind_Ok.
  destruct (checked_bounds (ratio * 200) 0 200) as (x & -> & Bx);
    [lia | reflexivity | unfold inject_Z in *; lra |].
  rewrite bind_Ok.
  destruct (checked_bounds (x + 20) 20 220) as (y & -> & By);
    [lia | reflexivity | unfold inject_Z in *; lra |].
  rewrite bind_Ok. eexists; split; [reflexivity|].
  apply trunc_bounds; [lia | assumption].
Qed.

(** A channel lies between 18 and 225 for a byte of tint and such a
    [base_gray]. *)
Lemma blend_bounds (t bg : Z) :
  is_byte t -> (20 <= bg <= 220)%Z ->
  exists c, blend t bg = Ok c /\ (18 <= c <= 225)%Z.
Proof.
  intros Hb Hbg. unfold blend, PyFloat.of_int, PyFloat.mul, PyFloat.add.
  unfold is_byte in Hb.
  destruct (checked_bounds (inject_Z t) 0 255) as (tf & -> & Btf);
    [lia | reflexivity | change 0 with (inject_Z 0); rewrite <- !Zle_Qle; lia |].
  rewrite bind_Ok.
  destruct (checked_bounds (tf * PyFloat.lit_0_1) 0 26) as (a & -> & Ba);
    [lia | reflexivity | unfold PyFloat.lit_0_1; unfold inject_Z in *; lra |].
  rewrite bind_Ok.
  destruct (checked_bounds (inject_Z bg) 20 220) as (gf & -> & Bgf);
    [lia | reflexivity | rewrite <- !Zle_Qle; lia |].
  rewrite bind_Ok.
  destruct (checked_bounds (gf * PyFloat.lit_0_9) 18 199) as (b & -> & Bb);
    [lia | reflexivity | unfold PyFloat.lit_0_9; unfold inject_Z in *; lra |].
  rewrite bind_Ok.
  destruct (checked_bounds (a + b) 18 225) as (c & -> & Bc);
    [lia | reflexivity | unfold inject_Z in *; lra |].
  rewrite bind_Ok. eexists; split; [reflexivity|].
  apply trunc_bounds; [lia | assumption].
Qed.

Lemma channel_bounds (algorithm_color : string) (i : nat) (t bg : Z) :
  int16 (substring i 2 algorithm_color) = Ok t ->
  is_byte t -> (20 <= bg <= 220)%Z ->
  exists c, channel algorithm_color i bg = Ok c /\ blend t bg = Ok c /\ (18 <= c <= 225)%Z.
Proof.
  intros Ht Hb Hbg. unfold channel. rewrite Ht, bind_Ok.
  destruct (blend_bounds t bg Hb Hbg) as (c & E & B). eauto.
Qed.

End ColorMapping.

(** ** What the registry holds *)

Section RegistryFacts.

Import Registry Color.

(** A step function whose value never exceeds the range it returns, and a
    colour that is the text of a three-byte tint. *)
Definition bounded_step (f : Z -> Z * Z) : Prop :=
  forall s, 0 < snd (f s) /\ 0 <= fst (f s) <= snd (f s).

Definition tint_color (c : string) : Prop :=
  exists tint, is_tint tint /\ c = tint_text tint.

Lemma lcg_bounds (s : Z) : 0 <= fst (lcg s) < snd (lcg s).
Proof. unfold lcg. simpl. apply Z.mod_pos_bound. lia. Qed.

Lemma park_miller_bounds (s : Z) : 0 <= fst (park_miller s) < snd (park_miller s).
Proof. unfold park_miller. simpl. apply Z.mod_pos_bound. lia. Qed.

Lemma multiply_with_carry_bounds (s : Z) :
  0 <= fst (multiply_with_carry s) < snd (multiply_with_carry s).
Proof.
  unfold multiply_with_carry. cbv zeta. simpl fst; simpl snd.
  change 0xFFFFFFFFFFFFFFFF with (Z.ones 64). change 0xFFFFFFFF with (Z.ones 32).
  rewrite !Z.land_ones by lia.
  pose proof (Z.mod_pos_bound s (2 ^ 32) ltac:(lia)).
  pose proof (Z.mod_pos_bound (Z.shiftr s 32) (2 ^ 32) ltac:(lia)).
  rewrite Z.mod_small; [|change (2 ^ 64) with 18446744073709551616; change (2 ^ 32) with 4294967296 in *; nia].
  change (Z.ones 64) with 18446744073709551615. change (2 ^ 32) with 4294967296 in *. nia.
Qed.

(** The four entries, and nothing else. *)
Lemma ALGORITHMS_lookup (name : string) (a : algorithm) :
  ALGORITHMS !! name = Some a ->
  (name = "Linear Congruential (LCG)"%string /\ func a = lcg /\ color a = "#00d4ff"%string) \/
  (name = "Park-Miller"%string /\ func a = park_miller /\ color a = "#00ff88"%string) \/
  (name = "Xorshift"%string /\ func a = xorshift /\ color a = "#ffaa00"%string) \/
  (name = "Multiply-with-Carry"%string /\ func a = multiply_with_carry /\ color a = "#ff4466"%string).
Proof.
  unfold ALGORITHMS. intros H.
  repeat (apply lookup_insert_Some in H; destruct H as [[<- <-]|[_ H]]; [tauto|]).
  rewrite lookup_empty in H. discriminate.
Qed.

Lemma registered_bounded (name : string) (a : algorithm) :
  ALGORITHMS !! name = Some a -> bounded_step (func a).
Proof.
  intros H s.
  destruct (ALGORITHMS_lookup name a H) as [(_ & -> & _)|[(_ & -> & _)|[(_ & -> & _)|(_ & -> & _)]]].
  - pose proof (lcg_bounds s). lia.
  - pose proof (park_miller_bounds s). lia.
  - pose proof (xorshift_range s) as [? E]. rewrite E. lia.
  - pose proof (multiply_with_carry_bounds s). lia.
Qed.

Lemma registered_tint (name : string) (a : algorithm) :
  ALGORITHMS !! name = Some a -> tint_color (color a).
Proof.
  intros H.
  destruct (ALGORITHMS_lookup name a H) as [(_ & _ & ->)|[(_ & _ & ->)|[(_ & _ & ->)|(_ & _ & ->)]]].
  - exists (0, 212, 255). split; [unfold is_tint, is_byte; lia | reflexivity].
  - exists (0, 255, 136). split; [unfold is_tint, is_byte; lia | reflexivity].
  - exists (255, 170, 0). split; [unfold is_tint, is_byte; lia | reflexivity].
  - exists (255, 68, 102). split; [unfold is_tint, is_byte; lia | reflexivity].
Qed.

End RegistryFacts.

(** ** The loops *)

Section Loops.

Import Py Color App Engine.

Lemma for_each_app {S : Type} (l1 l2 : list Z) (body : Z -> S -> option exn * S) (st : S) :
  for_each (l1 ++ l2) body st =
    match for_each l1 body st with
    | (None, st') => for_each l2 body st'
    | failed => failed
    end.
Proof.
  revert st. induction l1 as [|x l1 IH]; intros st; simpl.
  - reflexivity.
  - destruct (body x st) as [[e|] st']; [reflexivity | apply IH].
Qed.

Lemma last_cons (l : list Z) (v d : Z) : List.last (v :: l) d = List.last l v.
Proof.
  revert v d. induction l as [|z l IH]; intros v d; [reflexivity|].
  change (List.last (v :: z :: l) d) with (List.last (z :: l) d).
  now rewrite !IH.
Qed.

Lemma last_app_default (l1 l2 : list Z) (d : Z) :
  List.last (l1 ++ l2) d = List.last l2 (List.last l1 d).
Proof.
  revert d. induction l1 as [|v l1 IH]; intros d; [reflexivity|].
  rewrite <- app_comm_cons, !last_cons. apply IH.
Qed.

Variable algo_func : Z -> Z * Z.
Variable algo_color : string.
Hypothesis algo_bounded : bounded_step algo_func.
Hypothesis algo_tinted : tint_color algo_color.

(** The colour mapping raises nothing on what a registered step function
    returns. *)
Lemma value_to_color_defined (st : Z) :
  exists color,
    value_to_color (fst (algo_func st)) (snd (algo_func st)) algo_color = Ok color.
Proof.
  destruct (algo_bounded st) as [Hm Hv].
  destruct algo_tinted as ([[r g] b] & Ht & ->).
  unfold value_to_color, channels.
  destruct (base_gray_of_bounds _ _ Hv Hm) as (bg & -> & Hbg). rewrite bind_Ok.
  destruct (tint_text_slices r g b Ht) as (Sr & Sg & Sb).
  destruct Ht as (Hr & Hg & Hb).
  destruct (channel_bounds _ 1 r bg Sr Hr Hbg) as (cr & -> & _ & _). rewrite bind_Ok.
  destruct (channel_bounds _ 3 g bg Sg Hg Hbg) as (cg & -> & _ & _). rewrite bind_Ok.
  destruct (channel_bounds _ 5 b bg Sb Hb Hbg) as (cb & -> & _ & _). rewrite bind_Ok.
  eexists. reflexivity.
Qed.

(** One row: the loop over [x] paints the items of the row after what the
    canvas holds and moves the locals along the values. *)
Lemma row_loop (y : Z) (xs : list Z) (fr : frame) :
  exists its,
    items algo_func algo_color (map (fun x => (y, x)) xs) (s fr) = Some its /\
    for_each xs (cell algo_func algo_color y) fr =
      (None,
       let vs := trajectory algo_func (s fr) (length xs) in
       Frame (set_grid_canvas (grid_canvas (self_ fr) ++ its) (self_ fr))
         (List.last vs (s fr)) (List.last vs (last_value fr))
         (fold_left Py.min vs (min_val fr)) (fold_left Py.max vs (max_val fr))).
Proof.
  revert fr. induction xs as [|x xs IH]; intros fr.
  - exists []. split; [reflexivity|]. simpl. rewrite app_nil_r.
    destruct fr as [[] ? ? ? ?]; reflexivity.
  - destruct (value_to_color_defined (s fr)) as (color & Hc).
    cbn [map items for_each length trajectory]. unfold cell at 1.
    destruct (algo_func (s fr)) as [v m] eqn:Ef. simpl fst in *; simpl snd in *.
    rewrite Hc.
    destruct (IH (Frame (set_grid_canvas (grid_canvas (self_ fr) ++ [Rectangle (x * PIXEL) (y * PIXEL) ((x + 1) * PIXEL) ((y + 1) * PIXEL) color ""]) (self_ fr)) v v (Py.min (min_val fr) v) (Py.max (max_val fr) v)))
      as (its & Hits & Hrun).
    simpl s in Hits. rewrite Hits. exists (item y x color :: its).
    split; [reflexivity|]. rewrite Hrun. cbv zeta. simpl s; simpl last_value; simpl min_val; simpl max_val; simpl self_.
    f_equal. f_equal.
    + destruct (self_ fr); unfold set_grid_canvas; simpl. rewrite <- app_assoc. reflexivity.
    + symmetry. apply last_cons.
    + symmetry. apply last_cons.
Qed.

Lemma trajectory_app (st : Z) (n m : nat) :
  trajectory algo_func st (n + m) =
    trajectory algo_func st n ++
    trajectory algo_func (List.last (trajectory algo_func st n) st) m.
Proof.
  revert st. induction n as [|n IH]; intros st; [reflexivity|].
  cbn [Nat.add trajectory]. rewrite IH, last_cons. reflexivity.
Qed.

Lemma items_app (l1 l2 : list (Z * Z)) (st : Z) :
  items algo_func algo_color (l1 ++ l2) st =
    match items algo_func algo_color l1 st with
    | Some its1 =>
        option_map (app its1)
          (items algo_func algo_color l2
             (List.last (trajectory algo_func st (length l1)) st))
    | None => None
    end.
Proof.
  revert st. induction l1 as [|[y x] l1 IH]; intros st.
  - simpl. destruct (items algo_func algo_color l2 st); reflexivity.
  - cbn [app items length trajectory]. rewrite last_cons.
    destruct (algo_func st) as [v m]. simpl fst.
    destruct (value_to_color v m algo_color); [|reflexivity].
    rewrite IH. destruct (items algo_func algo_color l1 v); [|reflexivity].
    simpl. destruct (items algo_func algo_color l2 _); reflexivity.
Qed.

(** All rows: the two loops paint the items of the cells in row-major order
    and move the locals along the values. *)
Lemma rows_loop (ys xs : list Z) (fr : frame) :
  let cells := flat_map (fun y => map (fun x => (y, x)) xs) ys in
  exists its,
    items algo_func algo_color cells (s fr) = Some its /\
    for_each ys (fun y => for_each xs (cell algo_func algo_color y)) fr =
      (None,
       let vs := trajectory algo_func (s fr) (length cells) in
       Frame (set_grid_canvas (grid_canvas (self_ fr) ++ its) (self_ fr))
         (List.last vs (s fr)) (List.last vs (last_value fr))
         (fold_left Py.min vs (min_val fr)) (fold_left Py.max vs (max_val fr))).
Proof.
  cbv zeta. revert fr. induction ys as [|y ys IH]; intros fr.
  - exists []. split; [reflexivity|]. simpl. rewrite app_nil_r.
    destruct fr as [[] ? ? ? ?]; reflexivity.
  - destruct (row_loop y xs fr) as (its1 & Hits1 & Hrow).
    cbn [flat_map for_each]. rewrite Hrow. cbv zeta.
    match goal with |- context [for_each ys _ ?fr1] => destruct (IH fr1) as (its2 & Hits2 & Hrest) end.
    rewrite Hrest. clear Hrest Hrow. simpl s in *. simpl self_. simpl last_value. simpl min_val. simpl max_val.
    exists (its1 ++ its2). split.
    + rewrite items_app, Hits1. rewrite length_map. rewrite Hits2. reflexivity.
    + rewrite length_app, length_map, trajectory_app, !last_app_default, !fold_left_app.
      f_equal. f_equal.
      destruct (self_ fr); unfold set_grid_canvas; simpl. rewrite <- app_assoc. reflexivity.
Qed.

(** The loops of the method from the locals it sets. *)
Lemma grid_loops_run (width height seed : Z) (self : RNGVisualizerPro) :
  exists grid st,
    generate algo_func algo_color seed width height = Some (grid, st) /\
    grid_loops algo_func algo_color width height
        (initial_frame (set_grid_canvas [] self) seed) =
      (None,
       Frame (set_grid_canvas grid self) (List.last (trajectory algo_func seed
                 (length (grid_cells width height))) seed)
         (stat_last_value st) (stat_min_value st) (stat_max_value st)) /\
    st = Stats (last_of (trajectory algo_func seed (length (grid_cells width height))) seed)
           (width * height)
           (min_of (trajectory algo_func seed (length (grid_cells width height))))
           (max_of (trajectory algo_func seed (length (grid_cells width height)))).
Proof.
  unfold grid_loops, generate.
  destruct (rows_loop (range height) (range width) (initial_frame (set_grid_canvas [] self) seed))
    as (its & Hits & Hrun).
  fold (grid_cells width height) in Hits, Hrun. simpl s in Hits.
  rewrite Hits. eexists _, _. split; [reflexivity|]. split; [|reflexivity].
  refine (eq_trans Hrun _). simpl. unfold set_grid_canvas. reflexivity.
Qed.

End Loops.

(** ** The statistics of a run *)

Section Statistics.

Import Py Engine.

Lemma fold_min_Int (vs : list Z) (m0 : Z) :
  exists m, fold_left Py.min vs (Int m0) = Int m /\ m <= m0 /\
            (forall v, In v vs -> m <= v) /\ (m = m0 \/ In m vs).
Proof.
  revert m0. induction vs as [|v vs IH]; intros m0.
  - exists m0. simpl. repeat split; [lia | contradiction | now left].
  - cbn [fold_left Py.min]. destruct (v <? m0) eqn:E.
    + apply Z.ltb_lt in E. destruct (IH v) as (m & -> & Hle & Hall & Hin).
      exists m. split; [reflexivity|]. split; [lia|]. split.
      * intros u [<-|Hu]; [lia | auto].
      * right. destruct Hin as [->|Hin]; [now left | now right].
    + apply Z.ltb_ge in E. destruct (IH m0) as (m & -> & Hle & Hall & Hin).
      exists m. split; [reflexivity|]. split; [lia|]. split.
      * intros u [<-|Hu]; [lia | auto].
      * destruct Hin as [->|Hin]; [now left | right; now right].
Qed.

(** The smallest value of a run that has one. *)
Lemma min_of_least (vs : list Z) :
  vs <> [] ->
  exists m, min_of vs = Int m /\ In m vs /\ forall v, In v vs -> m <= v.
Proof.
  destruct vs as [|v vs]; [congruence | intros _].
  unfold min_of. cbn [fold_left Py.min].
  destruct (fold_min_Int vs v) as (m & -> & Hle & Hall & Hin).
  exists m. split; [reflexivity|]. split.
  - destruct Hin as [->|Hin]; [now left | now right].
  - intros u [<-|Hu]; [lia | auto].
Qed.

Lemma fold_max_bounds (vs : list Z) (m0 : Z) :
  m0 <= fold_left Py.max vs m0 /\
  (forall v, In v vs -> v <= fold_left Py.max vs m0) /\
  (fold_left Py.max vs m0 = m0 \/ In (fold_left Py.max vs m0) vs).
Proof.
  revert m0. induction vs as [|v vs IH]; intros m0.
  - simpl. repeat split; [lia | contradiction | now left].
  - cbn [fold_left]. destruct (IH (Py.max m0 v)) as (Hle & Hall & Hin).
    assert (Hm : m0 <= Py.max m0 v /\ v <= Py.max m0 v /\ (Py.max m0 v = m0 \/ Py.max m0 v = v)).
    { unfold Py.max. destruct (m0 <? v) eqn:E;
        [apply Z.ltb_lt in E | apply Z.ltb_ge in E]; lia. }
    split; [lia|]. split.
    + intros u [<-|Hu]; [lia | auto].
    + destruct Hin as [->|Hin]; [|right; now right].
      destruct Hm as (_ & _ & [->| ->]); [now left | right; now left].
Qed.

(** The largest value of a run whose values are not negative. *)
Lemma max_of_greatest (vs : list Z) :
  vs <> [] -> (forall v, In v vs -> 0 <= v) ->
  In (max_of vs) vs /\ forall v, In v vs -> v <= max_of vs.
Proof.
  intros Hne Hpos. unfold max_of.
  destruct (fold_max_bounds vs 0) as (Hle & Hall & Hin).
  split; [|assumption].
  destruct Hin as [E|Hin]; [|assumption].
  destruct vs as [|v vs]; [congruence|].
  assert (v = 0).
  { pose proof (Hall v (or_introl eq_refl)). pose proof (Hpos v (or_introl eq_refl)). lia. }
  rewrite E. subst v. now left.
Qed.

Lemma last_of_In (vs : list Z) (seed : Z) : vs <> [] -> In (last_of vs seed) vs.
Proof.
  unfold last_of. induction vs as [|v vs IH]; [congruence | intros _].
  destruct vs as [|u vs]; [now left|].
  right. change (List.last (v :: u :: vs) seed) with (List.last (u :: vs) seed).
  apply IH. congruence.
Qed.

Lemma trajectory_nonneg (algo_func : Z -> Z * Z) (st : Z) (n : nat) :
  bounded_step algo_func -> forall v, In v (trajectory algo_func st n) -> 0 <= v.
Proof.
  intros Hb. revert st. induction n as [|n IH]; intros st v; [contradiction|].
  cbn [trajectory]. intros [<-|Hin]; [apply Hb | eauto].
Qed.

Lemma trajectory_length (algo_func : Z -> Z * Z) (st : Z) (n : nat) :
  length (trajectory algo_func st n) = n.
Proof. revert st. induction n as [|n IH]; intros st; simpl; [reflexivity | now rewrite IH]. Qed.

Lemma grid_cells_length (width height : Z) :
  length (grid_cells width height) = (Z.to_nat height * Z.to_nat width)%nat.
Proof.
  unfold grid_cells.
  assert (H : forall ys xs : list Z,
             length (flat_map (fun y => map (fun x => (y, x)) xs) ys)
             = (length ys * length xs)%nat).
  { induction ys as [|y ys IH]; intros xs; simpl; [reflexivity|].
    now rewrite length_app, length_map, IH. }
  rewrite H. unfold App.range. now rewrite !length_map, !length_seq.
Qed.

(** In a run with a cell the chain [min <= last <= max] holds. *)
Lemma stats_ordered (algo_func : Z -> Z * Z) (seed : Z) (n : nat) :
  bounded_step algo_func -> n <> O ->
  let vs := trajectory algo_func seed n in
  number_le_int (min_of vs) (last_of vs seed) /\ last_of vs seed <= max_of vs.
Proof.
  intros Hb Hn vs.
  assert (Hne : vs <> []).
  { intros E. apply (f_equal (@length Z)) in E. unfold vs in E.
    rewrite trajectory_length in E. simpl in E. congruence. }
  destruct (min_of_least vs Hne) as (m & Em & _ & Hm).
  destruct (max_of_greatest vs Hne (trajectory_nonneg algo_func seed n Hb)) as (_ & HM).
  pose proof (last_of_In vs seed Hne) as Hl.
  rewrite Em. simpl. split; auto.
Qed.

End Statistics.

(** ** generate_visualization *)

Section Generation.

Import Py App Engine.

Lemma update_stat_lookup (lbl value lbl' : string) (self : RNGVisualizerPro) :
  stats_items (_update_stat lbl value self) !! lbl' =
    if decide (lbl = lbl')
    then (stats_items self !! lbl') ≫= (fun _ => Some value)
    else stats_items self !! lbl'.
Proof.
  unfold _update_stat. destruct (stats_items self !! lbl) eqn:E; simpl.
  - destruct (decide (lbl = lbl')) as [<-|N].
    + rewrite lookup_insert_eq, E. reflexivity.
    + now rewrite lookup_insert_ne.
  - destruct (decide (lbl = lbl')) as [<-|N]; [now rewrite E | reflexivity].
Qed.

Lemma update_stat_frame (lbl value : string) (self : RNGVisualizerPro) :
  current_algorithm (_update_stat lbl value self) = current_algorithm self /\
  is_generating (_update_stat lbl value self) = is_generating self /\
  status_label (_update_stat lbl value self) = status_label self /\
  seed_entry (_update_stat lbl value self) = seed_entry self /\
  grid_canvas (_update_stat lbl value self) = grid_canvas self.
Proof. unfold _update_stat. destruct (stats_items self !! lbl); repeat split. Qed.

(** What a shown run leaves on the object. *)
Lemma shown_fields (name : string) (grid : list rectangle) (st : GenerationStats)
    (gen_time : Q) (self : RNGVisualizerPro) :
  let self' := shown name grid st gen_time self in
  grid_canvas self' = grid /\
  is_generating self' = false /\
  seed_entry self' = seed_entry self /\
  current_algorithm self' = current_algorithm self /\
  label_shows self self' "Final Value" (format_commas (stat_last_value st)) /\
  label_shows self self' "Iterations" (format_commas (stat_iteration_count st)) /\
  label_shows self self' "Min Value" (format_number_commas (stat_min_value st)) /\
  label_shows self self' "Max Value" (format_commas (stat_max_value st)).
Proof.
  cbv zeta. unfold shown, label_shows. simpl.
  repeat match goal with
  | |- context [_update_stat ?l ?v ?x] =>
      lazymatch x with
      | context [_update_stat] => fail
      | _ => destruct (update_stat_frame l v x) as (? & ? & ? & ? & ?)
      end;
      pose proof (fun l' => update_stat_lookup l v l' x);
      generalize dependent (_update_stat l v x); intros
  end.
  simpl in *.
  repeat split; try congruence.
  all: repeat match goal with
       | L : forall l', stats_items ?x !! l' = _ |- context [stats_items ?x !! ?l] =>
           rewrite (L l); clear L
       end; reflexivity.
Qed.

(** The part of the method after the seed is known, on a registered
    algorithm: the loops raise nothing and the object shows the run. *)
Lemma generate_from_run (name : string) (algo_func : Z -> Z * Z) (algo_color : string)
    (seed width height : Z) (w : world) (self : RNGVisualizerPro) :
  bounded_step algo_func -> tint_color algo_color ->
  exists grid st,
    generate algo_func algo_color seed width height = Some (grid, st) /\
    generate_from name algo_func algo_color seed width height w self =
      (None, shown name grid st (PyFloat.round64 (time_end w - time_start w)) self).
Proof.
  intros Hb Ht.
  destruct (grid_loops_run algo_func algo_color Hb Ht width height seed self)
    as (grid & st & Hgen & Hrun & Est).
  exists grid, st. split; [assumption|].
  unfold generate_from. rewrite Hrun. unfold shown. subst st. reflexivity.
Qed.

(** The object when the seed is read: flag raised, status "Generating...". *)
Definition started (self : RNGVisualizerPro) : RNGVisualizerPro :=
  set_status_label (Label "Generating..." COLORS_accent_primary)
    (set_is_generating true self).

Lemma generate_on_run (width height : Z) (w : world) (self : RNGVisualizerPro)
    (a : Registry.algorithm) :
  is_generating self = false ->
  Registry.ALGORITHMS !! current_algorithm self = Some a ->
  exists grid st,
    generate (Registry.func a) (Registry.color a) (fst (get_seed w (started self)))
      width height = Some (grid, st) /\
    generate_on width height w self =
      (None, shown (current_algorithm self) grid st
               (PyFloat.round64 (time_end w - time_start w))
               (snd (get_seed w (started self)))).
Proof.
  intros Hflag Ha. unfold generate_on. rewrite Hflag.
  change (set_status_label _ (set_is_generating true self)) with (started self).
  change (current_algorithm (started self)) with (current_algorithm self).
  rewrite Ha. destruct (get_seed w (started self)) as [seed self1]. simpl fst; simpl snd.
  apply generate_from_run;
    [exact (registered_bounded _ a Ha) | exact (registered_tint _ a Ha)].
Qed.

Lemma get_seed_parsed (w : world) (self : RNGVisualizerPro) (seed : Z) :
  int_of_text (seed_entry self) = Ok seed ->
  get_seed w (started self) = (seed, started self).
Proof. intros H. unfold get_seed. simpl. now rewrite H. Qed.

Lemma get_seed_substituted (w : world) (self : RNGVisualizerPro) (e : exn) :
  int_of_text (seed_entry self) = Raise e ->
  get_seed w (started self) =
    (randint 1 999999 (entropy w),
     set_seed_entry (str (randint 1 999999 (entropy w))) (started self)).
Proof. intros H. unfold get_seed. simpl. now rewrite H. Qed.

Lemma get_seed_frame (w : world) (self : RNGVisualizerPro) :
  current_algorithm (snd (get_seed w self)) = current_algorithm self /\
  stats_items (snd (get_seed w self)) = stats_items self.
Proof. unfold get_seed. destruct (int_of_text (seed_entry self)); split; reflexivity. Qed.

Lemma randint_range (a b bits : Z) : a <= b -> a <= randint a b bits <= b.
Proof. intros H. unfold randint. pose proof (Z.mod_pos_bound bits (b - a + 1)). lia. Qed.

(** What a call shows: it returns, and the object holds the grid and, on
    the labels that exist, the four statistics. *)
Definition run_shows (w : world) (self : RNGVisualizerPro)
    (grid : list rectangle) (st : GenerationStats) : Prop :=
  exists self',
    generate_visualization w self = (None, self') /\
    grid_canvas self' = grid /\
    label_shows self self' "Final Value" (format_commas (stat_last_value st)) /\
    label_shows self self' "Iterations" (format_commas (stat_iteration_count st)) /\
    label_shows self self' "Min Value" (format_number_commas (stat_min_value st)) /\
    label_shows self self' "Max Value" (format_commas (stat_max_value st)).

Lemma run_shows_intro (w : world) (self : RNGVisualizerPro) (a : Registry.algorithm)
    (seed : Z) (self1 : RNGVisualizerPro) :
  is_generating self = false ->
  Registry.ALGORITHMS !! current_algorithm self = Some a ->
  get_seed w (started self) = (seed, self1) ->
  stats_items self1 = stats_items self ->
  exists grid st,
    generate (Registry.func a) (Registry.color a) seed GRID_W GRID_H = Some (grid, st) /\
    run_shows w self grid st /\
    (forall self', generate_visualization w self = (None, self') ->
                   seed_entry self' = seed_entry self1).
Proof.
  intros Hflag Ha Hseed Hstats.
  destruct (generate_on_run GRID_W GRID_H w self a Hflag Ha) as (grid & st & Hgen & Hrun).
  rewrite Hseed in Hgen, Hrun. simpl fst in Hgen; simpl snd in Hrun.
  exists grid, st. split; [assumption|].
  pose proof (shown_fields (current_algorithm self) grid st
                (PyFloat.round64 (time_end w - time_start w)) self1) as F.
  cbv zeta in F. destruct F as (Fg & _ & Fs & _ & F1 & F2 & F3 & F4).
  unfold label_shows in *. rewrite Hstats in *.
  split.
  - eexists. split; [exact Hrun|]. unfold label_shows. auto 10.
  - intros self' E. unfold generate_visualization in E. rewrite Hrun in E.
    injection E as <-. exact Fs.
Qed.

(** The iteration count of a run is the product of the dimensions. *)
Lemma generate_count (algo_func : Z -> Z * Z) (algo_color : string)
    (seed width height : Z) (grid : list rectangle) (st : GenerationStats) :
  generate algo_func algo_color seed width height = Some (grid, st) ->
  stat_iteration_count st = width * height.
Proof.
  unfold generate. destruct (items _ _ _ _); [|discriminate].
  cbn [option_map]. intros E. injection E as _ <-. reflexivity.
Qed.

(** C4. Two calls on objects that select the same registered algorithm
    and hold seed texts that parse to the same integer return and show the
    same grid, cell for cell, and the same last value, minimum, maximum and
    iteration count, whatever else the objects held before and whatever the
    clock and the entropy are. *)
Theorem generation_deterministic (w1 w2 : world) (self1 self2 : RNGVisualizerPro)
    (a : Registry.algorithm) (seed : Z) :
  is_generating self1 = false -> is_generating self2 = false ->
  current_algorithm self1 = current_algorithm self2 ->
  Registry.ALGORITHMS !! current_algorithm self1 = Some a ->
  int_of_text (seed_entry self1) = Ok seed ->
  int_of_text (seed_entry self2) = Ok seed ->
  exists grid st,
    generate (Registry.func a) (Registry.color a) seed GRID_W GRID_H = Some (grid, st) /\
    stat_iteration_count st = GRID_W * GRID_H /\
    run_shows w1 self1 grid st /\ run_shows w2 self2 grid st.
Proof.
  intros F1 F2 Ealg Ha S1 S2.
  destruct (run_shows_intro w1 self1 a seed (started self1) F1 Ha
              (get_seed_parsed w1 self1 seed S1) eq_refl) as (grid & st & Hgen & R1 & _).
  rewrite Ealg in Ha.
  destruct (run_shows_intro w2 self2 a seed (started self2) F2 Ha
              (get_seed_parsed w2 self2 seed S2) eq_refl) as (grid' & st' & Hgen' & R2 & _).
  rewrite Hgen in Hgen'. injection Hgen' as <- <-.
  exists grid, st. repeat split; try assumption.
  exact (generate_count _ _ _ _ _ _ _ Hgen).
Qed.

(** C5, as stated, fails: the call on an unregistered name raises, and by
    then the flag is raised and the status text replaced. *)
Lemma unknown_algorithm_changes_object :
  let self := set_current_algorithm "Mersenne Twister" initial in
  let w := World 0 0 0 in
  Registry.ALGORITHMS !! current_algorithm self = None /\
  fst (generate_visualization w self) = Some (KeyError "Mersenne Twister") /\
  snd (generate_visualization w self) <> self /\
  is_generating self = false /\
  is_generating (snd (generate_visualization w self)) = true /\
  status_label (snd (generate_visualization w self)) = Label "Generating..." "#00d4ff".
Proof. vm_compute. repeat split. discriminate. Qed.

(** C5, amended. A call that is not in flight on an unregistered name
    raises [KeyError] with the name; the grid, the statistics, the seed
    entry and the selection are what they were; the flag is raised and the
    status text reads "Generating...". *)
Theorem unknown_algorithm_raises (w : world) (self : RNGVisualizerPro) :
  is_generating self = false ->
  Registry.ALGORITHMS !! current_algorithm self = None ->
  exists self',
    generate_visualization w self = (Some (KeyError (current_algorithm self)), self') /\
    grid_canvas self' = grid_canvas self /\
    stats_items self' = stats_items self /\
    seed_entry self' = seed_entry self /\
    current_algorithm self' = current_algorithm self /\
    is_generating self' = true /\
    status_label self' = Label "Generating..." COLORS_accent_primary.
Proof.
  intros Hflag Hnone. exists (started self).
  unfold generate_visualization, generate_on. rewrite Hflag.
  change (set_status_label _ (set_is_generating true self)) with (started self).
  change (current_algorithm (started self)) with (current_algorithm self).
  rewrite Hnone. repeat split.
Qed.

Lemma unknown_algorithm_raises_witness :
  exists self',
    generate_visualization (World 0 0 0) (set_current_algorithm "Mersenne Twister" initial)
      = (Some (KeyError "Mersenne Twister"), self') /\
    grid_canvas self' = [] /\
    stats_items self' = stats_items initial /\
    seed_entry self' = "12345"%string /\
    current_algorithm self' = "Mersenne Twister"%string /\
    is_generating self' = true /\
    status_label self' = Label "Generating..." COLORS_accent_primary.
Proof.
  apply (unknown_algorithm_raises (World 0 0 0)
           (set_current_algorithm "Mersenne Twister" initial)); reflexivity.
Defined.

(** C10. A call made while the flag is raised returns at once and leaves
    the object as it was: grid, statistics, status text and seed entry. *)
Theorem in_flight_call_is_noop (w : world) (self : RNGVisualizerPro) :
  is_generating self = true ->
  generate_visualization w self = (None, self).
Proof. intros H. unfold generate_visualization, generate_on. now rewrite H. Qed.

Lemma in_flight_call_is_noop_witness :
  generate_visualization (World 7 0 1) (set_is_generating true initial)
    = (None, set_is_generating true initial).
Proof. apply (in_flight_call_is_noop (World 7 0 1) (set_is_generating true initial)). reflexivity. Defined.

End Generation.

(** ** The ratio of a value to its range *)

Section Ratio.

Import Registry.
Local Open Scope Q_scope.

Lemma ratio_bounds (v r : Z) :
  (0 < r)%Z -> (0 <= v <= r)%Z -> 0 <= inject_Z v / inject_Z r <= 1.
Proof.
  intros Hr Hv.
  assert (Hrq : 0 < inject_Z r) by (change 0 with (inject_Z 0); now rewrite <- Zlt_Qlt).
  assert (Hvq : 0 <= inject_Z v <= inject_Z r)
    by (change 0 with (inject_Z 0); rewrite <- !Zle_Qle; lia).
  split; [apply Qle_shift_div_l | apply Qle_shift_div_r]; try assumption.
  - rewrite Qmult_0_l. apply Hvq.
  - rewrite Qmult_1_l. apply Hvq.
Qed.

Lemma ratio_below_one (v r : Z) :
  (0 < r)%Z -> (v < r)%Z -> inject_Z v / inject_Z r < 1.
Proof.
  intros Hr Hv.
  assert (Hrq : 0 < inject_Z r) by (change 0 with (inject_Z 0); now rewrite <- Zlt_Qlt).
  apply Qlt_shift_div_r; [assumption|]. rewrite Qmult_1_l. now rewrite <- Zlt_Qlt.
Qed.

(** C9, as stated, fails: Xorshift returns the range [0xFFFFFFFF] itself
    from the seed 1584200935, so the first cell of that run has the ratio
    one, over the rationals and as the float the colour mapping computes. *)
Lemma xorshift_ratio_reaches_one :
  ALGORITHMS !! "Xorshift"%string =
    Some (Algorithm xorshift "Fast bitwise operation-based generator" "#ffaa00") /\
  xorshift 1584200935 = (0xFFFFFFFF, 0xFFFFFFFF)%Z /\
  Engine.trajectory xorshift 1584200935 1 = [0xFFFFFFFF%Z] /\
  ~ inject_Z (fst (xorshift 1584200935)) / inject_Z (snd (xorshift 1584200935)) < 1 /\
  PyFloat.true_div (fst (xorshift 1584200935)) (snd (xorshift 1584200935)) = Py.Ok 1.
Proof.
  split; [reflexivity|]. split; [reflexivity|]. split; [reflexivity|].
  split; [|vm_compute; reflexivity].
  vm_compute. discriminate.
Qed.

(** C9, amended. For every registered algorithm and every state the value
    returned lies between zero and the range returned with it, so the
    ratio lies in the closed interval from 0 to 1; it is below 1 for every
    algorithm but Xorshift, whose mask is also its largest value. *)
Theorem ratio_in_unit_interval (name : string) (a : algorithm) (st : Z) :
  ALGORITHMS !! name = Some a ->
  let v := fst (func a st) in
  let r := snd (func a st) in
  (0 < r)%Z /\ (0 <= v <= r)%Z /\
  0 <= inject_Z v / inject_Z r <= 1 /\
  (name <> "Xorshift"%string -> (v < r)%Z /\ inject_Z v / inject_Z r < 1).
Proof.
  intros Ha v r.
  destruct (registered_bounded name a Ha st) as [Hr Hv]. fold v r in Hr, Hv.
  split; [assumption|]. split; [assumption|]. split; [now apply ratio_bounds|].
  intros Hx.
  assert (Hlt : (v < r)%Z).
  { unfold v, r.
    destruct (ALGORITHMS_lookup name a Ha) as [(_ & -> & _)|[(_ & -> & _)|[(E & _)|(_ & -> & _)]]].
    - apply lcg_bounds.
    - apply park_miller_bounds.
    - contradiction.
    - apply multiply_with_carry_bounds. }
  split; [assumption | now apply ratio_below_one].
Qed.

Lemma ratio_in_unit_interval_witness :
  let v := fst (lcg 1) in
  let r := snd (lcg 1) in
  (0 < r)%Z /\ (0 <= v <= r)%Z /\
  0 <= inject_Z v / inject_Z r <= 1 /\
  ("Linear Congruential (LCG)"%string <> "Xorshift"%string ->
   (v < r)%Z /\ inject_Z v / inject_Z r < 1).
Proof.
  apply (ratio_in_unit_interval "Linear Congruential (LCG)"
           (Algorithm lcg "Classic PRNG used in many systems" "#00d4ff") 1).
  reflexivity.
Defined.

End Ratio.

(** ** The locals of a run *)

Section Locals.

Import Py App Engine.

Definition lcg_entry : Registry.algorithm :=
  Registry.Algorithm Registry.lcg "Classic PRNG used in many systems" "#00d4ff".

(** The locals with which the loops of a call end, and what the call shows
    of them.  The loops are those the method runs: over [GRID_W] by
    [GRID_H] cells, from the locals of lines 641-647, on the seed and the
    object that "Get seed" leaves.  The call returns, the canvas holds the
    items painted, and the labels show the last value, the number of
    iterations, the minimum and the maximum that the locals hold. *)
Definition run_ends (w : world) (self : RNGVisualizerPro) (a : Registry.algorithm)
    (fr : frame) : Prop :=
  grid_loops (Registry.func a) (Registry.color a) GRID_W GRID_H
    (initial_frame (set_grid_canvas [] (snd (get_seed w (started self))))
       (fst (get_seed w (started self)))) = (None, fr) /\
  run_shows w self (grid_canvas (self_ fr))
    (Stats (last_value fr) (GRID_W * GRID_H) (min_val fr) (max_val fr)).

(** The values the state goes through in a call: one for each cell. *)
Definition values_of_call (w : world) (self : RNGVisualizerPro) (a : Registry.algorithm)
    : list Z :=
  trajectory (Registry.func a) (fst (get_seed w (started self)))
    (Z.to_nat (GRID_W * GRID_H)).

Lemma grid_count : length (grid_cells GRID_W GRID_H) = Z.to_nat (GRID_W * GRID_H).
Proof. rewrite grid_cells_length. unfold GRID_W, GRID_H. lia. Qed.

Lemma grid_has_cells : Z.to_nat (GRID_W * GRID_H) <> O.
Proof. unfold GRID_W, GRID_H. lia. Qed.

(** Every call that is not in flight, on a registered algorithm, ends its
    loops; the locals then are the statistics of the values of the call. *)
Lemma run_ends_intro (w : world) (self : RNGVisualizerPro) (a : Registry.algorithm) :
  is_generating self = false ->
  Registry.ALGORITHMS !! current_algorithm self = Some a ->
  exists fr,
    run_ends w self a fr /\
    last_value fr = last_of (values_of_call w self a) (fst (get_seed w (started self))) /\
    min_val fr = min_of (values_of_call w self a) /\
    max_val fr = max_of (values_of_call w self a).
Proof.
  intros Hflag Ha. unfold run_ends, values_of_call.
  pose proof (proj2 (get_seed_frame w (started self))) as Hstats.
  destruct (get_seed w (started self)) as [seed self0] eqn:Hseed.
  cbn [fst snd] in *.
  destruct (grid_loops_run (Registry.func a) (Registry.color a)
              (registered_bounded _ a Ha) (registered_tint _ a Ha) GRID_W GRID_H seed self0)
    as (grid & st & Hgen & Hrun & Est).
  destruct (run_shows_intro w self a seed self0 Hflag Ha Hseed Hstats)
    as (grid' & st' & Hgen' & Hshow & _).
  rewrite Hgen in Hgen'. injection Hgen' as <- <-.
  rewrite grid_count in Est, Hrun.
  generalize dependent (Z.to_nat (GRID_W * GRID_H)). intros n Hrun Est.
  subst st. cbn [stat_last_value stat_min_value stat_max_value] in Hrun.
  eexists. split; [split; [exact Hrun|] |].
  - cbn [self_ grid_canvas set_grid_canvas last_value min_val max_val]. exact Hshow.
  - cbn [last_value min_val max_val]. repeat split.
Qed.

(** The chain [min_val <= last_value <= max_val] on the locals. *)
Definition ordered (fr : frame) : Prop :=
  number_le_int (min_val fr) (last_value fr) /\ last_value fr <= max_val fr.

Lemma run_ends_ordered (w : world) (self : RNGVisualizerPro) (a : Registry.algorithm)
    (fr : frame) :
  Registry.ALGORITHMS !! current_algorithm self = Some a ->
  last_value fr = last_of (values_of_call w self a) (fst (get_seed w (started self))) ->
  min_val fr = min_of (values_of_call w self a) ->
  max_val fr = max_of (values_of_call w self a) ->
  ordered fr.
Proof.
  unfold values_of_call. pose proof grid_has_cells as Hn.
  generalize dependent (Z.to_nat (GRID_W * GRID_H)). intros n Hn Ha El Em EM.
  unfold ordered. rewrite El, Em, EM.
  exact (stats_ordered (Registry.func a) (fst (get_seed w (started self))) n
           (registered_bounded _ a Ha) Hn).
Qed.

(** C6, as stated, fails: there is no call of the method, whatever the
    registered algorithm, the seed entry, the entropy and the object, whose
    run ends with a last value outside the minimum and the maximum that it
    shows; the grid always has 120 by 120 cells. *)
Lemma last_value_never_outside :
  ~ exists (w : world) (self : RNGVisualizerPro) (a : Registry.algorithm),
      is_generating self = false /\
      Registry.ALGORITHMS !! current_algorithm self = Some a /\
      forall fr, run_ends w self a fr -> ~ ordered fr.
Proof.
  intros (w & self & a & Hflag & Ha & Hno).
  destruct (run_ends_intro w self a Hflag Ha) as (fr & Hends & El & Em & EM).
  exact (Hno fr Hends (run_ends_ordered w self a fr Ha El Em EM)).
Qed.

(** C6, amended. Every call of [generate_visualization] that is not in
    flight, on a registered algorithm, is a run of [GRID_W * GRID_H > 0]
    iterations; the last value, the minimum and the maximum that it shows
    satisfy [min_val <= last_value <= max_val], hence
    [min_val <= max_val], for every algorithm and every seed. *)
Theorem stats_ordered_after_run (w : world) (self : RNGVisualizerPro)
    (a : Registry.algorithm) :
  is_generating self = false ->
  Registry.ALGORITHMS !! current_algorithm self = Some a ->
  exists fr,
    run_ends w self a fr /\
    0 < GRID_W * GRID_H /\
    number_le_int (min_val fr) (last_value fr) /\
    last_value fr <= max_val fr /\
    number_le_int (min_val fr) (max_val fr).
Proof.
  intros Hflag Ha.
  destruct (run_ends_intro w self a Hflag Ha) as (fr & Hends & El & Em & EM).
  destruct (run_ends_ordered w self a fr Ha El Em EM) as [H1 H2].
  exists fr. split; [exact Hends|]. split; [reflexivity|].
  split; [exact H1|]. split; [exact H2|].
  clear - H1 H2. destruct (min_val fr) as [m|]; cbn [number_le_int] in *; [lia | exact H1].
Qed.

Lemma stats_ordered_after_run_witness :
  exists fr,
    run_ends (World 0 0 1) initial lcg_entry fr /\
    0 < GRID_W * GRID_H /\
    number_le_int (min_val fr) (last_value fr) /\
    last_value fr <= max_val fr /\
    number_le_int (min_val fr) (max_val fr).
Proof.
  apply (stats_ordered_after_run (World 0 0 1) initial lcg_entry); reflexivity.
Defined.

(** On an empty grid the locals keep what they were given before the
    loops: the chain fails there, and only there. *)
Example empty_grid_keeps_sentinels :
  grid_loops Registry.lcg "#00d4ff" 0 120 (initial_frame (set_grid_canvas [] initial) 7)
    = (None, Frame (set_grid_canvas [] initial) 7 7 Inf 0).
Proof. reflexivity. Qed.





End Locals.

(** ** The remaining statements about a run *)

Section Runs.

Import Py App Engine.

(** C8. When the text of the seed entry is not an integer the call does
    not raise: the seed is drawn between 1 and 999999, the run is the run
    from that seed, and the seed entry reads that seed afterwards. *)
Theorem invalid_seed_is_substituted (w : world) (self : RNGVisualizerPro)
    (a : Registry.algorithm) (e : exn) :
  is_generating self = false ->
  Registry.ALGORITHMS !! current_algorithm self = Some a ->
  int_of_text (seed_entry self) = Raise e ->
  let seed := randint 1 999999 (entropy w) in
  1 <= seed <= 999999 /\
  exists grid st self',
    generate (Registry.func a) (Registry.color a) seed GRID_W GRID_H = Some (grid, st) /\
    generate_visualization w self = (None, self') /\
    seed_entry self' = str seed /\
    run_shows w self grid st.
Proof.
  intros Hflag Ha Hbad seed. split; [apply randint_range; lia|].
  destruct (run_shows_intro w self a seed (set_seed_entry (str seed) (started self))
              Hflag Ha (get_seed_substituted w self e Hbad) eq_refl)
    as (grid & st & Hgen & Hshow & Hseed).
  destruct Hshow as (self' & Hrun & Hrest).
  exists grid, st, self'. split; [assumption|]. split; [assumption|].
  split; [exact (Hseed self' Hrun)|].
  exists self'. split; assumption.
Qed.

Lemma invalid_seed_is_substituted_witness :
  let seed := randint 1 999999 41 in
  1 <= seed <= 999999 /\
  exists grid st self',
    generate (Registry.func lcg_entry) (Registry.color lcg_entry) seed GRID_W GRID_H
      = Some (grid, st) /\
    generate_visualization (World 41 0 1) (set_seed_entry "seed?" initial) = (None, self') /\
    seed_entry self' = str seed /\
    run_shows (World 41 0 1) (set_seed_entry "seed?" initial) grid st.
Proof.
  apply (invalid_seed_is_substituted (World 41 0 1) (set_seed_entry "seed?" initial)
           lcg_entry ValueError); reflexivity.
Defined.

Lemma generation_deterministic_witness :
  exists grid st,
    generate (Registry.func lcg_entry) (Registry.color lcg_entry) 12345 GRID_W GRID_H
      = Some (grid, st) /\
    stat_iteration_count st = GRID_W * GRID_H /\
    run_shows (World 0 0 1) initial grid st /\
    run_shows (World 9 5 7) (set_seed_entry " +１２_３４５ " (shown "Xorshift" [] (Stats 1 2 Inf 3) 1 initial)) grid st.
Proof.
  apply (generation_deterministic (World 0 0 1) (World 9 5 7) initial
           (set_seed_entry " +１２_３４５ " (shown "Xorshift" [] (Stats 1 2 Inf 3) 1 initial))
           lcg_entry 12345); reflexivity.
Defined.

End Runs.

(** ** The error of one rounding *)

Section RoundingError.

Import PyFloat.
Local Open Scope Q_scope.

Lemma round_half_even_error (x : Q) :
  - (1 # 2) <= inject_Z (round_half_even x) - x <= 1 # 2.
Proof.
  unfold round_half_even.
  pose proof (Qfloor_le x) as Hf. pose proof (Qlt_floor x) as Hc.
  rewrite inject_Z_plus in Hc. change (inject_Z 1) with 1 in Hc.
  destruct (Qcompare_spec (x - inject_Z (Qfloor x)) (1 # 2)) as [E|E|E].
  - destruct (Z.even (Qfloor x)).
    + lra.
    + rewrite inject_Z_plus. change (inject_Z 1) with 1. lra.
  - lra.
  - rewrite inject_Z_plus. change (inject_Z 1) with 1. lra.
Qed.

(** Below [2^(k+1)] the binary logarithm is at most [k]. *)
Lemma floor_log2_le (q : Q) (k : Z) :
  (0 <= k)%Z -> 0 < q -> q < inject_Z (2 ^ (k + 1)) -> (floor_log2 q <= k)%Z.
Proof.
  intros Hk Hpos Hlt. destruct q as [n d]. unfold floor_log2. simpl Qnum; simpl Qden.
  assert (Hn : (0 < n)%Z).
  { unfold Qlt in Hpos. simpl in Hpos. lia. }
  assert (Hq : (n < 2 ^ (k + 1) * Z.pos d)%Z).
  { unfold Qlt in Hlt. simpl in Hlt. lia. }
  set (j := (Z.log2 n - Z.log2 (Z.pos d))%Z).
  assert (Hj : (j <= k + 1)%Z).
  { destruct (Z.le_gt_cases j (k + 1)) as [L|G]; [assumption | exfalso].
    pose proof (Z.log2_spec n Hn) as [Hlo _].
    pose proof (Z.log2_spec (Z.pos d) (Pos2Z.is_pos d)) as [_ Hhi].
    pose proof (Z.log2_nonneg (Z.pos d)) as Hd0.
    assert (E : Z.log2 n = (Z.log2 (Z.pos d) + 1 + (j - 1))%Z) by (unfold j; lia).
    rewrite E, Z.pow_add_r in Hlo by lia.
    assert (2 ^ (k + 1) <= 2 ^ (j - 1))%Z by (apply Z.pow_le_mono_r; lia).
    assert (0 < 2 ^ (k + 1))%Z by (apply Z.pow_pos_nonneg; lia).
    nia. }
  destruct (Qle_bool (pow2 j) (n # d)) eqn:B; [|lia].
  apply Qle_bool_iff in B.
  destruct (Z.le_gt_cases j k) as [L|G]; [assumption | exfalso].
  assert (j = (k + 1)%Z) by lia. rewrite H in B.
  unfold pow2 in B. destruct (0 <=? k + 1)%Z eqn:E; [|apply Z.leb_gt in E; lia].
  lra.
Qed.

(** A value below [2^(k+1)] moves by at most [2^k / 2^53] when rounded. *)
Lemma round64_error (q : Q) (k : Z) :
  (0 <= k <= 52)%Z -> 0 <= q -> q < inject_Z (2 ^ (k + 1)) ->
  - (inject_Z (2 ^ k) * (1 # 9007199254740992)) <= round64 q - q
    <= inject_Z (2 ^ k) * (1 # 9007199254740992).
Proof.
  intros Hk Hq0 Hlt.
  assert (HB : 0 < inject_Z (2 ^ k)).
  { change 0 with (inject_Z 0). rewrite <- Zlt_Qlt. apply Z.pow_pos_nonneg; lia. }
  unfold round64. destruct (Qeq_bool q 0) eqn:Ez.
  - apply Qeq_bool_iff in Ez. lra.
  - apply Qeq_bool_neq in Ez.
    assert (Hpos : 0 < q) by (destruct (Qle_lt_or_eq 0 q Hq0) as [L|E]; [exact L | exfalso; apply Ez; now symmetry]).
    assert (He : (cexp q <= k - 52)%Z).
    { unfold cexp.
      assert (E : Qabs q = q).
      { destruct q as [n d]. unfold Qabs. f_equal. apply Z.abs_eq.
        unfold Qlt in Hpos. simpl in Hpos. lia. }
      rewrite E. pose proof (floor_log2_le q k ltac:(lia) Hpos Hlt). lia. }
    set (e := cexp q) in *.
    pose proof (pow2_nonpos e ltac:(lia)) as HP. pose proof (pow2_pos e) as Hp.
    assert (EP : (2 ^ (- e) = 2 ^ (52 - k) * 2 ^ (- e - (52 - k)))%Z).
    { rewrite <- Z.pow_add_r by lia. f_equal. lia. }
    assert (E52 : (2 ^ (52 - k) * 2 ^ k = 4503599627370496)%Z).
    { rewrite <- Z.pow_add_r by lia. replace (52 - k + k)%Z with 52%Z by lia. reflexivity. }
    assert (HA : (0 < 2 ^ (52 - k))%Z) by (apply Z.pow_pos_nonneg; lia).
    assert (HR : (1 <= 2 ^ (- e - (52 - k)))%Z).
    { assert (0 < 2 ^ (- e - (52 - k)))%Z by (apply Z.pow_pos_nonneg; lia). lia. }
    set (A := (2 ^ (52 - k))%Z) in *. set (R := (2 ^ (- e - (52 - k)))%Z) in *.
    set (B := (2 ^ k)%Z) in *.
    rewrite EP in HP. rewrite inject_Z_mult in HP.
    apply (f_equal inject_Z) in E52. rewrite inject_Z_mult in E52.
    rewrite Zlt_Qlt in HA. rewrite Zle_Qle in HR.
    change (inject_Z 0) with 0 in HA. change (inject_Z 1) with 1 in HR.
    set (a := inject_Z A) in *. set (r := inject_Z R) in *. set (b := inject_Z B) in *.
    assert (Hinv : pow2 e == / (a * r)).
    { apply (Qmult_inj_r _ _ (a * r)); [nra|]. rewrite HP. field. nra. }
    assert (Ex : q / pow2 e == q * (a * r)).
    { rewrite Hinv. field. nra. }
    pose proof (round_half_even_error (q / pow2 e)) as Herr.
    set (m := inject_Z (round_half_even (q / pow2 e))) in *.
    rewrite Ex in Herr. rewrite Qred_correct, Hinv.
    assert (Hb : a * b == 4503599627370496) by (rewrite E52; reflexivity).
    assert (Har : 0 < a * r) by nra.
    assert (D : (m / (a * r) - q) * (a * r) == m - q * (a * r)) by (field; nra).
    assert (G : m * / (a * r) == m / (a * r)) by reflexivity.
    rewrite G.
    set (d := m / (a * r) - q) in *.
    assert (Hd : - (1 # 2) <= d * (a * r) <= 1 # 2) by (rewrite D; exact Herr).
    clearbody d m a r b. clear - Hd HA HR HB Hb.
    split.
    + destruct (Qlt_le_dec d 0) as [N|N]; [|lra].
      apply Qmult_lt_0_le_reg_r with (z := a * 9007199254740992); [nra|].
      assert (- (b * (1 # 9007199254740992)) * (a * 9007199254740992) == - (a * b)) by field.
      rewrite H, Hb. nra.
    + destruct (Qlt_le_dec 0 d) as [N|N]; [|lra].
      apply Qmult_lt_0_le_reg_r with (z := a * 9007199254740992); [nra|].
      assert (b * (1 # 9007199254740992) * (a * 9007199254740992) == a * b) by field.
      rewrite H, Hb. nra.
Qed.

End RoundingError.

(** ** The blend, by its error and a table of the exact tenths *)

Section BlendDirect.

Import Py Color.

(** The two products as floats, for an operand each. *)
Definition tint_float (t : Z) : Q :=
  PyFloat.round64 (PyFloat.round64 (inject_Z t) * PyFloat.lit_0_1).

Definition gray_float (bg : Z) : Q :=
  PyFloat.round64 (PyFloat.round64 (inject_Z bg) * PyFloat.lit_0_9).

(** Where [t + 9 * base_gray] is a multiple of ten the sum of the products,
    or else its rounding, reaches the quotient. *)
Definition tenth_reached (ta gb : Z * Q) : bool :=
  if (fst ta + 9 * fst gb) mod 10 =? 0 then
    let n := inject_Z ((fst ta + 9 * fst gb) / 10) in
    if Qle_bool n (snd ta + snd gb) then true
    else Qle_bool n (PyFloat.round64 (snd ta + snd gb))
  else true.

Definition gray_floats : list (Z * Q) :=
  map (fun bg => (bg, gray_float bg)) (map (Z.add 20) (App.range 201)).

Definition tenths_row (t : Z) : bool :=
  forallb (tenth_reached (t, tint_float t)) gray_floats.

Lemma tenths_checked : forallb tenths_row (App.range 256) = true.
Proof. vm_cast_no_check (eq_refl true). Qed.

Local Open Scope Q_scope.

(** Integer constants as rational constants, the variables left alone. *)
Ltac inject_consts :=
  repeat match goal with
  | |- context [inject_Z (Z.pos ?p)] => change (inject_Z (Z.pos p)) with (Z.pos p # 1)
  | |- context [inject_Z 0%Z] => change (inject_Z 0%Z) with 0
  | H : context [inject_Z (Z.pos ?p)] |- _ =>
      change (inject_Z (Z.pos p)) with (Z.pos p # 1) in H
  | H : context [inject_Z 0%Z] |- _ => change (inject_Z 0%Z) with 0 in H
  end.

Lemma Qfloor_between (q : Q) (n : Z) :
  inject_Z n <= q -> q < inject_Z (n + 1) -> Qfloor q = n.
Proof.
  intros H1 H2.
  assert (n <= Qfloor q)%Z by (rewrite <- (Qfloor_Z n); now apply Qfloor_resp_le).
  assert (Qfloor q < n + 1)%Z.
  { rewrite Zlt_Qlt. apply Qle_lt_trans with q; [apply Qfloor_le | assumption]. }
  lia.
Qed.

Lemma checked_round64 (q : Q) (lo hi : Z) :
  (0 <= lo)%Z -> (hi < 2 ^ 53)%Z ->
  inject_Z lo <= q <= inject_Z hi ->
  PyFloat.checked q = Ok (PyFloat.round64 q).
Proof.
  intros Hlo Hhi Hq.
  destruct (round64_bounds q lo hi Hlo Hhi Hq) as [B1 B2].
  unfold PyFloat.checked, PyFloat.fl.
  assert (F : PyFloat.finite64 (PyFloat.round64 q) = true).
  { unfold PyFloat.finite64. apply Qle_bool_iff.
    assert (0 <= inject_Z lo) by (change 0 with (inject_Z 0); now rewrite <- Zle_Qle).
    rewrite Qabs_pos by lra.
    apply Qle_trans with (inject_Z hi); [assumption|].
    rewrite <- Zle_Qle. assert (2 ^ 53 < 2 ^ 1024 - 2 ^ 971)%Z by reflexivity. lia. }
  now rewrite F.
Qed.

Lemma round64_of_int (z : Z) :
  (0 <= z < 2 ^ 53)%Z -> PyFloat.round64 (inject_Z z) == inject_Z z.
Proof.
  intros H.
  destruct (round64_bounds (inject_Z z) z z ltac:(lia) ltac:(lia)
              ltac:(split; apply Qle_refl)) as [H1 H2].
  now apply Qle_antisym.
Qed.

Lemma blend_exact_direct (t bg : Z) :
  is_byte t -> (20 <= bg <= 220)%Z -> blend t bg = Ok ((t + 9 * bg) / 10)%Z.
Proof.
  intros Ht Hbg. unfold is_byte in Ht.
  assert (Hrow : tenths_row t = true).
  { apply (proj1 (forallb_forall tenths_row (App.range 256)) tenths_checked).
    apply in_range. lia. }
  assert (Hin : In (bg, gray_float bg) gray_floats).
  { apply in_map_iff. exists bg. split; [reflexivity|].
    apply in_map_iff. exists (bg - 20)%Z. split; [lia | apply in_range; lia]. }
  pose proof (proj1 (forallb_forall (tenth_reached (t, tint_float t)) gray_floats) Hrow
                (bg, gray_float bg) Hin) as Htab.
  unfold tenth_reached in Htab. cbn [fst snd] in Htab.
  unfold blend, PyFloat.of_int, PyFloat.mul, PyFloat.add.
  (* the conversions are exact *)
  pose proof (round64_of_int t ltac:(lia)) as Etf.
  pose proof (round64_of_int bg ltac:(lia)) as Egf.
  assert (Qt : inject_Z 0 <= inject_Z t <= inject_Z 255) by (rewrite <- !Zle_Qle; lia).
  assert (Qg : inject_Z 20 <= inject_Z bg <= inject_Z 220) by (rewrite <- !Zle_Qle; lia).
  rewrite (checked_round64 (inject_Z t) 0 255) by (try lia; try reflexivity; exact Qt).
  rewrite bind_Ok.
  set (tf := PyFloat.round64 (inject_Z t)) in *.
  assert (Qa : inject_Z 0 <= tf * PyFloat.lit_0_1 <= inject_Z 26).
  { rewrite Etf. unfold PyFloat.lit_0_1. inject_consts. lra. }
  rewrite (checked_round64 (tf * PyFloat.lit_0_1) 0 26) by (try lia; try reflexivity; exact Qa).
  rewrite bind_Ok.
  rewrite (checked_round64 (inject_Z bg) 20 220) by (try lia; try reflexivity; exact Qg).
  rewrite bind_Ok.
  set (gf := PyFloat.round64 (inject_Z bg)) in *.
  assert (Qb : inject_Z 18 <= gf * PyFloat.lit_0_9 <= inject_Z 199).
  { rewrite Egf. unfold PyFloat.lit_0_9. inject_consts. lra. }
  rewrite (checked_round64 (gf * PyFloat.lit_0_9) 18 199) by (try lia; try reflexivity; exact Qb).
  rewrite bind_Ok.
  pose proof (round64_bounds _ 0 26 ltac:(lia) ltac:(reflexivity) Qa) as Ba.
  pose proof (round64_bounds _ 18 199 ltac:(lia) ltac:(reflexivity) Qb) as Bb.
  pose proof (round64_error (tf * PyFloat.lit_0_1) 4 ltac:(lia)
                ltac:(inject_consts; lra)
                ltac:(change (inject_Z (2 ^ (4 + 1))) with 32; inject_consts; lra)) as Ea.
  pose proof (round64_error (gf * PyFloat.lit_0_9) 7 ltac:(lia)
                ltac:(inject_consts; lra)
                ltac:(change (inject_Z (2 ^ (7 + 1))) with 256; inject_consts; lra)) as Eb.
  change (PyFloat.round64 (tf * PyFloat.lit_0_1)) with (tint_float t) in *.
  change (PyFloat.round64 (gf * PyFloat.lit_0_9)) with (gray_float bg) in *.
  set (a := tint_float t) in *. set (b := gray_float bg) in *.
  assert (Qc : inject_Z 18 <= a + b <= inject_Z 225) by (inject_consts; lra).
  rewrite (checked_round64 (a + b) 18 225) by (try lia; try reflexivity; exact Qc).
  rewrite bind_Ok.
  pose proof (round64_bounds _ 18 225 ltac:(lia) ltac:(reflexivity) Qc) as Bc.
  pose proof (round64_error (a + b) 7 ltac:(lia)
                ltac:(inject_consts; lra)
                ltac:(change (inject_Z (2 ^ (7 + 1))) with 256; inject_consts; lra)) as Ec.
  set (c := PyFloat.round64 (a + b)) in *.
  change (inject_Z (2 ^ 4)) with 16 in Ea. change (inject_Z (2 ^ 7)) with 128 in Eb, Ec.
  unfold mret, result_ret. f_equal. unfold PyFloat.trunc.
  assert (Hc0 : Qle_bool 0 c = true) by (apply Qle_bool_iff; inject_consts; lra).
  rewrite Hc0.
  (* the quotient and the remainder of the exact tenth *)
  pose proof (Z.div_mod (t + 9 * bg) 10 ltac:(lia)) as Hdm.
  pose proof (Z.mod_pos_bound (t + 9 * bg) 10 ltac:(lia)) as Hr.
  set (n := ((t + 9 * bg) / 10)%Z) in *. set (r := ((t + 9 * bg) mod 10)%Z) in *.
  assert (Hex : inject_Z t + 9 * inject_Z bg == 10 * inject_Z n + inject_Z r).
  { change 9 with (inject_Z 9). change 10 with (inject_Z 10).
    rewrite <- !inject_Z_mult, <- !inject_Z_plus. now rewrite Hdm. }
  assert (Hrq : 0 <= inject_Z r <= 9).
  { change 0 with (inject_Z 0). change 9 with (inject_Z 9). rewrite <- !Zle_Qle. lia. }
  (* the float lies within 2^-44 of the exact tenth *)
  assert (Hclose : - (1 # 17592186044416) <= c - (inject_Z n + (1 # 10) * inject_Z r)
                   <= 1 # 17592186044416).
  { assert (inject_Z n + (1 # 10) * inject_Z r == (1 # 10) * (inject_Z t + 9 * inject_Z bg))
      by (rewrite Hex; field).
    rewrite H. unfold PyFloat.lit_0_1, PyFloat.lit_0_9 in *.
    rewrite Etf in Ea. rewrite Egf in Eb.
    inject_consts. lra. }
  apply Qfloor_between.
  - destruct (r =? 0)%Z eqn:Er.
    + destruct (Qle_bool (inject_Z n) (a + b)) eqn:Hab.
      * apply Qle_bool_iff in Hab.
        assert (Hn : (0 <= n)%Z) by (unfold n; apply Z.div_pos; lia).
        assert (Hn2 : (n < 2 ^ 53)%Z).
        { unfold n. apply Z.div_lt_upper_bound; [lia|]. change (2 ^ 53)%Z with 9007199254740992%Z. lia. }
        assert (HN : (225 < 2 ^ 53)%Z) by reflexivity.
        destruct (Z.le_gt_cases n 225) as [L|G].
        -- apply (round64_bounds (a + b) n 225 Hn HN). split; [assumption | apply Qc].
        -- exfalso. rewrite Zlt_Qlt in G. inject_consts. lra.
      * apply Qle_bool_iff. exact Htab.
    + apply Z.eqb_neq in Er.
      assert (1 <= inject_Z r).
      { change 1 with (inject_Z 1). rewrite <- Zle_Qle. lia. }
      lra.
  - rewrite inject_Z_plus. change (inject_Z 1) with 1. lra.
Qed.

End BlendDirect.

(** ** The blend is an integer division

    Both operands of the blend range over finitely many values, and on all
    of them the float computation agrees with [(t + 9 * base_gray) / 10]. *)

Section BlendTable.

Import Py Color.

Definition tint_product (t : Z) : result Q :=
  tf ← PyFloat.of_int t; PyFloat.mul tf PyFloat.lit_0_1.

Definition gray_product (bg : Z) : result Q :=
  gf ← PyFloat.of_int bg; PyFloat.mul gf PyFloat.lit_0_9.

Definition blend_of (a b : result Q) : result Z :=
  a' ← a; b' ← b; c ← PyFloat.add a' b'; mret (PyFloat.trunc c).

Definition blend_agrees (ta : Z * result Q) (gb : Z * result Q) : bool :=
  match blend_of (snd ta) (snd gb) with
  | Ok c => c =? (fst ta + 9 * fst gb) / 10
  | Raise _ => false
  end.

Definition grays : list (Z * result Q) :=
  map (fun bg => (bg, gray_product bg)) (map (Z.add 20) (App.range 201)).

Definition blend_row_agrees (t : Z) : bool :=
  forallb (blend_agrees (t, tint_product t)) grays.

Lemma range_In (n z : Z) : In z (App.range n) -> 0 <= z < n.
Proof.
  unfold App.range. intros H. apply in_map_iff in H. destruct H as (k & <- & Hk).
  apply in_seq in Hk. lia.
Qed.

Lemma blend_table_checked : forallb blend_row_agrees (App.range 256) = true.
Proof.
  apply forallb_forall. intros t Ht. unfold blend_row_agrees.
  apply forallb_forall. intros [bg gb] Hin.
  unfold grays in Hin. apply in_map_iff in Hin. destruct Hin as (bg' & E & Hin).
  injection E as -> <-.
  apply in_map_iff in Hin. destruct Hin as (k & <- & Hk).
  apply range_In in Ht, Hk.
  unfold blend_agrees. cbn [fst snd].
  change (blend_of (tint_product t) (gray_product (20 + k))) with (blend t (20 + k)).
  rewrite blend_exact_direct by (unfold is_byte; lia). apply Z.eqb_refl.
Qed.

(** For a byte of tint and a [base_gray] between 20 and 220 the blend is
    the integer quotient of [t + 9 * base_gray] by 10. *)
Lemma blend_exact (t bg : Z) :
  is_byte t -> 20 <= bg <= 220 -> blend t bg = Ok ((t + 9 * bg) / 10).
Proof.
  intros Ht Hbg.
  assert (Hrow : blend_row_agrees t = true).
  { apply (proj1 (forallb_forall blend_row_agrees (App.range 256)) blend_table_checked).
    apply in_range. unfold is_byte in Ht. lia. }
  assert (Hin : In (bg, gray_product bg) grays).
  { apply in_map_iff. exists bg. split; [reflexivity|].
    apply in_map_iff. exists (bg - 20). split; [lia | apply in_range; lia]. }
  pose proof (proj1 (forallb_forall (blend_agrees (t, tint_product t)) grays) Hrow
                (bg, gray_product bg) Hin) as H.
  unfold blend_agrees in H. cbn [fst snd] in H.
  change (blend t bg) with (blend_of (tint_product t) (gray_product bg)).
  destruct (blend_of (tint_product t) (gray_product bg)); [|discriminate].
  apply Z.eqb_eq in H. now subst.
Qed.

End BlendTable.

(** ** The colour mapping, in full *)

Section ColorClaim.

Import Py Color.
Local Open Scope Q_scope.

(** The exact value the specification rounds: [value / range * 200 + 20]. *)
Definition gray_exact (v range : Z) : Q := inject_Z v / inject_Z range * 200 + 20.

(** [base_gray] is the integer part of a float within [2^-44] of the exact
    value. *)
Lemma base_gray_of_close (v range : Z) :
  (0 <= v <= range)%Z -> (0 < range)%Z ->
  exists y,
    base_gray_of v range = Ok (Qfloor y) /\
    20 <= y <= 220 /\
    - (1 # 17592186044416) <= y - gray_exact v range <= 1 # 17592186044416.
Proof.
  intros Hv Hr. unfold base_gray_of, PyFloat.true_div, PyFloat.mul, PyFloat.add, gray_exact.
  destruct (range =? 0)%Z eqn:E; [apply Z.eqb_eq in E; lia | clear E].
  pose proof (ratio_bounds v range Hr Hv) as Hq.
  set (q := inject_Z v / inject_Z range) in *.
  rewrite (checked_round64 q 0 1) by (try lia; try reflexivity; exact Hq).
  rewrite bind_Ok.
  pose proof (round64_bounds q 0 1 ltac:(lia) ltac:(reflexivity) Hq) as B1.
  pose proof (round64_error q 0 ltac:(lia) ltac:(apply Hq)
                ltac:(change (inject_Z (2 ^ (0 + 1))) with 2; unfold inject_Z in *; lra)) as E1.
  set (ratio := PyFloat.round64 q) in *.
  change (inject_Z (2 ^ 0)) with 1 in E1. change (inject_Z 0) with 0 in B1.
  change (inject_Z 1) with 1 in B1.
  assert (B2q : inject_Z 0 <= ratio * 200 <= inject_Z 200) by (unfold inject_Z; lra).
  rewrite (checked_round64 (ratio * 200) 0 200) by (try lia; try reflexivity; exact B2q).
  rewrite bind_Ok.
  pose proof (round64_bounds (ratio * 200) 0 200 ltac:(lia) ltac:(reflexivity) B2q) as B2.
  pose proof (round64_error (ratio * 200) 7 ltac:(lia) ltac:(lra)
                ltac:(change (inject_Z (2 ^ (7 + 1))) with 256; lra)) as E2.
  set (x := PyFloat.round64 (ratio * 200)) in *.
  change (inject_Z (2 ^ 7)) with 128 in E2. change (inject_Z 0) with 0 in B2.
  change (inject_Z 200) with 200 in B2.
  assert (B3q : inject_Z 20 <= x + 20 <= inject_Z 220) by (unfold inject_Z; lra).
  rewrite (checked_round64 (x + 20) 20 220) by (try lia; try reflexivity; exact B3q).
  rewrite bind_Ok.
  pose proof (round64_bounds (x + 20) 20 220 ltac:(lia) ltac:(reflexivity) B3q) as B3.
  pose proof (round64_error (x + 20) 7 ltac:(lia) ltac:(lra)
                ltac:(change (inject_Z (2 ^ (7 + 1))) with 256; lra)) as E3.
  set (y := PyFloat.round64 (x + 20)) in *.
  change (inject_Z (2 ^ 7)) with 128 in E3. change (inject_Z 20) with 20 in B3.
  change (inject_Z 220) with 220 in B3.
  exists y. split; [|split; [exact B3 | lra]].
  unfold mret, result_ret, PyFloat.trunc.
  assert (Hy : Qle_bool 0 y = true) by (apply Qle_bool_iff; lra).
  now rewrite Hy.
Qed.

(** C3, as stated, fails: [base_gray] is cut, not rounded.  For the value 9
    of range 1000 the exact [ratio * 200 + 20] is 21.8: the specification
    rounds it to 22, the source takes 21, and every channel of the colour
    comes out one below even the integer part of the blend with 22. *)
Lemma base_gray_is_cut_not_rounded :
  gray_exact 9 1000 == 218 # 10 /\
  base_gray_spec 9 1000 = 22%Z /\
  base_gray_of 9 1000 = Ok 21%Z /\
  channels 9 1000 "#00d4ff" = Ok (18, 40, 44)%Z /\
  (Qfloor (blend_spec 0 22), Qfloor (blend_spec 212 22), Qfloor (blend_spec 255 22))
    = (19, 41, 45)%Z /\
  value_to_color 9 1000 "#00d4ff" = Ok "#12282c"%string.
Proof. repeat split; vm_compute; reflexivity. Qed.

(** C3, amended. For a value between zero and a positive range and a
    three-byte tint the mapping raises nothing and: [base_gray] is the
    integer part (no rounding) of the float [ratio * 200 + 20], which lies
    within [2^-44] of the exact value and between 20 and 220, so that no
    clamp applies; each channel is the integer quotient of
    [tint + 9 * base_gray] by 10, the blend of 10% of the tint with 90% of
    [base_gray] cut to an integer; each channel is a byte, the cap at 255
    changes nothing, and the colour is the text of these three bytes.  The
    mapping is a function of the triple. *)
Theorem value_to_color_truncates (v range : Z) (tint : Z * Z * Z) :
  (0 <= v <= range)%Z -> (0 < range)%Z -> is_tint tint ->
  exists y : Q,
    let bg := Qfloor y in
    let rgb :=
      ((fst (fst tint) + 9 * bg) / 10, (snd (fst tint) + 9 * bg) / 10,
       (snd tint + 9 * bg) / 10)%Z in
    - (1 # 17592186044416) <= y - gray_exact v range <= 1 # 17592186044416 /\
    base_gray_of v range = Ok bg /\ (20 <= bg <= 220)%Z /\
    channels v range (tint_text tint) = Ok rgb /\
    is_tint rgb /\ capped rgb = rgb /\
    value_to_color v range (tint_text tint) = Ok (hex_color rgb).
Proof.
  intros Hv Hr Ht.
  destruct (base_gray_of_close v range Hv Hr) as (y & Hbg & By & Ey).
  exists y. cbv zeta. set (bg := Qfloor y) in *.
  assert (Bbg : (20 <= bg <= 220)%Z).
  { unfold bg. split.
    - rewrite <- (Qfloor_Z 20). apply Qfloor_resp_le. apply By.
    - rewrite <- (Qfloor_Z 220). apply Qfloor_resp_le. apply By. }
  destruct tint as [[tr tg] tb]. cbn [fst snd].
  destruct (tint_text_slices tr tg tb Ht) as (Sr & Sg & Sb).
  destruct Ht as (Hr' & Hg' & Hb').
  assert (Ech : channels v range (tint_text (tr, tg, tb))
                = Ok ((tr + 9 * bg) / 10, (tg + 9 * bg) / 10, (tb + 9 * bg) / 10)%Z).
  { unfold channels, channel. rewrite Hbg, bind_Ok.
    rewrite Sr, bind_Ok, (blend_exact tr bg Hr' Bbg), bind_Ok.
    rewrite Sg, bind_Ok, (blend_exact tg bg Hg' Bbg), bind_Ok.
    rewrite Sb, bind_Ok, (blend_exact tb bg Hb' Bbg), bind_Ok.
    reflexivity. }
  assert (Bytes : forall t, is_byte t -> (18 <= (t + 9 * bg) / 10 <= 225)%Z).
  { intros t Hb. unfold is_byte in Hb.
    split; [apply Z.div_le_lower_bound | apply Z.div_le_upper_bound]; lia. }
  pose proof (Bytes tr Hr'). pose proof (Bytes tg Hg'). pose proof (Bytes tb Hb').
  assert (Ecap : capped ((tr + 9 * bg) / 10, (tg + 9 * bg) / 10, (tb + 9 * bg) / 10)%Z
                 = ((tr + 9 * bg) / 10, (tg + 9 * bg) / 10, (tb + 9 * bg) / 10)%Z).
  { unfold capped. rewrite !Z.min_l by lia. reflexivity. }
  split; [exact Ey|]. split; [exact Hbg|]. split; [exact Bbg|].
  split; [exact Ech|]. split; [unfold is_tint, is_byte; lia|]. split; [exact Ecap|].
  unfold value_to_color. rewrite Ech, bind_Ok, Ecap. reflexivity.
Qed.

Lemma value_to_color_truncates_witness :
  exists y : Q,
    let bg := Qfloor y in
    let rgb :=
      ((0 + 9 * bg) / 10, (212 + 9 * bg) / 10, (255 + 9 * bg) / 10)%Z in
    - (1 # 17592186044416) <= y - gray_exact 58598 233280 <= 1 # 17592186044416 /\
    base_gray_of 58598 233280 = Ok bg /\ (20 <= bg <= 220)%Z /\
    channels 58598 233280 (tint_text (0, 212, 255)%Z) = Ok rgb /\
    is_tint rgb /\ capped rgb = rgb /\
    value_to_color 58598 233280 (tint_text (0, 212, 255)%Z) = Ok (hex_color rgb).
Proof.
  apply (value_to_color_truncates 58598 233280 (0, 212, 255)%Z);
    [lia | lia | unfold is_tint, is_byte; lia].
Defined.

(** The scenario of the specification: LCG from seed 1 gives the value
    58598 of range 233280, [base_gray] 70 and the colour ["#3f5458"]. *)
Example lcg_first_cell :
  base_gray_of 58598 233280 = Ok 70%Z /\
  value_to_color 58598 233280 "#00d4ff" = Ok "#3f5458"%string.
Proof. split; vm_compute; reflexivity. Qed.

End ColorClaim.

(** * Further properties of the code *)

(** ** Integers as text: [str] and [int] *)

Section TextRoundTrip.

Import Py.

Lemma digit_value_char (d : Z) : 0 <= d < 10 -> digit_value (digit_char d) = Some d.
Proof.
  intros H.
  assert (C : d = 0 \/ d = 1 \/ d = 2 \/ d = 3 \/ d = 4 \/ d = 5 \/ d = 6 \/ d = 7 \/
              d = 8 \/ d = 9) by lia.
  repeat (destruct C as [->|C]; [reflexivity|]). subst d. reflexivity.
Qed.

Lemma digit_not_space (c : ascii) (d : Z) : digit_value c = Some d -> is_space c = false.
Proof.
  unfold digit_value, is_space. intros H.
  destruct ((48 <=? Z.of_N (N_of_ascii c)) && (Z.of_N (N_of_ascii c) <=? 57)) eqn:E;
    [|discriminate].
  apply andb_true_iff in E. destruct E as [E1 E2].
  apply Z.leb_le in E1, E2.
  apply orb_false_iff. split.
  - apply andb_false_iff. right. apply N.leb_gt. lia.
  - apply N.eqb_neq. lia.
Qed.

(** A text of digits only. *)
Fixpoint all_digits (s : string) : Prop :=
  match s with
  | EmptyString => True
  | String c s' => (exists d, digit_value c = Some d) /\ all_digits s'
  end.

Lemma rstrip_digits (s : string) : all_digits s -> rstrip s = s.
Proof.
  induction s as [|c s IH]; [reflexivity|]. intros [[d Hd] Hs].
  cbn [rstrip]. rewrite (IH Hs). destruct s; [|reflexivity].
  now rewrite (digit_not_space c d Hd).
Qed.

(** The digits written for [n] in front of [acc] read as [n] appended to
    what was read before, then [acc]. *)
Lemma digits_of_pos_read (fuel : nat) (n : Z) (acc : string) :
  fuel <> O -> 0 <= n < 2 ^ Z.of_nat fuel -> all_digits acc ->
  exists c rest d k,
    digits_of_pos fuel digit_char 10 n acc = String c rest /\
    digit_value c = Some d /\ all_digits rest /\ 0 <= k /\
    forall a, dec_digits a (String c rest) = dec_digits (a * 10 ^ (k + 1) + n) acc.
Proof.
  revert n acc. induction fuel as [|fuel IH]; intros n acc Hfuel Hn Hacc.
  - congruence.
  - cbn [digits_of_pos]. destruct (n <? 10) eqn:E.
    + apply Z.ltb_lt in E.
      exists (digit_char n), acc, n, 0.
      split; [reflexivity|]. split; [apply digit_value_char; lia|].
      split; [assumption|]. split; [lia|].
      intros a. cbn [dec_digits]. rewrite digit_value_char by lia.
      f_equal; lia.
    + apply Z.ltb_ge in E.
      assert (Hq : 0 <= n / 10 < 2 ^ Z.of_nat fuel).
      { split; [apply Z.div_pos; lia|].
        apply Z.div_lt_upper_bound; [lia|].
        rewrite Nat2Z.inj_succ, Z.pow_succ_r in Hn by lia.
        assert (0 < 2 ^ Z.of_nat fuel) by (apply Z.pow_pos_nonneg; lia). lia. }
      assert (Hm : 0 <= n mod 10 < 10) by (apply Z.mod_pos_bound; lia).
      assert (Hf : fuel <> O).
      { intros ->. assert (1 <= n / 10) by (apply Z.div_le_lower_bound; lia).
        simpl in Hq. lia. }
      destruct (IH (n / 10) (String (digit_char (n mod 10)) acc) Hf Hq) as
        (c & rest & d & k & Eq & Hd & Hrest & Hk & Hread).
      { split; [|assumption]. exists (n mod 10). apply digit_value_char; lia. }
      exists c, rest, d, (k + 1).
      split; [assumption|]. split; [assumption|]. split; [assumption|]. split; [lia|].
      intros a. rewrite Hread. cbn [dec_digits]. rewrite digit_value_char by lia.
      f_equal. rewrite (Z.pow_add_r 10 (k + 1) 1) by lia.
      pose proof (Z.div_mod n 10 ltac:(lia)). lia.
Qed.

Lemma digits_of_read (n : Z) :
  0 <= n ->
  exists c rest d,
    digits_of digit_char 10 n = String c rest /\
    digit_value c = Some d /\ all_digits rest /\
    dec_number (String c rest) = Some n.
Proof.
  intros Hn. unfold digits_of.
  destruct (digits_of_pos_read (S (Z.to_nat (Z.log2 n))) n EmptyString) as
    (c & rest & d & k & Eq & Hd & Hrest & Hk & Hread); [congruence | |exact I|].
  - split; [assumption|]. rewrite Nat2Z.inj_succ, Z2Nat.id by apply Z.log2_nonneg.
    destruct (Z.eq_dec n 0) as [->|N]; [reflexivity|].
    apply Z.log2_spec. lia.
  - exists c, rest, d.
    split; [assumption|]. split; [assumption|]. split; [assumption|].
    pose proof (Hread 0) as H0. cbn [dec_digits] in H0. rewrite Hd in H0.
    cbn [dec_number]. rewrite Hd.
    replace (0 * 10 + d) with d in H0 by lia. rewrite H0. simpl. f_equal; lia.
Qed.

Lemma digit_first_char {A : Type} (c : ascii) (d : Z) (s : string) (a b : string -> A)
    (other : A) :
  digit_value c = Some d ->
  match String c s with
  | String "-" s' => a s'
  | String "+" s' => b s'
  | _ => other
  end = other.
Proof.
  intros H.
  destruct c as [[] [] [] [] [] [] [] []]; try reflexivity; vm_compute in H; discriminate.
Qed.

Lemma lstrip_digit (c : ascii) (d : Z) (s : string) :
  digit_value c = Some d -> lstrip (String c s) = String c s.
Proof. intros H. cbn [lstrip]. now rewrite (digit_not_space c d H). Qed.

(** An ASCII character in front of a text is read as itself. *)
Lemma ascii_text_cons (c : ascii) (s : string) :
  byte_code c < 127 -> ascii_text (String c s) = String c <$> ascii_text s.
Proof.
  intros Hc. unfold ascii_text. cbn [code_points].
  destruct (byte_code c <? 128) eqn:E; [|apply Z.ltb_ge in E; lia].
  destruct (code_points s) as [cps|]; [|reflexivity].
  cbn. f_equal. f_equal. unfold to_ascii.
  destruct (byte_code c <? 127) eqn:E'; [|apply Z.ltb_ge in E'; lia].
  unfold byte_code. now rewrite N2Z.id, ascii_N_embedding.
Qed.

Lemma digit_is_ascii (c : ascii) (d : Z) : digit_value c = Some d -> byte_code c < 127.
Proof.
  unfold digit_value, byte_code. intros H.
  destruct ((48 <=? Z.of_N (N_of_ascii c)) && (Z.of_N (N_of_ascii c) <=? 57)) eqn:E;
    [|discriminate].
  apply andb_true_iff in E. destruct E as [_ E]. apply Z.leb_le in E. lia.
Qed.

Lemma ascii_text_digits (s : string) : all_digits s -> ascii_text s = Some s.
Proof.
  induction s as [|c s IH]; [reflexivity|]. intros [[d Hd] Hs].
  rewrite (ascii_text_cons c s (digit_is_ascii c d Hd)), (IH Hs). reflexivity.
Qed.

(** A text has no more digits than characters, and a number no more
    decimal digits than binary ones. *)
Lemma digit_count_length (s : string) : digit_count s <= Z.of_nat (String.length s).
Proof.
  induction s as [|c s IH]; [reflexivity|].
  cbn [digit_count String.length]. destruct (digit_value c); lia.
Qed.

Lemma digits_of_pos_length (fuel : nat) (to_char : Z -> ascii) (base n : Z)
    (acc : string) :
  (String.length (digits_of_pos fuel to_char base n acc) <= fuel + String.length acc)%nat.
Proof.
  revert n acc. induction fuel as [|fuel IH]; intros n acc; [reflexivity|].
  cbn [digits_of_pos]. destruct (n <? base).
  - cbn [String.length]. lia.
  - etransitivity; [apply IH|]. cbn [String.length]. lia.
Qed.

Lemma digits_of_count (n : Z) :
  0 <= n -> digit_count (digits_of digit_char 10 n) <= Z.log2 n + 1.
Proof.
  intros Hn. etransitivity; [apply digit_count_length|]. unfold digits_of.
  pose proof (digits_of_pos_length (S (Z.to_nat (Z.log2 n))) digit_char 10 n EmptyString) as L.
  cbn [String.length] in L. pose proof (Z.log2_nonneg n). lia.
Qed.

Lemma int_of_text_digits (n : Z) :
  0 <= n -> Z.log2 n < int_max_str_digits ->
  int_of_text (digits_of digit_char 10 n) = Ok n.
Proof.
  intros Hn Hsize.
  destruct (digits_of_read n Hn) as (c & rest & d & Eq & Hd & Hrest & Hnum).
  pose proof (digits_of_count n Hn) as Hcount.
  unfold int_of_text. rewrite Eq in *.
  rewrite ascii_text_digits by (split; [eauto | assumption]).
  rewrite (lstrip_digit c d rest Hd).
  rewrite rstrip_digits by (split; [eauto | assumption]).
  rewrite (digit_first_char c d rest _ _ _ Hd).
  destruct (int_max_str_digits <? digit_count (String c rest)) eqn:E.
  - apply Z.ltb_lt in E. lia.
  - now rewrite Hnum.
Qed.

(** [int(str(n))] is [n], for every integer of at most
    [int_max_str_digits] binary digits, hence for every seed that
    [random.randint(1, 999999)] draws. *)
Lemma int_of_text_str (n : Z) :
  Z.log2 (Z.abs n) < int_max_str_digits -> int_of_text (str n) = Ok n.
Proof.
  intros Hsize. unfold str. destruct (n <? 0) eqn:E.
  - apply Z.ltb_lt in E. rewrite Z.abs_neq in Hsize by lia.
    destruct (digits_of_read (- n) ltac:(lia)) as (c & rest & d & Eq & Hd & Hrest & Hnum).
    pose proof (digits_of_count (- n) ltac:(lia)) as Hcount.
    unfold int_of_text. rewrite Eq in *.
    rewrite ascii_text_cons by (vm_compute; reflexivity).
    rewrite ascii_text_digits by (split; [eauto | assumption]).
    cbn [fmap option_fmap option_map].
    change (lstrip (String "-" (String c rest))) with (String "-" (String c rest)).
    assert (R : rstrip (String "-" (String c rest)) = String "-" (String c rest)).
    { change (rstrip (String "-" (String c rest)))
        with (match rstrip (String c rest) with
              | EmptyString => String "-" EmptyString
              | t => String "-" t
              end).
      rewrite rstrip_digits by (split; [eauto | assumption]). reflexivity. }
    rewrite R. cbv iota.
    destruct (int_max_str_digits <? digit_count (String c rest)) eqn:E'.
    + apply Z.ltb_lt in E'. lia.
    + rewrite Hnum. f_equal. lia.
  - apply Z.ltb_ge in E. rewrite Z.abs_eq in Hsize by lia.
    now apply int_of_text_digits.
Qed.

Lemma int_of_text_str_seed (n : Z) : 1 <= n <= 999999 -> int_of_text (str n) = Ok n.
Proof.
  intros Hn. apply int_of_text_str. rewrite Z.abs_eq by lia.
  pose proof (Z.log2_le_mono n 999999 ltac:(lia)) as L.
  change (Z.log2 999999) with 19 in L. unfold int_max_str_digits. lia.
Qed.

(** A text of digits only is a number when it has at most
    [int_max_str_digits] digits, and is refused when it has more. *)
Lemma dec_digits_total (s : string) (acc : Z) :
  all_digits s -> exists z, dec_digits acc s = Some z.
Proof.
  revert acc. induction s as [|c s IH]; intros acc; [intros _; now exists acc|].
  intros [[d Hd] Hs]. cbn [dec_digits]. rewrite Hd. apply IH, Hs.
Qed.

Lemma int_of_text_digit_limit (c : ascii) (s : string) :
  all_digits (String c s) ->
  (digit_count (String c s) <= int_max_str_digits ->
   exists z, int_of_text (String c s) = Ok z) /\
  (int_max_str_digits < digit_count (String c s) ->
   int_of_text (String c s) = Raise ValueError).
Proof.
  intros Hs. pose proof Hs as [[d Hd] Hrest].
  unfold int_of_text. rewrite (ascii_text_digits _ Hs), (lstrip_digit c d s Hd).
  rewrite (rstrip_digits _ Hs), (digit_first_char c d s _ _ _ Hd).
  split; intros H.
  - destruct (int_max_str_digits <? digit_count (String c s)) eqn:E;
      [apply Z.ltb_lt in E; lia|].
    cbn [dec_number]. rewrite Hd.
    destruct (dec_digits_total s d Hrest) as [z ->]. now exists z.
  - now apply Z.ltb_lt in H as ->.
Qed.

Definition ones (n : nat) : string := string_of_list_ascii (repeat "1"%char n).

Lemma ones_digits (n : nat) : all_digits (ones n) /\ digit_count (ones n) = Z.of_nat n.
Proof.
  unfold ones. induction n as [|n [IH1 IH2]]; [split; reflexivity|].
  cbn [repeat string_of_list_ascii all_digits digit_count].
  change (digit_value "1") with (Some 1). split; [split; [now exists 1 | exact IH1] | lia].
Qed.

Lemma int_of_text_ones (n : nat) :
  n <> O ->
  (Z.of_nat n <= int_max_str_digits -> exists z, int_of_text (ones n) = Ok z) /\
  (int_max_str_digits < Z.of_nat n -> int_of_text (ones n) = Raise ValueError).
Proof.
  intros Hn. destruct (ones_digits n) as [H1 H2]. revert H1 H2.
  destruct n as [|n]; [congruence|].
  change (ones (S n)) with (String "1" (ones n)). intros H1 H2.
  destruct (int_of_text_digit_limit "1" (ones n) H1) as [A B].
  rewrite H2 in A, B. split; assumption.
Qed.

(** What [int] accepts beyond the digits of ASCII, and what it refuses: a
    number in the digits of another script, white space that is not ASCII
    around a number, and a number of more than [int_max_str_digits]
    digits. *)
Lemma int_of_text_samples :
  int_of_text "１２３" = Ok 123 /\
  int_of_text "١٢٣" = Ok 123 /\
  int_of_text "-٣_٤" = Ok (-34) /\
  int_of_text (String (ascii_of_N 194) (String (ascii_of_N 160) "12")) = Ok 12 /\
  int_of_text "12　" = Ok 12 /\
  int_of_text "1__2" = Raise ValueError /\
  int_of_text "+ 1" = Raise ValueError /\
  int_of_text "²" = Raise ValueError /\
  int_of_text "12.5" = Raise ValueError /\
  int_of_text "" = Raise ValueError /\
  (exists z, int_of_text (ones 4300) = Ok z) /\
  int_of_text (ones 4301) = Raise ValueError.
Proof.
  do 10 (split; [vm_compute; reflexivity|]). split.
  - apply (proj1 (int_of_text_ones 4300 ltac:(discriminate))).
    unfold int_max_str_digits. lia.
  - apply (proj2 (int_of_text_ones 4301 ltac:(discriminate))).
    unfold int_max_str_digits. lia.
Qed.

(** The seed that "Get seed" takes from such entries: the number read, the
    entry kept, or the seed drawn, the entry rewritten. *)
Lemma get_seed_samples :
  App.get_seed (App.World 41 0 1) (App.set_seed_entry "１２３" App.initial)
    = (123, App.set_seed_entry "１２３" App.initial) /\
  App.get_seed (App.World 41 0 1) (App.set_seed_entry (ones 4301) App.initial)
    = (App.randint 1 999999 41,
       App.set_seed_entry (str (App.randint 1 999999 41)) App.initial).
Proof.
  split; [vm_compute; reflexivity|].
  unfold App.get_seed. cbn [App.seed_entry App.set_seed_entry].
  rewrite (proj2 (proj2 (proj2 (proj2 (proj2 (proj2 (proj2 (proj2 (proj2 (proj2
             (proj2 int_of_text_samples))))))))))).
  reflexivity.
Qed.

End TextRoundTrip.

(** ** Sessions *)

Section Sessions.

Import Py App Engine Shell.

Lemma reset_stats_fold (labels : list string) (self : RNGVisualizerPro) (k : string) :
  let self' := fold_left (fun acc lbl => _update_stat lbl dash acc) labels self in
  current_algorithm self' = current_algorithm self /\
  is_generating self' = is_generating self /\
  status_label self' = status_label self /\
  seed_entry self' = seed_entry self /\
  grid_canvas self' = grid_canvas self /\
  stats_items self' !! k =
    if decide (k ∈ labels)
    then (stats_items self !! k) ≫= (fun _ => Some dash)
    else stats_items self !! k.
Proof.
  cbv zeta. revert self. induction labels as [|l labels IH]; intros self.
  - simpl. repeat split.
  - cbn [fold_left]. destruct (IH (_update_stat l dash self)) as (H1 & H2 & H3 & H4 & H5 & H6).
    destruct (update_stat_frame l dash self) as (F1 & F2 & F3 & F4 & F5).
    repeat split; try congruence.
    rewrite H6, update_stat_lookup.
    destruct (decide (k ∈ labels)) as [I|I], (decide (l = k)) as [E|E],
      (decide (k ∈ l :: labels)) as [J|J]; try reflexivity;
      try (exfalso; apply J; apply elem_of_cons; auto; fail);
      try (destruct (stats_items self !! k); reflexivity).
    exfalso. apply elem_of_cons in J. destruct J as [J|J]; congruence.
Qed.

(** Resetting leaves the labels and shows a dash on each. *)
Lemma reset_stats_items (self : RNGVisualizerPro) :
  stats_items (reset_stats self) = (fun _ => dash) <$> stats_items self.
Proof.
  apply map_eq. intros k. unfold reset_stats.
  destruct (reset_stats_fold (map fst (map_to_list (stats_items self))) self k)
    as (_ & _ & _ & _ & _ & ->).
  rewrite lookup_fmap.
  destruct (stats_items self !! k) as [v|] eqn:E.
  - destruct (decide _) as [I|I]; [reflexivity|].
    exfalso. apply I. apply list_elem_of_In, in_map_iff. exists (k, v). split; [reflexivity|].
    apply list_elem_of_In. now apply elem_of_map_to_list.
  - destruct (decide _); reflexivity.
Qed.

Lemma reset_stats_frame (self : RNGVisualizerPro) :
  current_algorithm (reset_stats self) = current_algorithm self /\
  is_generating (reset_stats self) = is_generating self /\
  status_label (reset_stats self) = status_label self /\
  seed_entry (reset_stats self) = seed_entry self /\
  grid_canvas (reset_stats self) = grid_canvas self.
Proof.
  unfold reset_stats.
  destruct (reset_stats_fold (map fst (map_to_list (stats_items self))) self "")
    as (H1 & H2 & H3 & H4 & H5 & _). auto.
Qed.

(** An object is its six attributes. *)
Lemma visualizer_eq (a b : RNGVisualizerPro) :
  current_algorithm a = current_algorithm b -> is_generating a = is_generating b ->
  status_label a = status_label b -> seed_entry a = seed_entry b ->
  grid_canvas a = grid_canvas b -> stats_items a = stats_items b -> a = b.
Proof. destruct a, b. simpl. intros. congruence. Qed.

(** What [_clear_grid] leaves. *)
Lemma clear_grid_fields (self : RNGVisualizerPro) :
  _clear_grid self =
    Visualizer (current_algorithm self) (is_generating self)
      (Label "Grid cleared" COLORS_text_tertiary) (seed_entry self) []
      ((fun _ => dash) <$> stats_items self).
Proof.
  unfold _clear_grid.
  destruct (reset_stats_frame (set_grid_canvas [] self)) as (H1 & H2 & H3 & H4 & H5).
  pose proof (reset_stats_items (set_grid_canvas [] self)) as H6.
  simpl in *. apply visualizer_eq; simpl; try assumption; reflexivity.
Qed.

(** The labels after a shown run: the five statistics where they exist,
    the rest as before. *)
Lemma shown_stats_lookup (name : string) (grid : list rectangle) (st : GenerationStats)
    (t : Q) (self : RNGVisualizerPro) (k : string) :
  stats_items (shown name grid st t self) !! k =
    if decide (k = "Final Value") then
      (stats_items self !! k) ≫= (fun _ => Some (format_commas (stat_last_value st)))
    else if decide (k = "Iterations") then
      (stats_items self !! k) ≫= (fun _ => Some (format_commas (stat_iteration_count st)))
    else if decide (k = "Min Value") then
      (stats_items self !! k) ≫= (fun _ => Some (format_number_commas (stat_min_value st)))
    else if decide (k = "Max Value") then
      (stats_items self !! k) ≫= (fun _ => Some (format_commas (stat_max_value st)))
    else if decide (k = "Generation Time") then
      (stats_items self !! k) ≫= (fun _ => Some (PyFloat.format_3f t ++ "s")%string)
    else stats_items self !! k.
Proof.
  unfold shown. cbn [stats_items set_is_generating set_status_label].
  rewrite !update_stat_lookup. cbn [stats_items set_grid_canvas].
  repeat (destruct (decide (k = _)) as [->|?]); try reflexivity;
    repeat (destruct (decide (_ = _)) as [?|?]); try congruence; try reflexivity;
    destruct (stats_items self !! _); reflexivity.
Qed.

Lemma shown_frame (name : string) (grid : list rectangle) (st : GenerationStats)
    (t : Q) (self : RNGVisualizerPro) :
  current_algorithm (shown name grid st t self) = current_algorithm self /\
  is_generating (shown name grid st t self) = false /\
  status_label (shown name grid st t self) =
    Label ("Generated " ++ format_commas (stat_iteration_count st)
           ++ " values using " ++ name) COLORS_success /\
  seed_entry (shown name grid st t self) = seed_entry self /\
  grid_canvas (shown name grid st t self) = grid.
Proof.
  destruct (shown_fields name grid st t self) as (H1 & H2 & H3 & H4 & _).
  repeat split; assumption.
Qed.

(** A call on a registered selection with a seed text that parses. *)
Lemma generate_parsed (w : world) (self : RNGVisualizerPro) (a : Registry.algorithm)
    (seed : Z) :
  is_generating self = false ->
  Registry.ALGORITHMS !! current_algorithm self = Some a ->
  int_of_text (seed_entry self) = Ok seed ->
  exists grid st,
    generate (Registry.func a) (Registry.color a) seed GRID_W GRID_H = Some (grid, st) /\
    generate_visualization w self =
      (None, shown (current_algorithm self) grid st
               (PyFloat.round64 (time_end w - time_start w)) (started self)).
Proof.
  intros Hflag Ha Hseed.
  destruct (generate_on_run GRID_W GRID_H w self a Hflag Ha) as (grid & st & Hgen & Hrun).
  rewrite (get_seed_parsed w self seed Hseed) in Hgen, Hrun.
  exists grid, st. split; assumption.
Qed.

(** A call on a registered selection with a seed text that does not. *)
Lemma generate_substituted (w : world) (self : RNGVisualizerPro) (a : Registry.algorithm)
    (e : exn) :
  is_generating self = false ->
  Registry.ALGORITHMS !! current_algorithm self = Some a ->
  int_of_text (seed_entry self) = Raise e ->
  exists grid st,
    generate (Registry.func a) (Registry.color a) (randint 1 999999 (entropy w))
      GRID_W GRID_H = Some (grid, st) /\
    generate_visualization w self =
      (None, shown (current_algorithm self) grid st
               (PyFloat.round64 (time_end w - time_start w))
               (set_seed_entry (str (randint 1 999999 (entropy w))) (started self))).
Proof.
  intros Hflag Ha Hseed.
  destruct (generate_on_run GRID_W GRID_H w self a Hflag Ha) as (grid & st & Hgen & Hrun).
  rewrite (get_seed_substituted w self e Hseed) in Hgen, Hrun.
  exists grid, st. split; assumption.
Qed.

Lemma started_frame (self : RNGVisualizerPro) :
  current_algorithm (started self) = current_algorithm self /\
  seed_entry (started self) = seed_entry self /\
  grid_canvas (started self) = grid_canvas self /\
  stats_items (started self) = stats_items self.
Proof. repeat split. Qed.

(** Showing a run over an object that shows another run gives what showing
    it over the original gives. *)
Lemma shown_over_shown (name name' : string) (grid grid' : list rectangle)
    (st st' : GenerationStats) (t t' : Q) (self : RNGVisualizerPro) :
  shown name grid st t (started (shown name' grid' st' t' (started self)))
  = shown name grid st t (started self).
Proof.
  set (mid := shown name' grid' st' t' (started self)).
  destruct (shown_frame name grid st t (started mid)) as (L1 & L2 & L3 & L4 & L5).
  destruct (shown_frame name grid st t (started self)) as (R1 & R2 & R3 & R4 & R5).
  destruct (shown_frame name' grid' st' t' (started self)) as (M1 & _ & _ & M4 & _).
  fold mid in M1, M4.
  destruct (started_frame mid) as (S1 & S2 & _ & S4).
  destruct (started_frame self) as (T1 & T2 & _ & T4).
  apply visualizer_eq; try congruence.
  apply map_eq. intros k. rewrite !shown_stats_lookup, S4. unfold mid.
  rewrite shown_stats_lookup.
  repeat (destruct (decide (k = _)) as [->|?]); try reflexivity;
    destruct (stats_items (started self) !! _); reflexivity.
Qed.

(** A run forgets every earlier run: a second call on the object a first
    call left returns what it would return on the original object. *)
Theorem generation_forgets_history (w1 w2 : world) (self : RNGVisualizerPro)
    (a : Registry.algorithm) (seed : Z) :
  is_generating self = false ->
  Registry.ALGORITHMS !! current_algorithm self = Some a ->
  int_of_text (seed_entry self) = Ok seed ->
  generate_visualization w2 (snd (generate_visualization w1 self))
  = generate_visualization w2 self.
Proof.
  intros Hflag Ha Hseed.
  destruct (generate_parsed w1 self a seed Hflag Ha Hseed) as (grid & st & Hgen & Hrun1).
  destruct (generate_parsed w2 self a seed Hflag Ha Hseed) as (grid' & st' & Hgen' & Hrun2).
  rewrite Hgen in Hgen'. injection Hgen' as <- <-.
  rewrite Hrun1. cbn [snd].
  set (self1 := shown (current_algorithm self) grid st
                  (PyFloat.round64 (time_end w1 - time_start w1)) (started self)).
  destruct (shown_frame (current_algorithm self) grid st
              (PyFloat.round64 (time_end w1 - time_start w1)) (started self))
    as (F1 & F2 & _ & F4 & _). fold self1 in F1, F2, F4.
  rewrite (proj1 (started_frame self)) in F1.
  rewrite (proj1 (proj2 (started_frame self))) in F4.
  destruct (generate_parsed w2 self1 a seed F2) as (grid2 & st2 & Hgen2 & Hrun).
  { now rewrite F1. }
  { now rewrite F4. }
  rewrite Hgen in Hgen2. injection Hgen2 as <- <-.
  rewrite Hrun, Hrun2, F1. f_equal. apply shown_over_shown.
Qed.

Lemma generation_forgets_history_witness :
  generate_visualization (World 3 1 2) (snd (generate_visualization (World 8 0 5) created))
  = generate_visualization (World 3 1 2) created.
Proof.
  apply (generation_forgets_history (World 8 0 5) (World 3 1 2) created lcg_entry 12345);
    reflexivity.
Defined.

(** After a substituted seed the entry holds it: a second call, whatever
    its entropy, runs from the same seed and shows the same grid and
    statistics. *)
Theorem substituted_seed_is_kept (w1 w2 : world) (self : RNGVisualizerPro)
    (a : Registry.algorithm) (e : exn) :
  is_generating self = false ->
  Registry.ALGORITHMS !! current_algorithm self = Some a ->
  int_of_text (seed_entry self) = Raise e ->
  exists grid st self1 self2,
    generate (Registry.func a) (Registry.color a) (randint 1 999999 (entropy w1))
      GRID_W GRID_H = Some (grid, st) /\
    generate_visualization w1 self = (None, self1) /\
    int_of_text (seed_entry self1) = Ok (randint 1 999999 (entropy w1)) /\
    generate_visualization w2 self1 = (None, self2) /\
    grid_canvas self1 = grid /\ grid_canvas self2 = grid /\
    seed_entry self2 = seed_entry self1 /\
    forall k, k <> "Generation Time"%string ->
              stats_items self2 !! k = stats_items self1 !! k.
Proof.
  intros Hflag Ha Hseed. set (d := randint 1 999999 (entropy w1)).
  destruct (generate_substituted w1 self a e Hflag Ha Hseed) as (grid & st & Hgen & Hrun1).
  fold d in Hgen, Hrun1.
  set (t1 := PyFloat.round64 (time_end w1 - time_start w1)) in *.
  set (base := set_seed_entry (str d) (started self)) in *.
  set (self1 := shown (current_algorithm self) grid st t1 base) in *.
  destruct (shown_frame (current_algorithm self) grid st t1 base) as (F1 & F2 & _ & F4 & F5).
  fold self1 in F1, F2, F4, F5.
  change (current_algorithm base) with (current_algorithm self) in F1.
  change (seed_entry base) with (str d) in F4.
  destruct (generate_parsed w2 self1 a d F2) as (grid2 & st2 & Hgen2 & Hrun2).
  { now rewrite F1. }
  { rewrite F4. apply int_of_text_str_seed, randint_range. lia. }
  rewrite Hgen in Hgen2. injection Hgen2 as <- <-.
  set (t2 := PyFloat.round64 (time_end w2 - time_start w2)) in *.
  destruct (shown_frame (current_algorithm self1) grid st t2 (started self1))
    as (G1 & G2 & _ & G4 & G5).
  exists grid, st, self1, (shown (current_algorithm self1) grid st t2 (started self1)).
  split; [assumption|]. split; [assumption|].
  split; [rewrite F4; apply int_of_text_str_seed, randint_range; lia|].
  split; [assumption|].
  split; [assumption|]. split; [assumption|]. split; [exact G4|].
  intros k Hk. rewrite shown_stats_lookup.
  change (stats_items (started self1)) with (stats_items self1).
  pose proof (shown_stats_lookup (current_algorithm self) grid st t1 base k) as Hk1.
  fold self1 in Hk1.
  repeat (destruct (decide (k = _)) as [->|?]); try congruence;
    rewrite Hk1; destruct (stats_items base !! _); reflexivity.
Qed.

Lemma substituted_seed_is_kept_witness :
  exists grid st self1 self2,
    generate (Registry.func lcg_entry) (Registry.color lcg_entry)
      (randint 1 999999 41) GRID_W GRID_H = Some (grid, st) /\
    generate_visualization (World 41 0 1) (set_seed_entry "seed?" created) = (None, self1) /\
    int_of_text (seed_entry self1) = Ok (randint 1 999999 41) /\
    generate_visualization (World 77 2 3) self1 = (None, self2) /\
    grid_canvas self1 = grid /\ grid_canvas self2 = grid /\
    seed_entry self2 = seed_entry self1 /\
    forall k, k <> "Generation Time"%string ->
              stats_items self2 !! k = stats_items self1 !! k.
Proof.
  apply (substituted_seed_is_kept (World 41 0 1) (World 77 2 3)
           (set_seed_entry "seed?" created) lcg_entry ValueError); reflexivity.
Defined.

(** [_randomize_seed] puts a seed between 1 and 999999 in the entry and
    touches neither the grid nor the statistics; the next call of
    [generate_visualization] runs from that very seed. *)
Theorem randomized_seed_is_used (w w' : world) (self : RNGVisualizerPro)
    (a : Registry.algorithm) :
  is_generating self = false ->
  Registry.ALGORITHMS !! current_algorithm self = Some a ->
  let seed := randint 1 999999 (entropy w) in
  let self1 := _randomize_seed w self in
  1 <= seed <= 999999 /\
  seed_entry self1 = str seed /\
  status_label self1 = Label ("Seed randomized to " ++ str seed) COLORS_text_tertiary /\
  grid_canvas self1 = grid_canvas self /\
  stats_items self1 = stats_items self /\
  current_algorithm self1 = current_algorithm self /\
  exists grid st,
    generate (Registry.func a) (Registry.color a) seed GRID_W GRID_H = Some (grid, st) /\
    run_shows w' self1 grid st.
Proof.
  intros Hflag Ha seed self1.
  split; [apply randint_range; lia|]. repeat (split; [reflexivity|]).
  destruct (run_shows_intro w' self1 a seed (started self1) Hflag Ha) as
    (grid & st & Hgen & Hshow & _).
  - apply get_seed_parsed. apply int_of_text_str_seed, randint_range. lia.
  - reflexivity.
  - exists grid, st. split; assumption.
Qed.

Lemma randomized_seed_is_used_witness :
  let seed := randint 1 999999 5 in
  let self1 := _randomize_seed (World 5 0 0) created in
  1 <= seed <= 999999 /\
  seed_entry self1 = str seed /\
  status_label self1 = Label ("Seed randomized to " ++ str seed) COLORS_text_tertiary /\
  grid_canvas self1 = grid_canvas created /\
  stats_items self1 = stats_items created /\
  current_algorithm self1 = current_algorithm created /\
  exists grid st,
    generate (Registry.func lcg_entry) (Registry.color lcg_entry) seed GRID_W GRID_H
      = Some (grid, st) /\
    run_shows (World 6 0 0) self1 grid st.
Proof.
  apply (randomized_seed_is_used (World 5 0 0) (World 6 0 0) created lcg_entry); reflexivity.
Defined.

(** [_clear_grid] empties the canvas, shows a dash on every label that
    exists without adding or dropping one, sets the status text and leaves
    the selection, the seed entry and the flag; clearing twice is clearing
    once. *)
Theorem clear_grid_resets (self : RNGVisualizerPro) :
  grid_canvas (_clear_grid self) = [] /\
  (forall k, stats_items (_clear_grid self) !! k
             = (stats_items self !! k) ≫= (fun _ => Some dash)) /\
  dom (stats_items (_clear_grid self)) = dom (stats_items self) /\
  status_label (_clear_grid self) = Label "Grid cleared" COLORS_text_tertiary /\
  current_algorithm (_clear_grid self) = current_algorithm self /\
  seed_entry (_clear_grid self) = seed_entry self /\
  is_generating (_clear_grid self) = is_generating self /\
  _clear_grid (_clear_grid self) = _clear_grid self.
Proof.
  rewrite !clear_grid_fields. cbn [grid_canvas stats_items status_label current_algorithm
    seed_entry is_generating].
  repeat split.
  - intros k. rewrite lookup_fmap. destruct (stats_items self !! k); reflexivity.
  - apply dom_fmap_L.
  - f_equal. rewrite <- map_fmap_compose. reflexivity.
Qed.

Lemma get_seed_started (w : world) (self : RNGVisualizerPro) :
  fst (get_seed w (started self)) = fst (get_seed w self) /\
  snd (get_seed w (started self)) = started (snd (get_seed w self)) /\
  is_generating (snd (get_seed w self)) = is_generating self.
Proof.
  unfold get_seed. change (seed_entry (started self)) with (seed_entry self).
  destruct (int_of_text (seed_entry self)); repeat split.
Qed.

(** The seed a call runs from. *)
Lemma get_seed_effective (w : world) (self : RNGVisualizerPro) :
  fst (get_seed w (started self)) =
    match int_of_text (seed_entry self) with
    | Ok seed => seed
    | Raise _ => randint 1 999999 (entropy w)
    end.
Proof.
  unfold get_seed. change (seed_entry (started self)) with (seed_entry self).
  destruct (int_of_text (seed_entry self)); reflexivity.
Qed.

(** Clearing an object that shows a run is clearing the object the run
    started from. *)
Lemma clear_shown (name : string) (grid : list rectangle) (st : GenerationStats) (t : Q)
    (self : RNGVisualizerPro) :
  is_generating self = false ->
  _clear_grid (shown name grid st t (started self)) = _clear_grid self.
Proof.
  intros Hflag. rewrite !clear_grid_fields.
  destruct (shown_frame name grid st t (started self)) as (-> & -> & _ & -> & _).
  cbn [current_algorithm seed_entry started set_status_label set_is_generating].
  rewrite Hflag. f_equal.
  apply map_eq. intros k. rewrite !lookup_fmap, shown_stats_lookup.
  cbn [stats_items started set_status_label set_is_generating].
  repeat (destruct (decide (k = _)) as [->|?]); try reflexivity;
    destruct (stats_items self !! _); reflexivity.
Qed.

(** Clearing after a run is clearing after the seed was read: nothing of a
    run outlives [_clear_grid] but the seed that the run wrote to the
    entry.  When the entry parses, clearing after the run is clearing
    before it; when it does not, the entry keeps the seed drawn. *)
Theorem clear_after_generation (w : world) (self : RNGVisualizerPro)
    (a : Registry.algorithm) :
  is_generating self = false ->
  Registry.ALGORITHMS !! current_algorithm self = Some a ->
  _clear_grid (snd (generate_visualization w self)) = _clear_grid (snd (get_seed w self)) /\
  (forall seed, int_of_text (seed_entry self) = Ok seed ->
     _clear_grid (snd (generate_visualization w self)) = _clear_grid self) /\
  (forall e, int_of_text (seed_entry self) = Raise e ->
     _clear_grid (snd (generate_visualization w self))
     = set_seed_entry (str (randint 1 999999 (entropy w))) (_clear_grid self)).
Proof.
  intros Hflag Ha.
  assert (Main : _clear_grid (snd (generate_visualization w self))
                 = _clear_grid (snd (get_seed w self))).
  { destruct (generate_on_run GRID_W GRID_H w self a Hflag Ha) as (grid & st & _ & Hrun).
    unfold generate_visualization. rewrite Hrun. cbn [snd].
    destruct (get_seed_started w self) as (_ & -> & Hf).
    apply clear_shown. now rewrite Hf. }
  split; [exact Main|]. split.
  - intros seed Hseed. rewrite Main. unfold get_seed. now rewrite Hseed.
  - intros e Hseed. rewrite Main. unfold get_seed. rewrite Hseed. cbn [snd].
    rewrite !clear_grid_fields. reflexivity.
Qed.

Lemma clear_after_generation_witness :
  _clear_grid (snd (generate_visualization (World 1 0 2) created))
  = _clear_grid (snd (get_seed (World 1 0 2) created)) /\
  (forall seed, int_of_text (seed_entry created) = Ok seed ->
     _clear_grid (snd (generate_visualization (World 1 0 2) created)) = _clear_grid created) /\
  (forall e, int_of_text (seed_entry created) = Raise e ->
     _clear_grid (snd (generate_visualization (World 1 0 2) created))
     = set_seed_entry (str (randint 1 999999 (entropy (World 1 0 2)))) (_clear_grid created)).
Proof.
  apply (clear_after_generation (World 1 0 2) created lcg_entry); reflexivity.
Defined.

Lemma generate_unregistered (w : world) (self : RNGVisualizerPro) :
  is_generating self = false ->
  Registry.ALGORITHMS !! current_algorithm self = None ->
  generate_visualization w self = (Some (KeyError (current_algorithm self)), started self).
Proof.
  intros Hflag Hnone. unfold generate_visualization, generate_on. rewrite Hflag.
  change (set_status_label _ (set_is_generating true self)) with (started self).
  change (current_algorithm (started self)) with (current_algorithm self).
  now rewrite Hnone.
Qed.

(** Once a call has raised [KeyError] the flag stays raised: every later
    call returns at once and changes nothing, also after a registered
    algorithm is selected. *)
Theorem key_error_blocks_later_calls (w w' : world) (self : RNGVisualizerPro)
    (name : string) :
  is_generating self = false ->
  Registry.ALGORITHMS !! current_algorithm self = None ->
  let self' := snd (generate_visualization w self) in
  fst (generate_visualization w self) = Some (KeyError (current_algorithm self)) /\
  generate_visualization w' (set_current_algorithm name self')
  = (None, set_current_algorithm name self').
Proof.
  intros Hflag Hnone. cbv zeta.
  rewrite (generate_unregistered w self Hflag Hnone). cbn [fst snd].
  split; reflexivity.
Qed.

Lemma key_error_blocks_later_calls_witness :
  let self := set_current_algorithm "Mersenne Twister" created in
  let self' := snd (generate_visualization (World 0 0 0) self) in
  fst (generate_visualization (World 0 0 0) self) = Some (KeyError (current_algorithm self)) /\
  generate_visualization (World 1 0 0) (set_current_algorithm "Xorshift" self')
  = (None, set_current_algorithm "Xorshift" self').
Proof.
  apply (key_error_blocks_later_calls (World 0 0 0) (World 1 0 0)
           (set_current_algorithm "Mersenne Twister" created) "Xorshift"); reflexivity.
Defined.

Lemma shown_dom (name : string) (grid : list rectangle) (st : GenerationStats)
    (t : Q) (self : RNGVisualizerPro) :
  dom (stats_items (shown name grid st t self)) = dom (stats_items self).
Proof.
  apply set_eq. intros k. rewrite !elem_of_dom, shown_stats_lookup.
  repeat (destruct (decide (k = _)) as [->|?]); try reflexivity;
    destruct (stats_items self !! _); simpl; split; intros [? H]; eauto; discriminate.
Qed.

(** What every reachable object satisfies. *)
Definition settled (self : RNGVisualizerPro) : Prop :=
  is_generating self = false /\
  is_Some (Registry.ALGORITHMS !! current_algorithm self) /\
  dom (stats_items self) = dom (stats_items created).

Lemma handle_settled (ev : event) (self : RNGVisualizerPro) :
  settled self -> offered ev ->
  fst (handle ev self) = None /\ settled (snd (handle ev self)).
Proof.
  intros (Hflag & [a Ha] & Hdom) Hev. destruct ev as [name|text|w|w|]; cbn [handle fst snd].
  - split; [reflexivity|]. split; [exact Hflag|]. split; [exact Hev | exact Hdom].
  - split; [reflexivity|]. split; [exact Hflag|]. split; [eexists; exact Ha | exact Hdom].
  - destruct (generate_on_run GRID_W GRID_H w self a Hflag Ha) as (grid & st & _ & Hrun).
    unfold generate_visualization. rewrite Hrun. cbn [fst snd]. split; [reflexivity|].
    destruct (shown_frame (current_algorithm self) grid st
                (PyFloat.round64 (time_end w - time_start w))
                (snd (get_seed w (started self)))) as (F1 & F2 & _).
    destruct (get_seed_frame w (started self)) as (G1 & G2).
    split; [exact F2|]. split.
    + rewrite F1, G1. eexists; exact Ha.
    + rewrite shown_dom, G2. exact Hdom.
  - split; [reflexivity|]. split; [exact Hflag|]. split; [eexists; exact Ha | exact Hdom].
  - split; [reflexivity|]. rewrite clear_grid_fields.
    split; [exact Hflag|]. split; [eexists; exact Ha|].
    cbn [stats_items]. rewrite dom_fmap_L. exact Hdom.
Qed.

(** In a session that starts from the created window no handler ever
    raises: the selection is always registered, so [KeyError] cannot occur,
    the flag is lowered between events, so no call is skipped, and the five
    labels of the statistics stay. *)
Theorem session_never_raises (self : RNGVisualizerPro) (ev : event) :
  reachable self -> offered ev ->
  fst (handle ev self) = None /\
  is_generating self = false /\
  is_Some (Registry.ALGORITHMS !! current_algorithm self) /\
  dom (stats_items self) = dom (stats_items created).
Proof.
  intros Hreach Hev.
  assert (S : settled self).
  { clear ev Hev. induction Hreach as [|ev self Hreach IH Hev].
    - repeat split. eexists; reflexivity.
    - exact (proj2 (handle_settled ev self IH Hev)). }
  split; [exact (proj1 (handle_settled ev self S Hev)) | exact S].
Qed.

Lemma session_never_raises_witness :
  let self := snd (handle (EditSeed "not a number") (snd (handle (Select "Xorshift") created))) in
  fst (handle (Generate (World 3 0 1)) self) = None /\
  is_generating self = false /\
  is_Some (Registry.ALGORITHMS !! current_algorithm self) /\
  dom (stats_items self) = dom (stats_items created).
Proof.
  apply (session_never_raises
           (snd (handle (EditSeed "not a number") (snd (handle (Select "Xorshift") created))))
           (Generate (World 3 0 1))).
  - apply reachable_step; [apply reachable_step; [apply reachable_created|]|].
    + simpl. eexists. reflexivity.
    + exact I.
  - exact I.
Defined.

End Sessions.

(** ** The layout of the grid *)

Section Layout.

Import Py App Engine Shell.

Lemma range_nth (n : Z) (k : nat) :
  (k < Z.to_nat n)%nat -> nth_error (range n) k = Some (Z.of_nat k).
Proof.
  intros H. unfold range. rewrite nth_error_map.
  rewrite (nth_error_nth' _ 0%nat) by (rewrite length_seq; assumption).
  rewrite seq_nth by assumption. reflexivity.
Qed.

Lemma range_length (n : Z) : length (range n) = Z.to_nat n.
Proof. unfold range. now rewrite length_map, length_seq. Qed.

(** The cell [(y, x)] is visited after [y] full rows and [x] cells. *)
Lemma rows_nth (ys xs : list Z) (j i : nat) (y x : Z) :
  nth_error ys j = Some y -> nth_error xs i = Some x ->
  nth_error (flat_map (fun y => map (fun x => (y, x)) xs) ys) (j * length xs + i)
  = Some (y, x).
Proof.
  revert j. induction ys as [|y0 ys IH]; intros j Hy Hx.
  - destruct j; discriminate.
  - assert (Hi : (i < length xs)%nat) by (apply nth_error_Some; congruence).
    destruct j as [|j]; cbn [flat_map].
    + injection Hy as ->. simpl. rewrite nth_error_app1 by (rewrite length_map; assumption).
      rewrite nth_error_map, Hx. reflexivity.
    + rewrite nth_error_app2 by (rewrite length_map; simpl; lia).
      rewrite length_map.
      replace (S j * length xs + i - length xs)%nat with (j * length xs + i)%nat
        by (simpl; lia).
      apply IH; assumption.
Qed.

Lemma grid_cells_nth (width height x y : Z) :
  0 <= x < width -> 0 <= y < height ->
  nth_error (grid_cells width height) (Z.to_nat (y * width + x)) = Some (y, x).
Proof.
  intros Hx Hy. unfold grid_cells.
  replace (Z.to_nat (y * width + x))
    with (Z.to_nat y * length (range width) + Z.to_nat x)%nat
    by (rewrite range_length; nia).
  apply rows_nth.
  - rewrite range_nth by lia. f_equal. lia.
  - rewrite range_nth by lia. f_equal. lia.
Qed.

(** The item painted for the [i]-th cell: its place is the cell's and its
    colour that of the [i]-th step of the state. *)
Lemma items_nth (algo_func : Z -> Z * Z) (algo_color : string)
    (cells : list (Z * Z)) (st : Z) (its : list rectangle) :
  items algo_func algo_color cells st = Some its ->
  length its = length cells /\
  forall i y x, nth_error cells i = Some (y, x) ->
    let prev := nth i (st :: trajectory algo_func st (length cells)) st in
    exists color,
      nth_error its i = Some (item y x color) /\
      Color.value_to_color (fst (algo_func prev)) (snd (algo_func prev)) algo_color
        = Ok color.
Proof.
  revert st its. induction cells as [|[y0 x0] cells IH]; intros st its H.
  - injection H as <-. split; [reflexivity|]. intros [|i] y x E; discriminate.
  - cbn [items] in H. destruct (algo_func st) as [v m] eqn:Ef.
    destruct (Color.value_to_color v m algo_color) as [color|] eqn:Ec; [|discriminate].
    destruct (items algo_func algo_color cells v) as [rest|] eqn:Er; [|discriminate].
    injection H as <-. destruct (IH v rest Er) as [Hlen Hnth].
    split; [simpl; now rewrite Hlen|].
    intros [|i] y x E; cbn [length trajectory nth].
    + injection E as <- <-. exists color. rewrite Ef. split; [reflexivity | exact Ec].
    + rewrite Ef. cbn [fst]. destruct (Hnth i y x E) as (col & H1 & H2).
      exists col. split; [exact H1|]. cbv zeta in H2.
      assert (Hi : (i < length cells)%nat) by (apply nth_error_Some; cbn in E; congruence).
      change (match i with
              | O => v
              | S k => nth k (trajectory algo_func v (length cells)) st
              end) with (nth i (v :: trajectory algo_func v (length cells)) st).
      rewrite (nth_indep _ st v) by (simpl; rewrite trajectory_length; lia).
      exact H2.
Qed.

(** After a run the canvas holds one square per cell and nothing of what it
    held before: 120 times 120 items, the cell of column [x] and row [y] at
    position [y * 120 + x], five pixels wide, with the colour of the value
    the state takes at that step, from the seed of the entry or, when the
    entry does not parse, from the seed drawn. *)
Theorem grid_is_row_major (w : world) (self : RNGVisualizerPro)
    (a : Registry.algorithm) :
  is_generating self = false ->
  Registry.ALGORITHMS !! current_algorithm self = Some a ->
  let seed :=
    match int_of_text (seed_entry self) with
    | Ok seed => seed
    | Raise _ => randint 1 999999 (entropy w)
    end in
  exists self',
    generate_visualization w self = (None, self') /\
    length (grid_canvas self') = Z.to_nat (GRID_W * GRID_H) /\
    forall x y, 0 <= x < GRID_W -> 0 <= y < GRID_H ->
      let i := Z.to_nat (y * GRID_W + x) in
      let prev := nth i (seed :: trajectory (Registry.func a) seed (Z.to_nat (GRID_W * GRID_H))) seed in
      exists color,
        nth_error (grid_canvas self') i
          = Some (Rectangle (x * PIXEL) (y * PIXEL) ((x + 1) * PIXEL) ((y + 1) * PIXEL)
                    color "") /\
        Color.value_to_color (fst (Registry.func a prev)) (snd (Registry.func a prev))
          (Registry.color a) = Ok color.
Proof.
  intros Hflag Ha. rewrite <- (get_seed_effective w self).
  generalize (fst (get_seed w (started self))) (generate_on_run GRID_W GRID_H w self a Hflag Ha).
  intros seed (grid & st & Hgen & Hrun). cbv zeta.
  eexists. split; [exact Hrun|].
  destruct (shown_frame (current_algorithm self) grid st
              (PyFloat.round64 (time_end w - time_start w)) (snd (get_seed w (started self))))
    as (_ & _ & _ & _ & ->).
  unfold generate in Hgen.
  destruct (items (Registry.func a) (Registry.color a) (grid_cells GRID_W GRID_H) seed)
    as [its|] eqn:Hits; [|discriminate].
  cbn [option_map] in Hgen.
  assert (E : its = grid) by congruence. subst its. clear Hgen.
  destruct (items_nth _ _ _ _ _ Hits) as [Hlen Hnth].
  split; [now rewrite Hlen, grid_count|].
  intros x y Hx Hy.
  pose proof (Hnth _ y x (grid_cells_nth GRID_W GRID_H x y Hx Hy)) as H.
  cbv zeta in H. rewrite grid_count in H. exact H.
Qed.

Lemma grid_is_row_major_witness :
  let seed :=
    match int_of_text (seed_entry created) with
    | Ok seed => seed
    | Raise _ => randint 1 999999 (entropy (World 0 0 1))
    end in
  exists self',
    generate_visualization (World 0 0 1) created = (None, self') /\
    length (grid_canvas self') = Z.to_nat (GRID_W * GRID_H) /\
    forall x y, 0 <= x < GRID_W -> 0 <= y < GRID_H ->
      let i := Z.to_nat (y * GRID_W + x) in
      let prev := nth i (seed :: trajectory (Registry.func lcg_entry) seed (Z.to_nat (GRID_W * GRID_H))) seed in
      exists color,
        nth_error (grid_canvas self') i
          = Some (Rectangle (x * PIXEL) (y * PIXEL) ((x + 1) * PIXEL) ((y + 1) * PIXEL)
                    color "") /\
        Color.value_to_color (fst (Registry.func lcg_entry prev))
          (snd (Registry.func lcg_entry prev)) (Registry.color lcg_entry) = Ok color.
Proof.
  apply (grid_is_row_major (World 0 0 1) created lcg_entry); reflexivity.
Defined.

End Layout.

(** ** The generators as maps on their states *)

Section Generators.

Import Registry.

(** An affine map with an invertible multiplier is one-to-one on the
    residues. *)
Lemma affine_mod_injective (a c m a' s s' : Z) :
  0 < m -> (a * a') mod m = 1 ->
  ((a * s + c) mod m = (a * s' + c) mod m <-> s mod m = s' mod m).
Proof.
  intros Hm Hinv. rewrite !Z.cong_iff_ex. split; intros [n Hn].
  - pose proof (Z.div_mod (a * a') m ltac:(lia)) as Hdm. rewrite Hinv in Hdm.
    exists (a' * n - (a * a') / m * (s - s')).
    assert (E : a * (s - s') = n * m) by (rewrite <- Hn; ring).
    assert (E' : (m * (a * a' / m) + 1) * (s - s') = a' * n * m).
    { rewrite <- Hdm. rewrite <- Z.mul_assoc, (Z.mul_comm a'), Z.mul_assoc, E. ring. }
    rewrite Z.mul_sub_distr_r. rewrite <- (Z.mul_assoc (a * a' / m)).
    replace (s - s') with (a' * n * m - m * (a * a' / m) * (s - s')) at 1
      by (rewrite <- E'; ring).
    ring.
  - exists (a * n). rewrite <- Z.mul_assoc, <- Hn. ring.
Qed.

(** LCG is one-to-one on the residues modulo 233280: two states have the
    same successor exactly when they are congruent. *)
Theorem lcg_injective_mod (s s' : Z) :
  lcg s = lcg s' <-> s mod 233280 = s' mod 233280.
Proof.
  unfold lcg. rewrite (Z.mul_comm s), (Z.mul_comm s').
  rewrite <- (affine_mod_injective 9301 49297 233280 123901 s s') by (lia || reflexivity).
  split; [intros E; now injection E | intros ->; reflexivity].
Qed.

(** Park-Miller is one-to-one on the residues modulo 2147483647, and the
    successor is zero only for a multiple of the modulus: a run whose seed
    is not one never shows zero. *)
Theorem park_miller_injective_mod (s s' : Z) :
  (park_miller s = park_miller s' <-> s mod 2147483647 = s' mod 2147483647) /\
  (fst (park_miller s) = 0 <-> s mod 2147483647 = 0) /\
  (s mod 2147483647 <> 0 ->
   forall n v, In v (Engine.trajectory park_miller s n) -> 0 < v < 2147483647).
Proof.
  assert (Inj : forall a b, park_miller a = park_miller b <-> a mod 2147483647 = b mod 2147483647).
  { intros a b. unfold park_miller. rewrite (Z.mul_comm a), (Z.mul_comm b).
    rewrite <- (affine_mod_injective 16807 0 2147483647 1407677000 a b) by (lia || reflexivity).
    rewrite !Z.add_0_r.
    split; [intros E; now injection E | intros ->; reflexivity]. }
  assert (Zero : forall a, fst (park_miller a) = 0 <-> a mod 2147483647 = 0).
  { intros a. change 0 with (fst (park_miller 0)) at 1.
    change (a mod 2147483647 = 0) with (a mod 2147483647 = 0 mod 2147483647).
    rewrite <- Inj. unfold park_miller. cbn [fst].
    split; [intros E; now rewrite E | intros E; now injection E]. }
  split; [apply Inj|]. split; [apply Zero|].
  intros Hs n. revert s Hs. induction n as [|n IH]; intros s Hs v Hin; [contradiction|].
  cbn [Engine.trajectory] in Hin.
  assert (B : 0 < fst (park_miller s) < 2147483647).
  { pose proof (park_miller_bounds s) as Hb. cbn [snd park_miller] in Hb.
    assert (fst (park_miller s) <> 0) by (rewrite Zero; assumption).
    change (snd (park_miller s)) with 2147483647 in Hb. lia. }
  destruct Hin as [<-|Hin]; [exact B|].
  apply (IH (fst (park_miller s))); [|assumption].
  rewrite Z.mod_small by lia. lia.
Qed.

(** The mask of [multiply_with_carry] never cuts anything: the result is
    the sum itself, and only the low 64 bits of the state matter. *)
Theorem multiply_with_carry_exact (s : Z) :
  fst (multiply_with_carry s) = 4294957665 * (s mod 2 ^ 32) + (s / 2 ^ 32) mod 2 ^ 32 /\
  multiply_with_carry (s mod 2 ^ 64) = multiply_with_carry s.
Proof.
  assert (E : forall t, fst (multiply_with_carry t)
                        = 4294957665 * (t mod 2 ^ 32) + (t / 2 ^ 32) mod 2 ^ 32).
  { intros t. unfold multiply_with_carry. cbv zeta. cbn [fst].
    change 0xFFFFFFFFFFFFFFFF with (Z.ones 64). change 0xFFFFFFFF with (Z.ones 32).
    rewrite !Z.land_ones, Z.shiftr_div_pow2 by lia.
    pose proof (Z.mod_pos_bound t (2 ^ 32) ltac:(lia)).
    pose proof (Z.mod_pos_bound (t / 2 ^ 32) (2 ^ 32) ltac:(lia)).
    apply Z.mod_small. change (2 ^ 64) with 18446744073709551616.
    change (2 ^ 32) with 4294967296 in *. nia. }
  split; [apply E|].
  assert (P : forall t, multiply_with_carry t = (fst (multiply_with_carry t), 0xFFFFFFFFFFFFFFFF))
    by reflexivity.
  rewrite (P (s mod 2 ^ 64)), (P s), !E. f_equal.
  pose proof (Z.mod_pos_bound s (2 ^ 32) ltac:(lia)) as Hlo.
  pose proof (Z.mod_pos_bound (s / 2 ^ 32) (2 ^ 32) ltac:(lia)) as Hhi.
  assert (S : s mod 2 ^ 64 = s mod 2 ^ 32 + (s / 2 ^ 32) mod 2 ^ 32 * 2 ^ 32).
  { change (2 ^ 64) with (2 ^ 32 * 2 ^ 32). rewrite Z.rem_mul_r by lia. ring. }
  rewrite S. set (lo := s mod 2 ^ 32) in *. set (hi := (s / 2 ^ 32) mod 2 ^ 32) in *.
  rewrite Z.mod_add, Z.div_add by lia.
  rewrite (Z.mod_small lo), (Z.div_small lo), Z.add_0_l, (Z.mod_small hi) by lia.
  reflexivity.
Qed.

(** *** Xorshift is one-to-one on the states of 32 bits *)

Lemma lxor_cancel (a b c d : Z) : Z.lxor a b = Z.lxor c d -> Z.lxor a c = Z.lxor b d.
Proof.
  intros H. apply Z.bits_inj'. intros n _. rewrite !Z.lxor_spec.
  apply (f_equal (fun z => Z.testbit z n)) in H. rewrite !Z.lxor_spec in H.
  destruct (Z.testbit a n), (Z.testbit b n), (Z.testbit c n), (Z.testbit d n);
    simpl in *; congruence.
Qed.

Lemma no_bits (d : Z) : (forall i, 0 <= i -> Z.testbit d i = false) -> d = 0.
Proof. intros H. apply Z.bits_inj'. intros n Hn. rewrite Z.bits_0. now apply H. Qed.

(** A number that is its own masked left shift has no bit. *)
Lemma left_shift_fixed (d n : Z) : 0 < n -> d = mask32 (Z.shiftl d n) -> d = 0.
Proof.
  intros Hn Hd. apply no_bits.
  apply (Zlt_0_ind (fun i => Z.testbit d i = false)). intros i IH Hi.
  rewrite Hd. unfold mask32. rewrite Z.land_spec.
  destruct (Z.lt_ge_cases i n) as [L|G].
  - rewrite Z.shiftl_spec_low by assumption. reflexivity.
  - rewrite Z.shiftl_spec by assumption. rewrite IH by lia. reflexivity.
Qed.

Lemma left_step_injective (x y n : Z) :
  0 < n ->
  Z.lxor x (mask32 (Z.shiftl x n)) = Z.lxor y (mask32 (Z.shiftl y n)) -> x = y.
Proof.
  intros Hn H. apply lxor_cancel in H.
  rewrite <- mask32_lxor, <- Z.shiftl_lxor in H.
  apply Z.lxor_eq. now apply (left_shift_fixed _ n).
Qed.

Lemma high_bits_u32 (d i : Z) : 0 <= d < 2 ^ 32 -> 32 <= i -> Z.testbit d i = false.
Proof.
  intros Hd Hi. destruct (Z.eq_dec d 0) as [->|N]; [apply Z.bits_0|].
  apply Z.bits_above_log2; [lia|].
  assert (Z.log2 d < 32) by (apply Z.log2_lt_pow2; lia). lia.
Qed.

Lemma right_step_injective (x y : Z) :
  0 <= x < 2 ^ 32 -> 0 <= y < 2 ^ 32 ->
  Z.lxor x (Z.shiftr x 17) = Z.lxor y (Z.shiftr y 17) -> x = y.
Proof.
  intros Hx Hy H. apply lxor_cancel in H. rewrite <- Z.shiftr_lxor in H.
  pose proof (lxor_u32 x y Hx Hy) as Hd.
  apply Z.lxor_eq. set (d := Z.lxor x y) in *.
  apply no_bits. intros i Hi.
  rewrite H, Z.shiftr_spec by assumption.
  rewrite H, Z.shiftr_spec by lia.
  apply high_bits_u32; [assumption | lia].
Qed.

(** Two states of 32 bits with the same successor are the same state, so
    a run never merges two of them; zero, which steps to itself, is reached
    from no other state, and a run from a nonzero state of 32 bits never
    shows zero. *)
Theorem xorshift_injective (x y : Z) :
  0 <= x < 2 ^ 32 -> 0 <= y < 2 ^ 32 ->
  (fst (xorshift x) = fst (xorshift y) <-> x = y) /\
  (fst (xorshift x) = 0 <-> x = 0) /\
  (x <> 0 -> forall n v, In v (Engine.trajectory xorshift x n) -> 0 < v < 2 ^ 32).
Proof.
  assert (Inj : forall a b, 0 <= a < 2 ^ 32 -> 0 <= b < 2 ^ 32 ->
                            fst (xorshift a) = fst (xorshift b) -> a = b).
  { intros a b Ha Hb E. rewrite !xorshift_steps in E. cbn [fst] in E.
    set (a1 := Z.lxor a (mask32 (Z.shiftl a 13))) in *.
    set (b1 := Z.lxor b (mask32 (Z.shiftl b 13))) in *.
    assert (Ba : 0 <= a1 < 2 ^ 32).
    { apply lxor_u32; [assumption|]. pose proof (mask32_range (Z.shiftl a 13)). lia. }
    assert (Bb : 0 <= b1 < 2 ^ 32).
    { apply lxor_u32; [assumption|]. pose proof (mask32_range (Z.shiftl b 13)). lia. }
    set (a2 := Z.lxor a1 (Z.shiftr a1 17)) in *.
    set (b2 := Z.lxor b1 (Z.shiftr b1 17)) in *.
    assert (Ba2 : 0 <= a2 < 2 ^ 32)
      by (apply lxor_u32; [assumption | apply shiftr_u32; [lia | assumption]]).
    assert (Bb2 : 0 <= b2 < 2 ^ 32)
      by (apply lxor_u32; [assumption | apply shiftr_u32; [lia | assumption]]).
    assert (Ba3 : 0 <= Z.lxor a2 (mask32 (Z.shiftl a2 5)) < 2 ^ 32).
    { apply lxor_u32; [assumption|]. pose proof (mask32_range (Z.shiftl a2 5)). lia. }
    assert (Bb3 : 0 <= Z.lxor b2 (mask32 (Z.shiftl b2 5)) < 2 ^ 32).
    { apply lxor_u32; [assumption|]. pose proof (mask32_range (Z.shiftl b2 5)). lia. }
    rewrite (mask32_small _ Ba3), (mask32_small _ Bb3) in E.
    apply left_step_injective in E; [|lia].
    apply right_step_injective in E; [|assumption|assumption].
    apply left_step_injective in E; [assumption | lia]. }
  assert (Zero : forall a, 0 <= a < 2 ^ 32 -> fst (xorshift a) = 0 -> a = 0).
  { intros a Ha E. apply Inj; [assumption | lia | exact E]. }
  intros Hx Hy. split; [split; [apply Inj; assumption | intros ->; reflexivity]|].
  split; [split; [apply Zero; assumption | intros ->; reflexivity]|].
  intros Hnz n. revert x Hx Hnz. clear Hy y.
  induction n as [|n IH]; intros x Hx Hnz v Hin; [contradiction|].
  cbn [Engine.trajectory] in Hin.
  assert (B : 0 < fst (xorshift x) < 2 ^ 32).
  { destruct (xorshift_range x) as [R _].
    assert (fst (xorshift x) <> 0) by (intros E; apply Hnz; now apply Zero).
    change 0xFFFFFFFF with (2 ^ 32 - 1) in R. lia. }
  destruct Hin as [<-|Hin]; [exact B|].
  apply (IH (fst (xorshift x))); [lia | lia | assumption].
Qed.

Lemma xorshift_injective_witness :
  (fst (xorshift 12345) = fst (xorshift 54321) <-> 12345 = 54321) /\
  (fst (xorshift 12345) = 0 <-> 12345 = 0) /\
  (12345 <> 0 -> forall n v, In v (Engine.trajectory xorshift 12345 n) -> 0 < v < 2 ^ 32).
Proof. apply (xorshift_injective 12345 54321); lia. Defined.

End Generators.

(** ** The ends of the grey ramp *)

Section GreyRamp.

Import Py Color.
Local Open Scope Q_scope.

(** A value whose exact image is an integer keeps it through a rounding. *)
Lemma checked_exact (q : Q) (z : Z) :
  (0 <= z < 2 ^ 53)%Z -> q == inject_Z z ->
  exists r, PyFloat.checked q = Ok r /\ r == inject_Z z.
Proof.
  intros Hz Hq.
  destruct (checked_bounds q z z ltac:(lia) ltac:(lia)) as (r & E & B1 & B2).
  - rewrite Hq. split; apply Qle_refl.
  - exists r. split; [assumption | now apply Qle_antisym].
Qed.

Lemma base_gray_of_exact (v range : Z) (k : Z) :
  (0 < range)%Z -> (0 <= k <= 1)%Z -> v = (k * range)%Z ->
  base_gray_of v range = Ok (200 * k + 20)%Z.
Proof.
  intros Hr Hk ->. unfold base_gray_of, PyFloat.true_div, PyFloat.mul, PyFloat.add.
  destruct (range =? 0)%Z eqn:E; [apply Z.eqb_eq in E; lia | clear E].
  assert (Hrq : ~ inject_Z range == 0).
  { intros H. unfold Qeq in H. simpl in H. lia. }
  destruct (checked_exact (inject_Z (k * range) / inject_Z range) k) as (ratio & -> & Er).
  { split; [lia|]. assert (2 < 2 ^ 53)%Z by reflexivity. lia. }
  { rewrite inject_Z_mult. field. exact Hrq. }
  rewrite bind_Ok.
  destruct (checked_exact (ratio * 200) (200 * k)) as (x & -> & Ex).
  { split; [lia|]. assert (201 < 2 ^ 53)%Z by reflexivity. lia. }
  { rewrite Er, inject_Z_mult. change (inject_Z 200) with 200. ring. }
  rewrite bind_Ok.
  destruct (checked_exact (x + 20) (200 * k + 20)) as (y & -> & Ey).
  { split; [lia|]. assert (221 < 2 ^ 53)%Z by reflexivity. lia. }
  { rewrite Ex, inject_Z_plus. reflexivity. }
  rewrite bind_Ok. unfold mret, result_ret. f_equal.
  unfold PyFloat.trunc.
  assert (Hy : Qle_bool 0 y = true).
  { apply Qle_bool_iff. rewrite Ey. change 0 with (inject_Z 0). rewrite <- Zle_Qle. lia. }
  rewrite Hy, Ey. apply Qfloor_Z.
Qed.

(** The darkest and the brightest cell: the value zero gives [base_gray]
    20 and the value equal to the range gives 220, for every positive
    range, with the channels that follow for a three-byte tint. *)
Theorem grey_ramp_ends (range : Z) (tint : Z * Z * Z) :
  (0 < range)%Z -> is_tint tint ->
  base_gray_of 0 range = Ok 20%Z /\
  base_gray_of range range = Ok 220%Z /\
  channels 0 range (tint_text tint)
    = Ok ((fst (fst tint) + 180) / 10, (snd (fst tint) + 180) / 10, (snd tint + 180) / 10)%Z /\
  channels range range (tint_text tint)
    = Ok ((fst (fst tint) + 1980) / 10, (snd (fst tint) + 1980) / 10,
          (snd tint + 1980) / 10)%Z.
Proof.
  intros Hr Ht.
  pose proof (base_gray_of_exact 0 range 0 Hr ltac:(lia) ltac:(lia)) as E0.
  pose proof (base_gray_of_exact range range 1 Hr ltac:(lia) ltac:(lia)) as E1.
  change (200 * 0 + 20)%Z with 20%Z in E0. change (200 * 1 + 20)%Z with 220%Z in E1.
  split; [exact E0|]. split; [exact E1|].
  destruct tint as [[tr tg] tb]. cbn [fst snd].
  destruct (tint_text_slices tr tg tb Ht) as (Sr & Sg & Sb).
  destruct Ht as (Hr' & Hg' & Hb').
  unfold channels, channel. rewrite E0, E1, !bind_Ok, Sr, Sg, Sb, !bind_Ok.
  rewrite !blend_exact by (try assumption; lia).
  split; reflexivity.
Qed.

Lemma grey_ramp_ends_witness :
  base_gray_of 0 233280 = Ok 20%Z /\
  base_gray_of 233280 233280 = Ok 220%Z /\
  channels 0 233280 (tint_text (0, 212, 255)%Z)
    = Ok ((0 + 180) / 10, (212 + 180) / 10, (255 + 180) / 10)%Z /\
  channels 233280 233280 (tint_text (0, 212, 255)%Z)
    = Ok ((0 + 1980) / 10, (212 + 1980) / 10, (255 + 1980) / 10)%Z.
Proof.
  apply (grey_ramp_ends 233280 (0, 212, 255)%Z); [lia | unfold is_tint, is_byte; lia].
Defined.

End GreyRamp.

(** ** Rounding is monotone *)

Section RoundingMonotone.

Import PyFloat.
Local Open Scope Q_scope.


Lemma pow2_succ (e : Z) : pow2 (e + 1) == 2 * pow2 e.
Proof.
  unfold pow2.
  destruct (0 <=? e)%Z eqn:E1, (0 <=? e + 1)%Z eqn:E2;
    try apply Z.leb_le in E1; try apply Z.leb_gt in E1;
    try apply Z.leb_le in E2; try apply Z.leb_gt in E2; try lia.
  - rewrite Z.pow_add_r by lia. rewrite inject_Z_mult. change (inject_Z (2 ^ 1)) with 2. ring.
  - assert (e = (-1)%Z) by lia. subst e. reflexivity.
  - replace (- e)%Z with (1 + - (e + 1))%Z by lia.
    rewrite Z.pow_add_r by lia. rewrite inject_Z_mult. change (inject_Z (2 ^ 1)) with 2.
    assert (0 < inject_Z (2 ^ (- (e + 1)))).
    { change 0 with (inject_Z 0). rewrite <- Zlt_Qlt. apply Z.pow_pos_nonneg; lia. }
    field. lra.
Qed.

Lemma pow2_add (a b : Z) : pow2 (a + b) == pow2 a * pow2 b.
Proof.
  revert b. apply Z.bi_induction.
  - intros x y ->. reflexivity.
  - rewrite Z.add_0_r. change (pow2 0) with 1. ring.
  - intros b. rewrite Z.add_succ_r, <- !Z.add_1_r, !pow2_succ. split; intros H.
    + rewrite H. ring.
    + apply (Qmult_inj_l _ _ 2); [lra|]. rewrite H. ring.
Qed.

(** For [a <= b] the larger power is an integer multiple of the smaller. *)
Lemma pow2_ratio (a b : Z) : (a <= b)%Z -> pow2 b == inject_Z (2 ^ (b - a)) * pow2 a.
Proof.
  intros H. replace b with ((b - a) + a)%Z at 1 by lia. rewrite pow2_add.
  unfold pow2 at 1. destruct (0 <=? b - a)%Z eqn:E; [reflexivity|].
  apply Z.leb_gt in E. lia.
Qed.

Lemma pow2_le (a b : Z) : (a <= b)%Z -> pow2 a <= pow2 b.
Proof.
  intros H. rewrite (pow2_ratio a b H).
  assert (1 <= inject_Z (2 ^ (b - a))).
  { change 1 with (inject_Z 1). rewrite <- Zle_Qle.
    assert (0 < 2 ^ (b - a))%Z by (apply Z.pow_pos_nonneg; lia). lia. }
  pose proof (pow2_pos a). nra.
Qed.

Lemma pow2_lt_inv (a b : Z) : pow2 a < pow2 b -> (a < b)%Z.
Proof.
  intros H. destruct (Z.lt_ge_cases a b) as [L|G]; [assumption|].
  pose proof (pow2_le b a G). lra.
Qed.

(** A quotient of two integer powers. *)
Lemma pow2_sub (a b : Z) :
  (0 <= a)%Z -> (0 <= b)%Z -> pow2 (a - b) == inject_Z (2 ^ a) / inject_Z (2 ^ b).
Proof.
  intros Ha Hb.
  assert (Hp : 0 < inject_Z (2 ^ b)).
  { change 0 with (inject_Z 0). rewrite <- Zlt_Qlt. now apply Z.pow_pos_nonneg. }
  assert (E : pow2 a == pow2 (a - b) * pow2 b).
  { rewrite <- pow2_add. replace (a - b + b)%Z with a by lia. reflexivity. }
  unfold pow2 at 1 3 in E.
  destruct (0 <=? a)%Z eqn:E1; [|apply Z.leb_gt in E1; lia].
  destruct (0 <=? b)%Z eqn:E2; [|apply Z.leb_gt in E2; lia].
  rewrite E. field. lra.
Qed.

(** [floor_log2] is the binary logarithm rounded down. *)
Lemma floor_log2_spec (q : Q) :
  0 < q -> pow2 (floor_log2 q) <= q /\ q < pow2 (floor_log2 q + 1).
Proof.
  intros Hpos. destruct q as [n d]. unfold floor_log2. cbn [Qnum Qden].
  assert (Hn : (0 < n)%Z) by (unfold Qlt in Hpos; simpl in Hpos; lia).
  pose proof (Z.log2_spec n Hn) as [Hn1 Hn2].
  pose proof (Z.log2_spec (Z.pos d) (Pos2Z.is_pos d)) as [Hd1 Hd2].
  pose proof (Z.log2_nonneg n) as Ha. pose proof (Z.log2_nonneg (Z.pos d)) as Hb.
  set (a := Z.log2 n) in *. set (b := Z.log2 (Z.pos d)) in *.
  assert (Hq : n # d == inject_Z n / inject_Z (Z.pos d)) by apply Qmake_Qdiv.
  assert (Hdq : 0 < inject_Z (Z.pos d)) by (change 0 with (inject_Z 0); now rewrite <- Zlt_Qlt).
  assert (Pa : 0 < inject_Z (2 ^ a))
    by (change 0 with (inject_Z 0); rewrite <- Zlt_Qlt; now apply Z.pow_pos_nonneg).
  assert (Pb : 0 < inject_Z (2 ^ b))
    by (change 0 with (inject_Z 0); rewrite <- Zlt_Qlt; now apply Z.pow_pos_nonneg).
  rewrite Zle_Qle in Hn1, Hd1. rewrite Zlt_Qlt in Hn2, Hd2.
  rewrite Z.pow_succ_r, inject_Z_mult in Hn2, Hd2 by assumption.
  change (inject_Z 2) with 2 in Hn2, Hd2.
  assert (Low : pow2 (a - b - 1) <= n # d).
  { replace (a - b - 1)%Z with (a - (b + 1))%Z by lia.
    rewrite pow2_sub by lia. rewrite Hq.
    rewrite Z.pow_add_r, inject_Z_mult by lia. change (inject_Z (2 ^ 1)) with 2.
    apply Qle_shift_div_l; [assumption|].
    assert (inject_Z (2 ^ a) / (inject_Z (2 ^ b) * 2) * inject_Z (Z.pos d)
            == inject_Z (2 ^ a) * (inject_Z (Z.pos d) / (inject_Z (2 ^ b) * 2))) by (field; lra).
    rewrite H.
    assert (inject_Z (Z.pos d) / (inject_Z (2 ^ b) * 2) <= 1).
    { apply Qle_shift_div_r; lra. }
    nra. }
  assert (High : n # d < pow2 (a - b + 1)).
  { replace (a - b + 1)%Z with ((a + 1) - b)%Z by lia.
    rewrite pow2_sub by lia. rewrite Hq.
    rewrite Z.pow_add_r, inject_Z_mult by lia. change (inject_Z (2 ^ 1)) with 2.
    apply Qlt_shift_div_r; [assumption|].
    assert (inject_Z (2 ^ a) * 2 / inject_Z (2 ^ b) * inject_Z (Z.pos d)
            == inject_Z (2 ^ a) * 2 * (inject_Z (Z.pos d) / inject_Z (2 ^ b))) by (field; lra).
    rewrite H.
    assert (1 <= inject_Z (Z.pos d) / inject_Z (2 ^ b)).
    { apply Qle_shift_div_l; lra. }
    nra. }
  destruct (Qle_bool (pow2 (a - b)) (n # d)) eqn:T.
  - apply Qle_bool_iff in T. split; assumption.
  - split; [exact Low|]. replace (a - b - 1 + 1)%Z with (a - b)%Z by lia.
    apply Qnot_le_lt. intros C. apply Qle_bool_iff in C. congruence.
Qed.


Lemma floor_log2_mono (p q : Q) : 0 < p -> p <= q -> (floor_log2 p <= floor_log2 q)%Z.
Proof.
  intros Hp Hpq.
  destruct (floor_log2_spec p Hp) as [L1 _].
  destruct (floor_log2_spec q ltac:(lra)) as [_ U2].
  assert (H : pow2 (floor_log2 p) < pow2 (floor_log2 q + 1)) by lra.
  apply pow2_lt_inv in H. lia.
Qed.

Lemma Qabs_pos_eq (q : Q) : 0 <= q -> Qabs q = q.
Proof.
  intros H. destruct q as [n d]. unfold Qabs. f_equal. apply Z.abs_eq.
  unfold Qle in H. simpl in H. lia.
Qed.

Lemma cexp_mono (p q : Q) : 0 < p -> p <= q -> (cexp p <= cexp q)%Z.
Proof.
  intros Hp Hpq. unfold cexp.
  rewrite (Qabs_pos_eq p), (Qabs_pos_eq q) by lra.
  pose proof (floor_log2_mono p q Hp Hpq). lia.
Qed.

Lemma round_half_even_mono (x y : Q) :
  x <= y -> (round_half_even x <= round_half_even y)%Z.
Proof.
  intros H.
  pose proof (Qfloor_resp_le x y H) as Hf.
  destruct (Z.eq_dec (Qfloor x) (Qfloor y)) as [E|N].
  - unfold round_half_even. rewrite <- E.
    destruct (Qcompare_spec (x - inject_Z (Qfloor x)) (1 # 2)) as [A|A|A];
      destruct (Qcompare_spec (y - inject_Z (Qfloor x)) (1 # 2)) as [B|B|B];
      try destruct (Z.even (Qfloor x)); try lia; exfalso; lra.
  - assert (U : (round_half_even x <= Qfloor x + 1)%Z).
    { apply round_half_even_le. pose proof (Qlt_floor x). lra. }
    assert (L : (Qfloor y <= round_half_even y)%Z).
    { apply round_half_even_ge. apply Qfloor_le. }
    lia.
Qed.

(** Rounding to binary64 keeps the order of non-negative values. *)
Lemma round64_mono (p q : Q) : 0 <= p -> p <= q -> round64 p <= round64 q.
Proof.
  intros Hp Hpq. unfold round64.
  destruct (Qeq_bool p 0) eqn:Ep.
  - destruct (Qeq_bool q 0) eqn:Eq; [lra|].
    rewrite Qred_correct. pose proof (pow2_pos (cexp q)) as P.
    assert (0 <= q / pow2 (cexp q)) by (apply Qle_shift_div_l; lra).
    pose proof (round_half_even_ge (q / pow2 (cexp q)) 0 H) as G.
    rewrite Zle_Qle in G. change (inject_Z 0) with 0 in G. nra.
  - apply Qeq_bool_neq in Ep.
    assert (Hp0 : 0 < p).
    { destruct (Qle_lt_or_eq 0 p Hp) as [L|E]; [exact L | exfalso; apply Ep; now symmetry]. }
    destruct (Qeq_bool q 0) eqn:Eq; [apply Qeq_bool_iff in Eq; lra|].
    rewrite !Qred_correct.
    pose proof (cexp_mono p q Hp0 Hpq) as He.
    pose proof (pow2_pos (cexp p)) as Pp. pose proof (pow2_pos (cexp q)) as Pq.
    destruct (Z.eq_dec (cexp p) (cexp q)) as [E|N].
    + rewrite <- E.
      assert (D : p / pow2 (cexp p) <= q / pow2 (cexp p)).
      { apply Qle_shift_div_l; [assumption|].
        assert (X : p / pow2 (cexp p) * pow2 (cexp p) == p) by (field; lra).
        rewrite X. assumption. }
      pose proof (round_half_even_mono _ _ D) as M. rewrite Zle_Qle in M. nra.
    + assert (Lt : (cexp p < cexp q)%Z) by lia.
      assert (Eq2 : cexp q = (floor_log2 q - 52)%Z).
      { unfold cexp in *. rewrite (Qabs_pos_eq q) in * by lra. lia. }
      assert (Lp : (floor_log2 p + 1 <= cexp q + 52)%Z).
      { unfold cexp in Lt at 1. rewrite (Qabs_pos_eq p) in Lt by lra. lia. }
      destruct (floor_log2_spec p Hp0) as [_ Up].
      destruct (floor_log2_spec q ltac:(lra)) as [Lq _].
      pose proof (pow2_le _ _ Lp) as Lb.
      replace (floor_log2 q) with (cexp q + 52)%Z in Lq by lia.
      set (B := pow2 (cexp q + 52)) in *.
      assert (Bp : B == inject_Z (2 ^ (cexp q + 52 - cexp p)) * pow2 (cexp p)).
      { unfold B. apply pow2_ratio. lia. }
      assert (Bq : B == inject_Z (2 ^ 52) * pow2 (cexp q)).
      { unfold B. rewrite (pow2_ratio (cexp q) (cexp q + 52)) by lia.
        replace (cexp q + 52 - cexp q)%Z with 52%Z by lia. reflexivity. }
      assert (R1 : (round_half_even (p / pow2 (cexp p)) <= 2 ^ (cexp q + 52 - cexp p))%Z).
      { apply round_half_even_le. apply Qle_shift_div_r; [assumption|]. lra. }
      assert (R2 : (2 ^ 52 <= round_half_even (q / pow2 (cexp q)))%Z).
      { apply round_half_even_ge. apply Qle_shift_div_l; [assumption|]. lra. }
      rewrite Zle_Qle in R1, R2.
      apply Qle_trans with B.
      * rewrite Bp. nra.
      * rewrite Bq. nra.
Qed.

End RoundingMonotone.

(** ** Brighter for larger values *)

Section BrightnessOrder.

Import Py Color.
Local Open Scope Q_scope.

(** The float [ratio * 200 + 20] of [value_to_color], one rounding per
    operation. *)
Definition gray_float_of (v range : Z) : Q :=
  PyFloat.round64 (PyFloat.round64 (PyFloat.round64 (inject_Z v / inject_Z range) * 200) + 20).

Lemma base_gray_of_float (v range : Z) :
  (0 <= v <= range)%Z -> (0 < range)%Z ->
  base_gray_of v range = Ok (Qfloor (gray_float_of v range)) /\
  20 <= gray_float_of v range <= 220.
Proof.
  intros Hv Hr. unfold base_gray_of, PyFloat.true_div, PyFloat.mul, PyFloat.add, gray_float_of.
  destruct (range =? 0)%Z eqn:E; [apply Z.eqb_eq in E; lia | clear E].
  pose proof (ratio_bounds v range Hr Hv) as Hq.
  set (q := inject_Z v / inject_Z range) in *.
  rewrite (checked_round64 q 0 1) by (try lia; try reflexivity; exact Hq).
  rewrite bind_Ok.
  pose proof (round64_bounds q 0 1 ltac:(lia) ltac:(reflexivity) Hq) as B1.
  set (ratio := PyFloat.round64 q) in *.
  change (inject_Z 0) with 0 in B1. change (inject_Z 1) with 1 in B1.
  assert (B2q : inject_Z 0 <= ratio * 200 <= inject_Z 200) by (unfold inject_Z; lra).
  rewrite (checked_round64 (ratio * 200) 0 200) by (try lia; try reflexivity; exact B2q).
  rewrite bind_Ok.
  pose proof (round64_bounds (ratio * 200) 0 200 ltac:(lia) ltac:(reflexivity) B2q) as B2.
  set (x := PyFloat.round64 (ratio * 200)) in *.
  change (inject_Z 0) with 0 in B2. change (inject_Z 200) with 200 in B2.
  assert (B3q : inject_Z 20 <= x + 20 <= inject_Z 220) by (unfold inject_Z; lra).
  rewrite (checked_round64 (x + 20) 20 220) by (try lia; try reflexivity; exact B3q).
  rewrite bind_Ok.
  pose proof (round64_bounds (x + 20) 20 220 ltac:(lia) ltac:(reflexivity) B3q) as B3.
  set (y := PyFloat.round64 (x + 20)) in *.
  change (inject_Z 20) with 20 in B3. change (inject_Z 220) with 220 in B3.
  split; [|exact B3].
  unfold mret, result_ret, PyFloat.trunc.
  assert (Hy : Qle_bool 0 y = true) by (apply Qle_bool_iff; lra).
  now rewrite Hy.
Qed.

Lemma gray_float_of_mono (v1 v2 range : Z) :
  (0 <= v1 <= v2)%Z -> (0 < range)%Z ->
  gray_float_of v1 range <= gray_float_of v2 range.
Proof.
  intros Hv Hr. unfold gray_float_of.
  assert (Hrq : 0 < inject_Z range) by (change 0 with (inject_Z 0); now rewrite <- Zlt_Qlt).
  assert (H1 : 0 <= inject_Z v1) by (change 0 with (inject_Z 0); rewrite <- Zle_Qle; lia).
  assert (H12 : inject_Z v1 <= inject_Z v2) by (rewrite <- Zle_Qle; lia).
  assert (Q1 : 0 <= inject_Z v1 / inject_Z range) by (apply Qle_shift_div_l; lra).
  assert (Q12 : inject_Z v1 / inject_Z range <= inject_Z v2 / inject_Z range).
  { apply Qle_shift_div_l; [assumption|].
    assert (X : inject_Z v1 / inject_Z range * inject_Z range == inject_Z v1) by (field; lra).
    rewrite X. assumption. }
  pose proof (round64_mono _ _ Q1 Q12) as M1.
  pose proof (round64_mono _ _ (Qle_refl 0) Q1) as Z1.
  change (PyFloat.round64 0) with 0 in Z1.
  set (a := PyFloat.round64 (inject_Z v1 / inject_Z range)) in *.
  set (b := PyFloat.round64 (inject_Z v2 / inject_Z range)) in *.
  assert (A0 : 0 <= a * 200) by lra.
  assert (AB : a * 200 <= b * 200) by lra.
  pose proof (round64_mono _ _ A0 AB) as M2.
  pose proof (round64_mono _ _ (Qle_refl 0) A0) as Z2.
  change (PyFloat.round64 0) with 0 in Z2.
  apply round64_mono; lra.
Qed.

(** The three channels of a [base_gray] between 20 and 220. *)
Lemma channels_of_gray (v range bg : Z) (tint : Z * Z * Z) :
  base_gray_of v range = Ok bg -> (20 <= bg <= 220)%Z -> is_tint tint ->
  channels v range (tint_text tint)
  = Ok ((fst (fst tint) + 9 * bg) / 10, (snd (fst tint) + 9 * bg) / 10,
        (snd tint + 9 * bg) / 10)%Z.
Proof.
  intros Hbg Bbg Ht. destruct tint as [[tr tg] tb]. cbn [fst snd].
  destruct (tint_text_slices tr tg tb Ht) as (Sr & Sg & Sb).
  destruct Ht as (Hr' & Hg' & Hb').
  unfold channels, channel. rewrite Hbg, bind_Ok.
  rewrite Sr, bind_Ok, (blend_exact tr bg Hr' Bbg), bind_Ok.
  rewrite Sg, bind_Ok, (blend_exact tg bg Hg' Bbg), bind_Ok.
  rewrite Sb, bind_Ok, (blend_exact tb bg Hb' Bbg), bind_Ok.
  reflexivity.
Qed.

(** The mapping never darkens: of two values of the same positive range, the
    larger one gets a [base_gray] and three channels at least as large as
    those of the smaller one, whatever the roundings of the three float
    operations do. *)
Theorem brightness_monotone (v1 v2 range : Z) (tint : Z * Z * Z) :
  (0 <= v1 <= v2)%Z -> (v2 <= range)%Z -> (0 < range)%Z -> is_tint tint ->
  exists g1 g2 c1 c2,
    base_gray_of v1 range = Ok g1 /\ base_gray_of v2 range = Ok g2 /\
    channels v1 range (tint_text tint) = Ok c1 /\
    channels v2 range (tint_text tint) = Ok c2 /\
    (g1 <= g2)%Z /\
    (fst (fst c1) <= fst (fst c2))%Z /\ (snd (fst c1) <= snd (fst c2))%Z /\
    (snd c1 <= snd c2)%Z.
Proof.
  intros Hv H2 Hr Ht.
  destruct (base_gray_of_float v1 range ltac:(lia) Hr) as [E1 B1].
  destruct (base_gray_of_float v2 range ltac:(lia) Hr) as [E2 B2].
  pose proof (gray_float_of_mono v1 v2 range Hv Hr) as M.
  set (y1 := gray_float_of v1 range) in *. set (y2 := gray_float_of v2 range) in *.
  assert (G : (Qfloor y1 <= Qfloor y2)%Z) by now apply Qfloor_resp_le.
  assert (F : forall y, 20 <= y <= 220 -> (20 <= Qfloor y <= 220)%Z).
  { intros y By. split.
    - rewrite <- (Qfloor_Z 20). apply Qfloor_resp_le. apply By.
    - rewrite <- (Qfloor_Z 220). apply Qfloor_resp_le. apply By. }
  exists (Qfloor y1), (Qfloor y2).
  eexists. eexists.
  split; [exact E1|]. split; [exact E2|].
  split; [exact (channels_of_gray v1 range _ tint E1 (F y1 B1) Ht)|].
  split; [exact (channels_of_gray v2 range _ tint E2 (F y2 B2) Ht)|].
  split; [exact G|]. cbn [fst snd].
  split; [|split]; apply Z.div_le_mono; lia.
Qed.

Lemma brightness_monotone_witness :
  exists g1 g2 c1 c2,
    base_gray_of 58598 233280 = Ok g1 /\ base_gray_of 58599 233280 = Ok g2 /\
    channels 58598 233280 (tint_text (0, 212, 255)%Z) = Ok c1 /\
    channels 58599 233280 (tint_text (0, 212, 255)%Z) = Ok c2 /\
    (g1 <= g2)%Z /\
    (fst (fst c1) <= fst (fst c2))%Z /\ (snd (fst c1) <= snd (fst c2))%Z /\
    (snd c1 <= snd c2)%Z.
Proof.
  apply (brightness_monotone 58598 58599 233280 (0, 212, 255)%Z);
    [lia | lia | lia | unfold is_tint, is_byte; lia].
Defined.

End BrightnessOrder.

(** ** The periods of the four generators *)

(** *** Orbits of a one-to-one step *)

Section Orbits.

Variable f : Z -> Z.
Variable P : Z -> Prop.
Hypothesis P_step : forall x, P x -> P (f x).
Hypothesis f_injective : forall x y, P x -> P y -> f x = f y -> x = y.

Lemma iter_keeps (k : nat) (x : Z) : P x -> P (Nat.iter k f x).
Proof. intros Hx. induction k as [|k IH]; [exact Hx | now apply P_step]. Qed.

Lemma iter_cancel (k : nat) (x y : Z) :
  P x -> P y -> Nat.iter k f x = Nat.iter k f y -> x = y.
Proof.
  intros Hx Hy. induction k as [|k IH]; intros E; [exact E|].
  cbn [Nat.iter] in E. apply f_injective in E; [now apply IH | |]; now apply iter_keeps.
Qed.

(** A state that does not come back to itself in fewer than [m] steps has
    [m] different states on its orbit. *)
Lemma orbit_distinct (m : nat) (v : Z) :
  P v -> (forall k, (1 <= k < m)%nat -> Nat.iter k f v <> v) ->
  forall n, (n <= m)%nat -> List.NoDup (map (fun i => Nat.iter i f v) (seq 0 n)).
Proof.
  intros Hv Hret n Hn.
  assert (Short : forall a b, (a < b < n)%nat -> Nat.iter a f v <> Nat.iter b f v).
  { intros a b Hab C. replace b with (a + (b - a))%nat in C by lia.
    rewrite Nat.iter_add in C.
    apply iter_cancel in C; [|exact Hv|now apply iter_keeps].
    symmetry in C. revert C. apply Hret. lia. }
  apply NoDup_nth_error. intros i j Hi E.
  rewrite length_map, length_seq in Hi.
  rewrite !nth_error_map in E.
  rewrite (nth_error_nth' (seq 0 n) O) in E by (rewrite length_seq; lia).
  rewrite seq_nth in E by lia. cbn [option_map Nat.add] in E.
  destruct (nth_error (seq 0 n) j) as [j'|] eqn:Ej; [|discriminate].
  assert (Hj : (j < n)%nat).
  { rewrite <- (length_seq n 0). apply nth_error_Some. congruence. }
  rewrite (nth_error_nth' (seq 0 n) O) in Ej by (rewrite length_seq; lia).
  rewrite seq_nth in Ej by lia. injection Ej as <-. cbn [option_map Nat.add] in E.
  injection E as E.
  destruct (Nat.lt_trichotomy i j) as [L|[Q|G]]; [|exact Q|].
  - exfalso. apply (Short i j); [lia | exact E].
  - exfalso. apply (Short j i); [lia | now symmetry].
Qed.

End Orbits.

Section Runs_of_steps.

Import Engine.

Lemma trajectory_iter (algo_func : Z -> Z * Z) (s : Z) (n : nat) :
  trajectory algo_func s n
  = map (fun i => Nat.iter i (fun x => fst (algo_func x)) (fst (algo_func s))) (seq 0 n).
Proof.
  revert s. induction n as [|n IH]; intros s; [reflexivity|].
  cbn [trajectory seq map Nat.iter]. f_equal.
  rewrite IH, <- seq_shift, map_map. apply map_ext. intros i.
  now rewrite Nat.iter_succ_r.
Qed.

Lemma trajectory_last (algo_func : Z -> Z * Z) (n : nat) (s d : Z) :
  (0 < n)%nat ->
  List.last (trajectory algo_func s n) d = Nat.iter n (fun x => fst (algo_func x)) s.
Proof.
  intros Hn. destruct n as [|n]; [lia | clear Hn].
  revert s. induction n as [|n IH]; intros s; [reflexivity|].
  rewrite Nat.iter_succ_r, <- (IH (fst (algo_func s))). reflexivity.
Qed.

(** A run depends on its seed through the first value only. *)
Lemma trajectory_first (algo_func : Z -> Z * Z) (s t : Z) (n : nat) :
  fst (algo_func s) = fst (algo_func t) ->
  trajectory algo_func s n = trajectory algo_func t n.
Proof. intros E. destruct n as [|n]; [reflexivity|]. cbn [trajectory]. now rewrite E. Qed.

(** When the first value comes back after [m] steps, the run repeats itself
    after [m] values. *)
Lemma trajectory_repeats (algo_func : Z -> Z * Z) (s : Z) (m n : nat) :
  (0 < m)%nat ->
  Nat.iter m (fun x => fst (algo_func x)) (fst (algo_func s)) = fst (algo_func s) ->
  trajectory algo_func s (m + n) = trajectory algo_func s m ++ trajectory algo_func s n.
Proof.
  intros Hm FR. rewrite trajectory_app.
  apply (f_equal (app (trajectory algo_func s m))).
  apply trajectory_first.
  rewrite (trajectory_last algo_func m s s Hm).
  pose proof (Nat.iter_swap m _ (fun x => fst (algo_func x)) s) as SW.
  cbv beta in SW. rewrite SW in FR. exact FR.
Qed.

End Runs_of_steps.

(** *** Primes by trial division *)

Section TrialDivision.

(** None of the [k] numbers from [d] on divides [n]. *)
Fixpoint no_divisor (n : Z) (k : nat) (d : Z) : bool :=
  match k with
  | O => true
  | S k' => negb (n mod d =? 0) && no_divisor n k' (d + 1)
  end.

(** No number from 2 to the square root divides [n]. *)
Definition trial_prime (n : Z) : bool :=
  (1 <? n) && no_divisor n (Z.to_nat (Z.sqrt n - 1)) 2.

Lemma no_divisor_spec (n : Z) (k : nat) (d : Z) :
  no_divisor n k d = true -> forall e, d <= e < d + Z.of_nat k -> n mod e <> 0.
Proof.
  revert d. induction k as [|k IH]; intros d H e He; [lia|].
  cbn [no_divisor] in H. apply andb_prop in H as [H1 H2].
  apply negb_true_iff, Z.eqb_neq in H1.
  destruct (Z.eq_dec e d) as [->|N]; [exact H1|].
  apply (IH (d + 1) H2). lia.
Qed.

Lemma trial_prime_sound (n : Z) : trial_prime n = true -> Z.prime n.
Proof.
  unfold trial_prime. intros H. apply andb_prop in H as [Hn Hk].
  apply Z.ltb_lt in Hn.
  pose proof (no_divisor_spec n _ 2 Hk) as Spec.
  pose proof (Z.sqrt_spec n ltac:(lia)) as [Sq1 Sq2].
  assert (S1 : 1 <= Z.sqrt n).
  { destruct (Z_lt_le_dec (Z.sqrt n) 1) as [L|G]; [|exact G].
    assert (Z.sqrt n = 0) by (pose proof (Z.sqrt_nonneg n); lia).
    rewrite H in Sq2. lia. }
  rewrite Z2Nat.id in Spec by lia.
  remember (Z.sqrt n) as r eqn:Er.
  split; [exact Hn|]. intros d Hd [c Hc].
  destruct (Z_lt_le_dec r d) as [G|L].
  - assert (Hc1 : 1 < c) by nia.
    assert (Hc2 : c <= r) by nia.
    apply (Spec c); [lia|]. rewrite Hc, Z.mul_comm. apply Z.mod_mul. lia.
  - apply (Spec d); [lia|]. rewrite Hc. apply Z.mod_mul. lia.
Qed.

Lemma trial_primes_sound (qs : list Z) :
  forallb trial_prime qs = true -> forall q, In q qs -> Z.prime q.
Proof.
  intros H q Hq. apply trial_prime_sound.
  exact (proj1 (forallb_forall trial_prime qs) H q Hq).
Qed.

(** A divisor of [q * r] with no common factor with the prime [q] divides
    [r]. *)
Lemma peel_prime (q m r : Z) :
  Z.prime q -> (m | q * r) -> (q | m) \/ (m | r).
Proof.
  intros Hq Hm. destruct (Z.BoolSpec_divide q m) as [D|D]; [now left | right].
  apply (Z.coprime_prime_l q m Hq) in D.
  apply (Z.gauss m q r); [exact Hm|]. rewrite Z.gcd_comm. exact D.
Qed.

(** A divisor other than one of a product of primes is a multiple of one of
    them. *)
Lemma factor_of_divisor (qs : list Z) (m : Z) :
  (forall q, In q qs -> Z.prime q) -> 1 < m -> (m | fold_right Z.mul 1 qs) ->
  exists q, In q qs /\ (q | m).
Proof.
  intros Hqs Hm. induction qs as [|q qs IH]; cbn [fold_right]; intros Hd.
  - exfalso. apply Z.divide_1_r_nonneg in Hd; lia.
  - apply (peel_prime q m _ (Hqs q (or_introl eq_refl))) in Hd as [D|Hd].
    + exists q. split; [left; reflexivity | exact D].
    + destruct IH as (q' & Hq' & D'); [|exact Hd|].
      * intros q' Hq'. apply Hqs. now right.
      * exists q'. split; [now right | exact D'].
Qed.

End TrialDivision.

(** *** The numbers of steps after which a state comes back *)

Section ReturnTimes.

Variable R : Z -> Prop.
Hypothesis R_zero : R 0.
Hypothesis R_add : forall x y, 0 <= x -> 0 <= y -> R x -> R y -> R (x + y).
Hypothesis R_cancel : forall x y, 0 <= x -> 0 <= y -> R (x + y) -> R y -> R x.

Lemma return_mul (x y : Z) : 0 <= x -> 0 <= y -> R x -> R (x * y).
Proof.
  intros Hx Hy H1. revert y Hy. apply natlike_ind.
  - rewrite Z.mul_0_r. exact R_zero.
  - intros y Hy IH. rewrite Z.mul_succ_r. apply R_add; [nia | lia | exact IH | exact H1].
Qed.

(** With [d] and [n] their greatest common divisor is a return time. *)
Lemma return_gcd (n d : Z) : 0 < n -> R n -> 0 < d -> R d -> R (Z.gcd d n).
Proof.
  intros Hn Rn Hd Rd.
  destruct (Z.gcd_bezout d n (Z.gcd d n) eq_refl) as (u & v & Huv).
  pose proof (Z.gcd_nonneg d n) as G0.
  assert (Gpos : Z.gcd d n <> 0).
  { intros E. apply Z.gcd_eq_0_l in E. lia. }
  assert (Hg : Z.gcd d n <= n).
  { apply Z.divide_pos_le; [lia | apply Z.gcd_divide_r]. }
  remember (Z.gcd d n) as g eqn:Eg.
  pose proof (Z.div_mod u n ltac:(lia)) as Hdm.
  pose proof (Z.mod_pos_bound u n ltac:(lia)) as Hu'.
  remember (u mod n) as u' eqn:Eu'.
  remember (u / n) as t eqn:Et.
  assert (Ek : u' * d = g + (- v - t * d) * n).
  { rewrite <- Huv. rewrite Hdm. ring. }
  remember (- v - t * d) as k eqn:Ekk.
  destruct (Z.eq_dec g n) as [->|Ng]; [exact Rn|].
  assert (Hud : 0 <= u' * d) by nia.
  assert (Hk : 0 <= k).
  { destruct (Z_lt_le_dec k 0) as [L|G]; [exfalso | exact G].
    assert ((k + 1) * n <= 0) by nia. lia. }
  assert (A : R (u' * d)).
  { rewrite Z.mul_comm. apply return_mul; [lia | lia | exact Rd]. }
  rewrite Ek in A.
  apply (R_cancel g (k * n)); [lia | nia | exact A |].
  rewrite Z.mul_comm. apply return_mul; [lia | exact Hk | exact Rn].
Qed.

(** The least return time is [n] when [n] is one and none of its cofactors
    is. *)
Lemma return_order (n : Z) (qs : list Z) :
  n = fold_right Z.mul 1 qs -> (forall q, In q qs -> Z.prime q) ->
  0 < n -> R n -> (forall q, In q qs -> ~ R (n / q)) ->
  forall d, 1 <= d < n -> ~ R d.
Proof.
  intros En Hqs Hn Rn Hco d Hd Rd.
  pose proof (return_gcd n d Hn Rn ltac:(lia) Rd) as Rg.
  pose proof (Z.gcd_divide_l d n) as Gd.
  pose proof (Z.gcd_divide_r d n) as [m Em].
  pose proof (Z.gcd_nonneg d n) as G0.
  remember (Z.gcd d n) as g eqn:Eg.
  assert (Gpos : 0 < g).
  { destruct (Z.eq_dec g 0) as [E0|]; [|lia]. rewrite E0, Z.mul_0_r in Em. lia. }
  assert (Gle : g <= d) by (apply Z.divide_pos_le; [lia | exact Gd]).
  assert (Hm : 1 < m) by nia.
  destruct (factor_of_divisor qs m Hqs Hm) as (q & Hq & [m' Em']).
  { exists g. rewrite <- En, Z.mul_comm. exact Em. }
  pose proof (proj1 (Hqs q Hq)) as Hq1.
  assert (Eq : n / q = g * m').
  { symmetry. apply Z.div_unique_exact; [lia|]. rewrite Em, Em'. ring. }
  assert (Hm' : 0 <= m') by nia.
  apply (Hco q Hq). rewrite Eq. apply return_mul; [lia | exact Hm' | exact Rg].
Qed.

End ReturnTimes.

(** *** Powers modulo a number, and the test of Lucas *)

Section ModularPowers.

(** The powers of [a] modulo [n], by repeated squaring. *)
Definition power_mod (a n e : Z) : Z := Zpow_mod a e n.

Lemma power_mod_spec (a n e : Z) : 0 < n -> power_mod a n e = a ^ e mod n.
Proof. intros Hn. unfold power_mod. apply Zpow_mod_correct. lia. Qed.

Lemma power_mod_range (a n e : Z) : 0 < n -> 0 <= power_mod a n e < n.
Proof. intros Hn. rewrite power_mod_spec by exact Hn. now apply Z.mod_pos_bound. Qed.

Lemma power_mod_add (a n x y : Z) :
  0 < n -> 0 <= x -> 0 <= y ->
  power_mod a n (x + y) = (power_mod a n x * power_mod a n y) mod n.
Proof.
  intros Hn Hx Hy. rewrite !power_mod_spec by exact Hn. rewrite Z.pow_add_r by assumption.
  apply Z.mul_mod. lia.
Qed.

(** The order of [a] modulo [n] is [m] when the [m]-th power is one and no
    power to a cofactor of [m] is. *)
Lemma power_mod_order (a n m : Z) (qs : list Z) :
  1 < n -> 0 < m -> m = fold_right Z.mul 1 qs -> (forall q, In q qs -> Z.prime q) ->
  power_mod a n m = 1 -> (forall q, In q qs -> power_mod a n (m / q) <> 1) ->
  forall d, 1 <= d < m -> power_mod a n d <> 1.
Proof.
  intros Hn Hm Em Hqs H1 Hco.
  apply (return_order (fun e => power_mod a n e = 1)) with (qs := qs).
  - rewrite power_mod_spec by lia. rewrite Z.pow_0_r. apply Z.mod_small. lia.
  - intros x y Hx Hy Ex Ey. rewrite power_mod_add, Ex, Ey by (assumption || lia).
    apply Z.mod_small. lia.
  - intros x y Hx Hy Exy Ey.
    rewrite power_mod_add, Ey, Z.mul_1_r in Exy by (assumption || lia).
    rewrite Z.mod_small in Exy; [exact Exy | apply power_mod_range; lia].
  - exact Em.
  - exact Hqs.
  - exact Hm.
  - exact H1.
  - exact Hco.
Qed.

(** [k] multiplications by [a] modulo [n] multiply by the [k]-th power. *)
Lemma mul_iter (a n : Z) (k : nat) (s : Z) :
  0 < n -> 0 <= s < n ->
  Nat.iter k (fun x => (x * a) mod n) s = (s * power_mod a n (Z.of_nat k)) mod n.
Proof.
  intros Hn Hs. rewrite power_mod_spec, Z.mul_mod_idemp_r by lia. induction k as [|k IH].
  - change (Nat.iter 0 (fun x => (x * a) mod n) s) with s.
    change (a ^ Z.of_nat 0) with 1. rewrite Z.mul_1_r, Z.mod_small; lia.
  - rewrite Nat.iter_succ, IH. rewrite Z.mul_mod_idemp_l by lia.
    rewrite Nat2Z.inj_succ, Z.pow_succ_r by lia. f_equal. ring.
Qed.

(** The test of Lucas: a number [n] is prime when some [a] has the order
    [n - 1] modulo [n]. *)
Lemma lucas_prime (n a : Z) (qs : list Z) :
  1 < n -> n - 1 = fold_right Z.mul 1 qs -> (forall q, In q qs -> Z.prime q) ->
  power_mod a n (n - 1) = 1 -> (forall q, In q qs -> power_mod a n ((n - 1) / q) <> 1) ->
  Z.prime n.
Proof.
  intros Hn En Hqs H1 Hco.
  pose proof (power_mod_order a n (n - 1) qs Hn ltac:(lia) En Hqs H1 Hco) as Ord.
  set (f := fun x => (x * a) mod n).
  set (P := fun x => 0 <= x < n).
  assert (Pf : forall x, P x -> P (f x)).
  { intros x _. unfold P, f. apply Z.mod_pos_bound. lia. }
  (* the inverse of [a] *)
  assert (Inv : (a * power_mod a n (n - 2)) mod n = 1).
  { assert (E : power_mod a n (1 + (n - 2)) = 1)
      by (replace (1 + (n - 2)) with (n - 1) by lia; exact H1).
    rewrite power_mod_add in E by lia.
    rewrite (power_mod_spec a n 1), Z.pow_1_r, Z.mul_mod_idemp_l in E by lia.
    exact E. }
  assert (Inj : forall x y, P x -> P y -> f x = f y -> x = y).
  { unfold P, f. intros x y Hx Hy E.
    rewrite (Z.mul_comm x), (Z.mul_comm y) in E.
    rewrite <- (Z.add_0_r (a * x)), <- (Z.add_0_r (a * y)) in E.
    pose proof (proj1 (affine_mod_injective a 0 n _ x y ltac:(lia) Inv) E) as E'.
    rewrite !Z.mod_small in E' by lia. exact E'. }
  assert (It : forall k, Nat.iter k f 1 = power_mod a n (Z.of_nat k)).
  { intros k. unfold f. rewrite mul_iter by lia. rewrite Z.mul_1_l.
    apply Z.mod_small. apply power_mod_range. lia. }
  assert (P1 : P 1) by (unfold P; lia).
  assert (ND : List.NoDup (map (fun i => Nat.iter i f 1) (seq 0 (Z.to_nat (n - 1))))).
  { apply (orbit_distinct f P Pf Inj) with (m := Z.to_nat (n - 1)); [exact P1 | | lia].
    intros k Hk. rewrite It. apply Ord. lia. }
  assert (Unit : forall i, (i < Z.to_nat (n - 1))%nat ->
            exists y, (Nat.iter i f 1 * y) mod n = 1).
  { intros i Hi. exists (power_mod a n (n - 1 - Z.of_nat i)).
    rewrite It, <- power_mod_add by lia.
    replace (Z.of_nat i + (n - 1 - Z.of_nat i)) with (n - 1) by lia. exact H1. }
  assert (Inc : incl (map (fun i => Nat.iter i f 1) (seq 0 (Z.to_nat (n - 1))))
                     (map Z.of_nat (seq 1 (Z.to_nat (n - 1))))).
  { intros v Hv. apply in_map_iff in Hv as (i & <- & Hi). apply in_seq in Hi.
    pose proof (iter_keeps f P Pf i 1 P1) as R. unfold P in R.
    destruct (Unit i ltac:(lia)) as (y & Hy).
    assert (Nat.iter i f 1 <> 0).
    { intros E0. rewrite E0, Z.mul_0_l, Z.mod_0_l in Hy by lia. discriminate. }
    apply in_map_iff. exists (Z.to_nat (Nat.iter i f 1)). split; [lia|].
    apply in_seq. lia. }
  assert (Len : (length (map Z.of_nat (seq 1 (Z.to_nat (n - 1)%Z)))
                 <= length (map (fun i => Nat.iter i f 1%Z) (seq 0 (Z.to_nat (n - 1)%Z))))%nat).
  { rewrite !length_map, !length_seq. lia. }
  pose proof (NoDup_length_incl ND Len Inc) as Cov.
  split; [exact Hn|]. intros d Hd [c Hc].
  assert (Hin : In d (map Z.of_nat (seq 1 (Z.to_nat (n - 1))))).
  { apply in_map_iff. exists (Z.to_nat d). split; [lia|]. apply in_seq. lia. }
  apply Cov in Hin. apply in_map_iff in Hin as (i & Ei & Hi). apply in_seq in Hi.
  destruct (Unit i ltac:(lia)) as (y & Hy). rewrite Ei in Hy.
  pose proof (Z.div_mod (d * y) n ltac:(lia)) as Hdm. rewrite Hy in Hdm.
  assert (D1 : (d | 1)).
  { exists (y - c * (d * y / n)). rewrite Hc in Hdm at 1. lia. }
  apply Z.divide_1_r_nonneg in D1; lia.
Qed.

End ModularPowers.

(** *** LCG *)

Section LcgPeriod.

Import Registry Engine.

(** The state after one call of [lcg]. *)
Definition lcg_next (s : Z) : Z := fst (lcg s).

(** None of the [n] states after [x] is [x0]. *)
Fixpoint avoids (x0 : Z) (n : nat) (x : Z) : bool :=
  match n with
  | O => true
  | S n' => let x' := lcg_next x in negb (x' =? x0) && avoids x0 n' x'
  end.

Lemma avoids_iter (x0 : Z) (n : nat) (x : Z) :
  avoids x0 n x = true ->
  forall k, (1 <= k <= n)%nat -> Nat.iter k lcg_next x <> x0.
Proof.
  revert x. induction n as [|n IH]; intros x H k Hk; [lia|].
  cbn [avoids] in H. apply andb_prop in H as [H1 H2].
  apply negb_true_iff, Z.eqb_neq in H1.
  destruct k as [|k]; [lia|]. rewrite Nat.iter_succ_r.
  destruct k as [|k]; [exact H1|].
  apply (IH _ H2). lia.
Qed.

(** From zero, LCG does not come back to zero within 233279 steps. *)
Lemma lcg_zero_orbit : avoids 0 (Z.to_nat 233279) 0 = true.
Proof. vm_cast_no_check (eq_refl true). Qed.

Definition lcg_state (s : Z) : Prop := 0 <= s < 233280.

Lemma lcg_next_range (s : Z) : lcg_state (lcg_next s).
Proof. exact (lcg_bounds s). Qed.

Lemma lcg_next_injective (a b : Z) :
  lcg_state a -> lcg_state b -> lcg_next a = lcg_next b -> a = b.
Proof.
  unfold lcg_state. intros Ha Hb E. unfold lcg_next, lcg in E. cbn [fst] in E.
  rewrite (Z.mul_comm a), (Z.mul_comm b) in E.
  pose proof (proj1 (affine_mod_injective 9301 49297 233280 123901 a b
                      ltac:(lia) ltac:(reflexivity)) E) as E'.
  rewrite !Z.mod_small in E' by lia. exact E'.
Qed.

Lemma lcg_iter_range (k : nat) (s : Z) : lcg_state s -> lcg_state (Nat.iter k lcg_next s).
Proof. apply iter_keeps. intros x _. apply lcg_next_range. Qed.

Lemma lcg_iter_injective (k : nat) (a b : Z) :
  lcg_state a -> lcg_state b -> Nat.iter k lcg_next a = Nat.iter k lcg_next b -> a = b.
Proof.
  apply (iter_cancel lcg_next lcg_state).
  - intros x _. apply lcg_next_range.
  - exact lcg_next_injective.
Qed.

Lemma lcg_state_zero : lcg_state 0.
Proof. unfold lcg_state. lia. Qed.

(** The orbit of zero holds every state. *)
Lemma zero_orbit_covers (s : Z) :
  lcg_state s -> exists j, (j < Z.to_nat 233280)%nat /\ s = Nat.iter j lcg_next 0.
Proof.
  intros Hs.
  set (orbit := map (fun j => Nat.iter j lcg_next 0) (seq 0 (Z.to_nat 233280))).
  set (all := map Z.of_nat (seq 0 (Z.to_nat 233280))).
  assert (ND : List.NoDup orbit).
  { apply (orbit_distinct lcg_next lcg_state) with (m := Z.to_nat 233280).
    - intros x _. apply lcg_next_range.
    - exact lcg_next_injective.
    - exact lcg_state_zero.
    - intros k Hk. apply (avoids_iter 0 _ 0 lcg_zero_orbit). lia.
    - lia. }
  assert (Inc : incl orbit all).
  { intros v Hv. unfold orbit in Hv. apply in_map_iff in Hv as (j & <- & Hj).
    pose proof (lcg_iter_range j 0 lcg_state_zero) as R. unfold lcg_state in R.
    unfold all. apply in_map_iff. exists (Z.to_nat (Nat.iter j lcg_next 0)).
    split; [lia|]. apply in_seq. lia. }
  assert (Len : (length all <= length orbit)%nat).
  { unfold all, orbit. rewrite !length_map. lia. }
  pose proof (NoDup_length_incl ND Len Inc) as Cov.
  assert (Hin : In s all).
  { unfold all. unfold lcg_state in Hs. apply in_map_iff. exists (Z.to_nat s).
    split; [lia|]. apply in_seq. lia. }
  apply Cov in Hin. unfold orbit in Hin. apply in_map_iff in Hin as (j & E & Hj).
  apply in_seq in Hj. exists j. split; [lia | now symmetry].
Qed.

(** No state comes back to itself in fewer than 233280 steps. *)
Lemma no_short_return (s : Z) (k : nat) :
  lcg_state s -> (1 <= k < Z.to_nat 233280)%nat -> Nat.iter k lcg_next s <> s.
Proof.
  intros Hs Hk E. destruct (zero_orbit_covers s Hs) as (j & Hj & ->).
  rewrite <- Nat.iter_add, Nat.add_comm, Nat.iter_add in E.
  apply lcg_iter_injective in E; [|apply lcg_iter_range|]; try exact lcg_state_zero.
  revert E. apply (avoids_iter 0 _ 0 lcg_zero_orbit). lia.
Qed.

(** Every state comes back to itself after exactly 233280 steps. *)
Lemma full_return (s : Z) :
  lcg_state s -> Nat.iter (Z.to_nat 233280) lcg_next s = s.
Proof.
  intros Hs.
  assert (Z0 : Nat.iter (Z.to_nat 233280) lcg_next 0 = 0).
  { destruct (zero_orbit_covers (Nat.iter (Z.to_nat 233280) lcg_next 0)
                (lcg_iter_range _ 0 lcg_state_zero)) as (j & Hj & E).
    destruct j as [|j]; [exact E | exfalso].
    assert (Em : Z.to_nat 233280 = (S j + (Z.to_nat 233280 - S j))%nat) by lia.
    assert (E' : Nat.iter (S j + (Z.to_nat 233280 - S j)) lcg_next 0
                 = Nat.iter (S j) lcg_next 0) by (rewrite <- Em; exact E).
    clear E Em. rename E' into E. rewrite Nat.iter_add in E.
    apply lcg_iter_injective in E; [|apply lcg_iter_range|]; try exact lcg_state_zero.
    revert E. apply (avoids_iter 0 _ 0 lcg_zero_orbit). lia. }
  destruct (zero_orbit_covers s Hs) as (j & Hj & ->).
  rewrite <- Nat.iter_add, Nat.add_comm, Nat.iter_add, Z0. reflexivity.
Qed.

(** LCG has the full period 233280, whatever the seed: the first 233280
    values of a run are pairwise different, so are the values of the cells
    of a grid, and from there on the run repeats itself from its first
    value. *)
Theorem lcg_full_period (seed : Z) :
  (forall n, (n <= Z.to_nat 233280)%nat -> List.NoDup (trajectory lcg seed n)) /\
  List.NoDup (trajectory lcg seed (Z.to_nat (App.GRID_W * App.GRID_H))) /\
  (forall n, trajectory lcg seed (Z.to_nat 233280 + n)
             = trajectory lcg seed (Z.to_nat 233280) ++ trajectory lcg seed n).
Proof.
  assert (ND : forall n, (n <= Z.to_nat 233280)%nat -> List.NoDup (trajectory lcg seed n)).
  { intros n Hn. rewrite trajectory_iter.
    apply (orbit_distinct lcg_next lcg_state) with (m := Z.to_nat 233280).
    - intros x _. apply lcg_next_range.
    - exact lcg_next_injective.
    - apply lcg_next_range.
    - intros k Hk. apply no_short_return; [apply lcg_next_range | exact Hk].
    - exact Hn. }
  split; [exact ND|]. split.
  - apply ND. apply Z2Nat.inj_le; unfold App.GRID_W, App.GRID_H; lia.
  - intros n. apply trajectory_repeats; [lia|].
    apply (full_return (lcg_next seed)). apply lcg_next_range.
Qed.

End LcgPeriod.

(** *** Park-Miller *)

Section ParkMillerPeriod.

Import Registry Engine.

(** The state after one call of [park_miller]. *)
Definition park_miller_next (s : Z) : Z := fst (park_miller s).

(** The modulus of Park-Miller is a prime number. *)
Lemma modulus_prime : Z.prime 2147483647.
Proof. apply trial_prime_sound. vm_cast_no_check (eq_refl true). Qed.

Definition park_miller_state (s : Z) : Prop := 0 < s < 2147483647.

Lemma park_miller_next_injective (a b : Z) :
  0 <= a < 2147483647 -> 0 <= b < 2147483647 ->
  park_miller_next a = park_miller_next b -> a = b.
Proof.
  intros Ha Hb E. unfold park_miller_next, park_miller in E. cbn [fst] in E.
  rewrite (Z.mul_comm a), (Z.mul_comm b) in E.
  rewrite <- (Z.add_0_r (16807 * a)), <- (Z.add_0_r (16807 * b)) in E.
  pose proof (proj1 (affine_mod_injective 16807 0 2147483647 1407677000 a b
                      ltac:(lia) ltac:(reflexivity)) E) as E'.
  rewrite !Z.mod_small in E' by lia. exact E'.
Qed.

Lemma park_miller_next_state (s : Z) :
  s mod 2147483647 <> 0 -> park_miller_state (park_miller_next s).
Proof.
  intros Hs. unfold park_miller_state.
  pose proof (park_miller_bounds s) as B. change (snd (park_miller s)) with 2147483647 in B.
  fold (park_miller_next s) in B.
  assert (park_miller_next s <> 0); [|lia].
  intros E. apply Hs.
  assert (E' : park_miller_next (s mod 2147483647) = park_miller_next 0).
  { transitivity (park_miller_next s); [|rewrite E; reflexivity].
    unfold park_miller_next, park_miller. cbn [fst].
    rewrite Z.mul_mod_idemp_l by lia. reflexivity. }
  apply park_miller_next_injective in E'; [exact E' | apply Z.mod_pos_bound; lia | lia].
Qed.

Lemma park_miller_step_state (s : Z) :
  park_miller_state s -> park_miller_state (park_miller_next s).
Proof.
  unfold park_miller_state. intros Hs. apply park_miller_next_state.
  rewrite Z.mod_small by lia. lia.
Qed.

(** *** The order of 16807 modulo the prime *)

(** The powers of 16807 modulo 2147483647. *)
Definition power (e : Z) : Z := power_mod 16807 2147483647 e.

Lemma power_range (e : Z) : 0 <= power e < 2147483647.
Proof. apply power_mod_range. lia. Qed.

(** [k] steps multiply the state by the [k]-th power of 16807. *)
Lemma park_miller_iter (k : nat) (s : Z) :
  0 <= s < 2147483647 ->
  Nat.iter k park_miller_next s = (s * power (Z.of_nat k)) mod 2147483647.
Proof. intros Hs. apply (mul_iter 16807 2147483647 k s); lia. Qed.

Lemma power_full : power 2147483646 = 1.
Proof. vm_cast_no_check (eq_refl 1). Qed.

(** The prime factors of 2147483646, and their cofactors. *)
Definition park_miller_factors : list Z := [2; 3; 3; 7; 11; 31; 151; 331].

Lemma park_miller_factors_checked :
  forallb trial_prime park_miller_factors = true /\
  forallb (fun q => negb (power (2147483646 / q) =? 1)) park_miller_factors = true.
Proof. split; vm_cast_no_check (eq_refl true). Qed.

(** 16807 is a primitive root: no power below the 2147483646-th is one. *)
Lemma power_order (d : Z) : 1 <= d < 2147483646 -> power d <> 1.
Proof.
  destruct park_miller_factors_checked as [Hp Hc].
  apply (power_mod_order 16807 2147483647 2147483646 park_miller_factors).
  - lia.
  - lia.
  - reflexivity.
  - apply trial_primes_sound. exact Hp.
  - exact power_full.
  - intros q Hq. apply Z.eqb_neq, negb_true_iff.
    exact (proj1 (forallb_forall _ _) Hc q Hq).
Qed.

(** No state comes back to itself in fewer than 2147483646 steps. *)
Lemma park_miller_no_short_return (v : Z) (k : nat) :
  park_miller_state v -> (1 <= k < Z.to_nat 2147483646)%nat ->
  Nat.iter k park_miller_next v <> v.
Proof.
  unfold park_miller_state. intros Hv Hk E.
  rewrite park_miller_iter in E by lia.
  apply (power_order (Z.of_nat k)); [lia|].
  pose proof (power_range (Z.of_nat k)) as R.
  remember (power (Z.of_nat k)) as w eqn:Ew.
  assert (D : (2147483647 | v * (w - 1))).
  { apply Z.mod_divide; [lia|].
    rewrite Z.mul_sub_distr_l, Z.mul_1_r.
    rewrite Zminus_mod, E, (Z.mod_small v) by lia.
    rewrite Z.sub_diag. reflexivity. }
  apply (Z.divide_prime_mul _ _ _ modulus_prime) in D as [D|D].
  - apply Z.divide_pos_le in D; lia.
  - destruct D as [t Ht]. nia.
Qed.

Lemma park_miller_full_return (v : Z) :
  park_miller_state v -> Nat.iter (Z.to_nat 2147483646) park_miller_next v = v.
Proof.
  unfold park_miller_state. intros Hv. rewrite park_miller_iter by lia.
  rewrite Z2Nat.id by lia.
  rewrite power_full, Z.mul_1_r. apply Z.mod_small. lia.
Qed.

(** Park-Miller has the full period 2147483646 for every seed that is not
    a multiple of the modulus: the first 2147483646 values of a run are
    pairwise different, so are the values of the cells of a grid, and
    from there on the run repeats itself from its first value. *)
Theorem park_miller_full_period (seed : Z) :
  seed mod 2147483647 <> 0 ->
  (forall n, (n <= Z.to_nat 2147483646)%nat ->
             List.NoDup (trajectory park_miller seed n)) /\
  List.NoDup (trajectory park_miller seed (Z.to_nat (App.GRID_W * App.GRID_H))) /\
  (forall n, trajectory park_miller seed (Z.to_nat 2147483646 + n)
             = trajectory park_miller seed (Z.to_nat 2147483646)
               ++ trajectory park_miller seed n).
Proof.
  intros Hseed.
  pose proof (park_miller_next_state seed Hseed) as Hv.
  assert (ND : forall n, (n <= Z.to_nat 2147483646)%nat ->
                         List.NoDup (trajectory park_miller seed n)).
  { intros n Hn. rewrite trajectory_iter.
    apply (orbit_distinct park_miller_next park_miller_state)
      with (m := Z.to_nat 2147483646).
    - exact park_miller_step_state.
    - unfold park_miller_state. intros x y Hx Hy.
      apply park_miller_next_injective; lia.
    - exact Hv.
    - intros k Hk. apply park_miller_no_short_return; [exact Hv | exact Hk].
    - exact Hn. }
  split; [exact ND|]. split.
  - apply ND. apply Z2Nat.inj_le; unfold App.GRID_W, App.GRID_H; lia.
  - intros n. apply trajectory_repeats; [lia|].
    apply (park_miller_full_return (park_miller_next seed)). exact Hv.
Qed.

Lemma park_miller_full_period_witness :
  (forall n, (n <= Z.to_nat 2147483646)%nat ->
             List.NoDup (trajectory park_miller 12345 n)) /\
  List.NoDup (trajectory park_miller 12345 (Z.to_nat (App.GRID_W * App.GRID_H))) /\
  (forall n, trajectory park_miller 12345 (Z.to_nat 2147483646 + n)
             = trajectory park_miller 12345 (Z.to_nat 2147483646)
               ++ trajectory park_miller 12345 n).
Proof. apply (park_miller_full_period 12345). vm_compute. discriminate. Defined.

End ParkMillerPeriod.

(** *** Xorshift *)

(** Every operation of [xorshift] is linear for the exclusive or, so the
    step is a matrix of 32 columns over the two-element field, the image of
    each bit; its powers are computed by repeated squaring. *)

Section XorshiftPeriod.

Import Registry Engine.

(** The state after one call of [xorshift]. *)
Definition xorshift_next (s : Z) : Z := fst (xorshift s).

Definition linear (F : Z -> Z) : Prop :=
  forall a b, F (Z.lxor a b) = Z.lxor (F a) (F b).

(** The image of [x] under the map with the columns [cols], the first one
    for the lowest bit. *)
Fixpoint apply_cols (cols : list Z) (x : Z) : Z :=
  match cols with
  | [] => 0
  | c :: cs => Z.lxor (if Z.odd x then c else 0) (apply_cols cs (Z.div2 x))
  end.

(** The first [n] columns of a map. *)
Definition columns (F : Z -> Z) (n : nat) : list Z :=
  map (fun i => F (2 ^ Z.of_nat i)) (seq 0 n).

Definition compose (A B : list Z) : list Z := map (apply_cols A) B.

Fixpoint lxor_cols (A B : list Z) : list Z :=
  match A, B with
  | a :: A', b :: B' => Z.lxor a b :: lxor_cols A' B'
  | _, _ => []
  end.

Fixpoint matrix_power (M : list Z) (e : positive) : list Z :=
  match e with
  | xH => M
  | xO e' => let m := matrix_power M e' in compose m m
  | xI e' => let m := matrix_power M e' in compose M (compose m m)
  end.

Definition xorshift_matrix : list Z := columns xorshift_next 32.

Definition identity_matrix : list Z := columns (fun x => x) 32.

(** Elimination on the rows [column + 2^32 * unit]: once the low halves
    are the units, the high halves are the columns of the inverse.  The
    result is checked by a product wherever it is used. *)
Definition reduce (j r x : Z) : Z := if Z.testbit x j then Z.lxor x r else x.

Fixpoint pick (j : Z) (rows : list Z) : option (Z * list Z) :=
  match rows with
  | [] => None
  | r :: rs =>
      if Z.testbit r j then Some (r, rs)
      else match pick j rs with
           | Some (p, rest) => Some (p, r :: rest)
           | None => None
           end
  end.

Fixpoint eliminate (js : list Z) (pivots rows : list Z) : list Z :=
  match js with
  | [] => pivots
  | j :: js' =>
      match pick j rows with
      | None => []
      | Some (p, rest) =>
          eliminate js' (map (reduce j p) pivots ++ [p]) (map (reduce j p) rest)
      end
  end.

Definition inverse (B : list Z) : list Z :=
  let rows := map (fun '(b, e) => Z.lor b (Z.shiftl e 32)) (combine B identity_matrix) in
  map (fun r => Z.shiftr r 32) (eliminate (map Z.of_nat (seq 0 32)) [] rows).

Fixpoint eqb_cols (A B : list Z) : bool :=
  match A, B with
  | [], [] => true
  | a :: A', b :: B' => (a =? b) && eqb_cols A' B'
  | _, _ => false
  end.

(** The matrix of [x -> step^e x xor x] has an inverse. *)
Definition no_fixed_vector (e : positive) : bool :=
  let B := lxor_cols (matrix_power xorshift_matrix e) identity_matrix in
  eqb_cols (compose (inverse B) B) identity_matrix.

Lemma eqb_cols_eq (A B : list Z) : eqb_cols A B = true -> A = B.
Proof.
  revert B. induction A as [|a A IH]; intros [|b B] H; try discriminate; [reflexivity|].
  cbn [eqb_cols] in H. apply andb_prop in H as [H1 H2].
  apply Z.eqb_eq in H1. subst. f_equal. now apply IH.
Qed.

(** **** Linear maps and their columns *)

Lemma lxor_pairs (a b c d : Z) :
  Z.lxor (Z.lxor a b) (Z.lxor c d) = Z.lxor (Z.lxor a c) (Z.lxor b d).
Proof.
  apply Z.bits_inj'. intros n _. rewrite !Z.lxor_spec.
  destruct (Z.testbit a n), (Z.testbit b n), (Z.testbit c n), (Z.testbit d n); reflexivity.
Qed.

Lemma linear_zero (F : Z -> Z) : linear F -> F 0 = 0.
Proof.
  intros L. pose proof (L 0 0) as H. rewrite Z.lxor_0_l in H.
  rewrite H at 1. apply Z.lxor_nilpotent.
Qed.

Lemma xorshift_next_linear : linear xorshift_next.
Proof.
  intros a b. unfold xorshift_next. rewrite !xorshift_steps. cbn [fst].
  assert (L : forall n x y,
             Z.lxor (Z.lxor x y) (mask32 (Z.shiftl (Z.lxor x y) n))
             = Z.lxor (Z.lxor x (mask32 (Z.shiftl x n))) (Z.lxor y (mask32 (Z.shiftl y n)))).
  { intros n x y. rewrite Z.shiftl_lxor, mask32_lxor. apply lxor_pairs. }
  assert (R : forall n x y,
             Z.lxor (Z.lxor x y) (Z.shiftr (Z.lxor x y) n)
             = Z.lxor (Z.lxor x (Z.shiftr x n)) (Z.lxor y (Z.shiftr y n))).
  { intros n x y. rewrite Z.shiftr_lxor. apply lxor_pairs. }
  rewrite (L 13 a b), R, L. apply mask32_lxor.
Qed.

Lemma split_low_bit (x : Z) :
  x = Z.lxor (if Z.odd x then 1 else 0) (Z.shiftl (Z.div2 x) 1).
Proof.
  apply Z.bits_inj'. intros n Hn. rewrite Z.lxor_spec.
  destruct (Z.eq_dec n 0) as [->|N].
  - rewrite Z.bit0_odd, Z.shiftl_spec_low by lia. destruct (Z.odd x); reflexivity.
  - rewrite Z.shiftl_spec by lia. rewrite Z.div2_spec, Z.shiftr_spec by lia.
    replace (n - 1 + 1) with n by lia.
    assert (E : Z.testbit (if Z.odd x then 1 else 0) n = false).
    { destruct (Z.odd x); [|apply Z.bits_0].
      destruct n as [|p|p]; [lia | reflexivity | lia]. }
    rewrite E. reflexivity.
Qed.

Lemma odd_lxor (a b : Z) : Z.odd (Z.lxor a b) = xorb (Z.odd a) (Z.odd b).
Proof. rewrite <- !Z.bit0_odd. apply Z.lxor_spec. Qed.

Lemma div2_lxor (a b : Z) : Z.div2 (Z.lxor a b) = Z.lxor (Z.div2 a) (Z.div2 b).
Proof. rewrite !Z.div2_spec. apply Z.shiftr_lxor. Qed.

Lemma apply_cols_linear (cols : list Z) : linear (apply_cols cols).
Proof.
  induction cols as [|c cs IH]; intros a b; cbn [apply_cols]; [reflexivity|].
  rewrite odd_lxor, div2_lxor, IH, <- lxor_pairs. f_equal.
  destruct (Z.odd a), (Z.odd b); cbn [xorb];
    rewrite ?Z.lxor_nilpotent, ?Z.lxor_0_l, ?Z.lxor_0_r; reflexivity.
Qed.

(** A linear map is given on the numbers of [n] bits by its first [n]
    columns. *)
Lemma represent (n : nat) (F : Z -> Z) (x : Z) :
  linear F -> 0 <= x < 2 ^ Z.of_nat n -> F x = apply_cols (columns F n) x.
Proof.
  revert F x. induction n as [|n IH]; intros F x L Hx.
  - change (2 ^ Z.of_nat 0) with 1 in Hx. assert (x = 0) by lia. subst x.
    now apply linear_zero.
  - unfold columns. cbn [seq map apply_cols]. rewrite <- seq_shift, map_map.
    set (G := fun y => F (Z.shiftl y 1)).
    assert (LG : linear G).
    { intros a b. unfold G. rewrite Z.shiftl_lxor. apply L. }
    assert (EG : map (fun i => F (2 ^ Z.of_nat (S i))) (seq 0 n) = columns G n).
    { apply map_ext. intros i. unfold G. rewrite Z.shiftl_mul_pow2 by lia. f_equal.
      rewrite Nat2Z.inj_succ, Z.pow_succ_r by lia. ring. }
    rewrite EG, <- (IH G (Z.div2 x) LG).
    + unfold G. rewrite (split_low_bit x) at 1. rewrite L. f_equal.
      destruct (Z.odd x); [reflexivity | now apply linear_zero].
    + rewrite Z.div2_div. rewrite Nat2Z.inj_succ, Z.pow_succ_r in Hx by lia.
      split; [apply Z.div_pos; lia | apply Z.div_lt_upper_bound; lia].
Qed.

Lemma apply_compose (C B : list Z) (x : Z) :
  apply_cols (compose C B) x = apply_cols C (apply_cols B x).
Proof.
  unfold compose. revert x. induction B as [|b B IH]; intros x; cbn [map apply_cols].
  - symmetry. apply linear_zero, apply_cols_linear.
  - rewrite apply_cols_linear, IH. f_equal.
    destruct (Z.odd x); [reflexivity|]. symmetry. apply linear_zero, apply_cols_linear.
Qed.

Lemma columns_lxor (F G : Z -> Z) (n : nat) :
  lxor_cols (columns F n) (columns G n) = columns (fun x => Z.lxor (F x) (G x)) n.
Proof.
  unfold columns. generalize (seq 0 n). intros l.
  induction l as [|i l IH]; cbn [map lxor_cols]; [reflexivity | now rewrite IH].
Qed.

(** **** The powers of the step *)

Definition word (x : Z) : Prop := 0 <= x < 2 ^ 32.

Lemma iter_linear (k : nat) : linear (Nat.iter k xorshift_next).
Proof.
  induction k as [|k IH]; intros a b; [reflexivity|].
  rewrite !Nat.iter_succ, IH. apply xorshift_next_linear.
Qed.

Lemma xorshift_next_word (x : Z) : word (xorshift_next x).
Proof.
  unfold word, xorshift_next. destruct (xorshift_range x) as [R _].
  change 0xFFFFFFFF with (2 ^ 32 - 1) in R. lia.
Qed.

Lemma iter_word (k : nat) (x : Z) : word x -> word (Nat.iter k xorshift_next x).
Proof.
  intros Hx. destruct k as [|k]; [exact Hx|]. rewrite Nat.iter_succ. apply xorshift_next_word.
Qed.

Lemma unit_word (i : nat) : (i < 32)%nat -> word (2 ^ Z.of_nat i).
Proof.
  intros Hi. unfold word. split; [apply Z.pow_nonneg; lia|].
  apply Z.pow_lt_mono_r; lia.
Qed.

Lemma represent_word (F : Z -> Z) (x : Z) :
  linear F -> word x -> F x = apply_cols (columns F 32) x.
Proof. intros L Hx. apply represent; [exact L | exact Hx]. Qed.

Lemma columns_iter_add (j k : nat) :
  columns (Nat.iter (j + k) xorshift_next) 32
  = compose (columns (Nat.iter j xorshift_next) 32) (columns (Nat.iter k xorshift_next) 32).
Proof.
  unfold compose. unfold columns at 1 3. rewrite map_map.
  apply map_ext_in. intros i Hi. apply in_seq in Hi.
  rewrite Nat.iter_add.
  apply represent_word; [apply iter_linear|].
  apply iter_word, unit_word. lia.
Qed.

Lemma matrix_power_spec (e : positive) :
  matrix_power xorshift_matrix e = columns (Nat.iter (Pos.to_nat e) xorshift_next) 32.
Proof.
  assert (One : xorshift_matrix = columns (Nat.iter 1 xorshift_next) 32) by reflexivity.
  induction e as [e IH|e IH|]; cbn [matrix_power].
  - rewrite IH, One, <- !columns_iter_add. f_equal. f_equal. lia.
  - rewrite IH, <- columns_iter_add. f_equal. f_equal. lia.
  - exact One.
Qed.

(** After [2^32 - 1] steps every bit is back in its place. *)
Lemma xorshift_period_matrix :
  matrix_power xorshift_matrix 4294967295 = identity_matrix.
Proof. vm_cast_no_check (eq_refl identity_matrix). Qed.

Lemma xorshift_full_return (x : Z) :
  word x -> Nat.iter (Z.to_nat 4294967295) xorshift_next x = x.
Proof.
  intros Hx. rewrite Z2Nat.inj_pos.
  rewrite (represent_word _ x (iter_linear _) Hx).
  rewrite <- matrix_power_spec, xorshift_period_matrix.
  symmetry. apply (represent_word (fun y => y)); [intros a b; reflexivity | exact Hx].
Qed.

(** The prime factors of [2^32 - 1]. *)
Definition xorshift_factors : list Z := [3; 5; 17; 257; 65537].

Lemma xorshift_factors_checked :
  forallb trial_prime xorshift_factors = true /\
  forallb (fun q => no_fixed_vector (Z.to_pos (4294967295 / q))) xorshift_factors = true.
Proof. split; vm_cast_no_check (eq_refl true). Qed.

(** When the check succeeds, only zero comes back after [e] steps. *)
Lemma no_fixed_vector_sound (e : positive) (x : Z) :
  no_fixed_vector e = true -> word x ->
  Nat.iter (Pos.to_nat e) xorshift_next x = x -> x = 0.
Proof.
  unfold no_fixed_vector. cbv zeta. intros H Hx E. apply eqb_cols_eq in H.
  set (F := Nat.iter (Pos.to_nat e) xorshift_next) in *.
  set (D := fun y => Z.lxor (F y) y).
  assert (LD : linear D).
  { intros a b. unfold D, F. rewrite (iter_linear _ a b). apply lxor_pairs. }
  assert (ED : lxor_cols (matrix_power xorshift_matrix e) identity_matrix = columns D 32).
  { rewrite matrix_power_spec. apply columns_lxor. }
  rewrite ED in H.
  assert (D0 : D x = 0) by (unfold D; rewrite E; apply Z.lxor_nilpotent).
  rewrite (represent_word (fun y => y) x) by (try (intros a b; reflexivity); exact Hx).
  fold identity_matrix. rewrite <- H, apply_compose.
  rewrite <- (represent_word D x LD Hx), D0.
  apply linear_zero, apply_cols_linear.
Qed.

(** A state of 32 bits other than zero does not come back to itself in
    fewer than [2^32 - 1] steps. *)
Lemma xorshift_no_short_return (v : Z) (k : nat) :
  word v -> v <> 0 -> (1 <= k < Z.to_nat 4294967295)%nat ->
  Nat.iter k xorshift_next v <> v.
Proof.
  intros Hv Hnz Hk.
  destruct xorshift_factors_checked as [Hp Hc].
  pose proof (return_order (fun d => Nat.iter (Z.to_nat d) xorshift_next v = v)) as Ord.
  cbv beta in Ord.
  rewrite <- (Nat2Z.id k).
  apply (Ord eq_refl) with (n := 4294967295) (qs := xorshift_factors).
  - intros x y Hx Hy Ex Ey. rewrite Z2Nat.inj_add, Nat.iter_add by assumption.
    rewrite Ey. exact Ex.
  - intros x y Hx Hy Exy Ey. rewrite Z2Nat.inj_add, Nat.iter_add, Ey in Exy by assumption.
    exact Exy.
  - reflexivity.
  - apply trial_primes_sound. exact Hp.
  - lia.
  - apply xorshift_full_return. exact Hv.
  - intros q Hq E. apply Hnz.
    pose proof (proj1 (forallb_forall _ _) Hc q Hq) as Hq'. cbv beta in Hq'.
    apply (no_fixed_vector_sound _ v Hq' Hv).
    rewrite <- E at 2. f_equal.
    assert (Hpos : 0 < 4294967295 / q).
    { unfold xorshift_factors in Hq. cbn [In] in Hq.
      destruct Hq as [<-|[<-|[<-|[<-|[<-|[]]]]]]; reflexivity. }
    destruct (4294967295 / q) as [|p|p]; [lia | reflexivity | lia].
  - lia.
Qed.

Lemma xorshift_next_injective (a b : Z) :
  word a -> word b -> xorshift_next a = xorshift_next b -> a = b.
Proof.
  intros Ha Hb E.
  rewrite <- (xorshift_full_return a Ha), <- (xorshift_full_return b Hb).
  replace (Z.to_nat 4294967295) with (S (Z.to_nat 4294967294)) by lia.
  rewrite !Nat.iter_succ_r, E. reflexivity.
Qed.

Definition xorshift_state (x : Z) : Prop := word x /\ x <> 0.

Lemma xorshift_step_state (x : Z) : xorshift_state x -> xorshift_state (xorshift_next x).
Proof.
  intros [Hx Hnz]. split; [apply xorshift_next_word|].
  intros E. apply Hnz. apply xorshift_next_injective; [exact Hx | unfold word; lia |].
  rewrite E. reflexivity.
Qed.

(** Xorshift has the full period [2^32 - 1] from every seed of 32 bits
    other than zero, and from every seed whose first value is not zero:
    the first [2^32 - 1] values are pairwise different, so are the values
    of the cells of a grid, and from there on the run repeats itself from
    its first value. *)
Theorem xorshift_full_period (seed : Z) :
  0 < seed < 2 ^ 32 \/ fst (xorshift seed) <> 0 ->
  (forall n, (n <= Z.to_nat 4294967295)%nat ->
             List.NoDup (trajectory xorshift seed n)) /\
  List.NoDup (trajectory xorshift seed (Z.to_nat (App.GRID_W * App.GRID_H))) /\
  (forall n, trajectory xorshift seed (Z.to_nat 4294967295 + n)
             = trajectory xorshift seed (Z.to_nat 4294967295)
               ++ trajectory xorshift seed n).
Proof.
  intros Hseed.
  assert (Hv : xorshift_state (xorshift_next seed)).
  { destruct Hseed as [Hseed|Hseed].
    - apply xorshift_step_state. split; [unfold word|]; lia.
    - split; [apply xorshift_next_word | exact Hseed]. }
  assert (ND : forall n, (n <= Z.to_nat 4294967295)%nat ->
                         List.NoDup (trajectory xorshift seed n)).
  { intros n Hn. rewrite trajectory_iter.
    apply (orbit_distinct xorshift_next xorshift_state) with (m := Z.to_nat 4294967295).
    - exact xorshift_step_state.
    - intros x y [Hx _] [Hy _]. now apply xorshift_next_injective.
    - exact Hv.
    - intros k Hk. destruct Hv as [Hw Hnz]. now apply xorshift_no_short_return.
    - exact Hn. }
  split; [exact ND|]. split.
  - apply ND. apply Z2Nat.inj_le; unfold App.GRID_W, App.GRID_H; lia.
  - intros n. apply trajectory_repeats; [lia|].
    apply (xorshift_full_return (xorshift_next seed)). apply xorshift_next_word.
Qed.

Lemma xorshift_full_period_witness :
  (forall n, (n <= Z.to_nat 4294967295)%nat ->
             List.NoDup (trajectory xorshift 12345 n)) /\
  List.NoDup (trajectory xorshift 12345 (Z.to_nat (App.GRID_W * App.GRID_H))) /\
  (forall n, trajectory xorshift 12345 (Z.to_nat 4294967295 + n)
             = trajectory xorshift 12345 (Z.to_nat 4294967295)
               ++ trajectory xorshift 12345 n).
Proof. apply (xorshift_full_period 12345). left. lia. Defined.

End XorshiftPeriod.

(** *** Multiply-with-carry *)

(** A step of the generator is a division by [2^32] modulo
    [a * 2^32 - 1], a prime number whose half is prime too. *)

Section MultiplyWithCarry.

Import Registry Engine.

(** The state after one call of [multiply_with_carry]. *)
Definition mwc_next (s : Z) : Z := fst (multiply_with_carry s).

(** The modulus [a * 2^32 - 1] that belongs to the multiplier [a], and the
    period. *)
Definition mwc_modulus : Z := 4294957665 * 2 ^ 32 - 1.

Definition mwc_period : Z := 9223351354439761919.

Lemma mwc_value (s : Z) :
  0 <= s < 2 ^ 64 ->
  mwc_next s = 4294957665 * (s mod 2 ^ 32) + s / 2 ^ 32 /\
  0 <= s mod 2 ^ 32 < 2 ^ 32 /\ 0 <= s / 2 ^ 32 < 2 ^ 32 /\
  s = 2 ^ 32 * (s / 2 ^ 32) + s mod 2 ^ 32.
Proof.
  intros Hs.
  assert (Hc : 0 <= s / 2 ^ 32 < 2 ^ 32).
  { split; [apply Z.div_pos; lia|]. apply Z.div_lt_upper_bound; [lia|].
    change (2 ^ 32 * 2 ^ 32) with (2 ^ 64). lia. }
  split; [|split; [apply Z.mod_pos_bound; lia | split; [exact Hc | apply Z.div_mod; lia]]].
  unfold mwc_next, multiply_with_carry. cbv zeta. cbn [fst].
  change 0xFFFFFFFFFFFFFFFF with (Z.ones 64). change 0xFFFFFFFF with (Z.ones 32).
  rewrite !Z.land_ones, Z.shiftr_div_pow2 by lia.
  rewrite (Z.mod_small (s / 2 ^ 32)) by exact Hc.
  pose proof (Z.mod_pos_bound s (2 ^ 32) ltac:(lia)).
  apply Z.mod_small. change (2 ^ 64) with 18446744073709551616.
  change (2 ^ 32) with 4294967296 in *. nia.
Qed.

Lemma mwc_modulus_u64 (s : Z) : 0 <= s < mwc_modulus -> 0 <= s < 2 ^ 64.
Proof.
  unfold mwc_modulus. change (2 ^ 32) with 4294967296.
  change (2 ^ 64) with 18446744073709551616. lia.
Qed.

Lemma mwc_congruent (s : Z) :
  0 <= s < 2 ^ 64 -> (2 ^ 32 * mwc_next s) mod mwc_modulus = s mod mwc_modulus.
Proof.
  intros Hs. destruct (mwc_value s Hs) as (E & Hx & Hc & Et).
  rewrite E. rewrite Et at 3.
  remember (s mod 2 ^ 32) as x eqn:Ex. remember (s / 2 ^ 32) as c eqn:Ec.
  replace (2 ^ 32 * (4294957665 * x + c))
    with (2 ^ 32 * c + x + x * mwc_modulus) by (unfold mwc_modulus; ring).
  apply Z.mod_add. unfold mwc_modulus. lia.
Qed.

Lemma mwc_next_below (s : Z) : 0 <= s < mwc_modulus -> 0 <= mwc_next s < mwc_modulus.
Proof.
  intros Hs. destruct (mwc_value s (mwc_modulus_u64 s Hs)) as (E & Hx & Hc & Et).
  rewrite E. unfold mwc_modulus in *. change (2 ^ 32) with 4294967296 in *. nia.
Qed.

Lemma mwc_next_injective (s s' : Z) :
  0 <= s < mwc_modulus -> 0 <= s' < mwc_modulus -> mwc_next s = mwc_next s' -> s = s'.
Proof.
  intros Hs Hs' E.
  pose proof (mwc_congruent s (mwc_modulus_u64 s Hs)) as C1.
  pose proof (mwc_congruent s' (mwc_modulus_u64 s' Hs')) as C2.
  rewrite E, C2 in C1. rewrite !Z.mod_small in C1 by lia. now symmetry.
Qed.

(** On a state of 64 bits a step divides by [2^32] modulo [mwc_modulus]:
    [2^32] times the result is congruent to the state.  The states below
    the modulus are mapped to states below the modulus, one-to-one. *)
Theorem multiply_with_carry_divides (s : Z) :
  0 <= s < 2 ^ 64 ->
  (2 ^ 32 * fst (multiply_with_carry s)) mod mwc_modulus = s mod mwc_modulus /\
  (s < mwc_modulus -> 0 <= fst (multiply_with_carry s) < mwc_modulus) /\
  (forall s', 0 <= s' < mwc_modulus -> s < mwc_modulus ->
              fst (multiply_with_carry s) = fst (multiply_with_carry s') -> s = s').
Proof.
  intros Hs. split; [exact (mwc_congruent s Hs)|]. split.
  - intros Hm. apply mwc_next_below. lia.
  - intros s' Hs' Hm E. apply mwc_next_injective; [lia | exact Hs' | exact E].
Qed.

Lemma multiply_with_carry_divides_witness :
  (2 ^ 32 * fst (multiply_with_carry 12345)) mod mwc_modulus = 12345 mod mwc_modulus /\
  (12345 < mwc_modulus -> 0 <= fst (multiply_with_carry 12345) < mwc_modulus) /\
  (forall s', 0 <= s' < mwc_modulus -> 12345 < mwc_modulus ->
              fst (multiply_with_carry 12345) = fst (multiply_with_carry s') -> 12345 = s').
Proof. apply (multiply_with_carry_divides 12345). lia. Defined.

(** Among the states of 64 bits exactly two are mapped to themselves, zero
    and [mwc_modulus]: the only seeds of 64 bits whose grid shows one value
    throughout. *)
Theorem multiply_with_carry_fixed_points (s : Z) :
  0 <= s < 2 ^ 64 ->
  (fst (multiply_with_carry s) = s <-> s = 0 \/ s = 18446702708879523839).
Proof.
  intros Hs. split.
  - intros F. destruct (mwc_value s Hs) as (E & Hx & Hc & Et).
    unfold mwc_next in E.
    remember (s mod 2 ^ 32) as x eqn:Ex. remember (s / 2 ^ 32) as c eqn:Ec.
    change (2 ^ 32) with 4294967296 in *.
    assert (G : 4294957664 * x = 4294967295 * c) by lia.
    assert (D : (4294967295 | x)).
    { apply (Z.gauss 4294967295 4294957664 x); [|reflexivity].
      exists c. rewrite G. ring. }
    destruct D as [t Ht].
    assert (t = 0 \/ t = 1) as [-> | ->] by nia.
    + left. lia.
    + right. lia.
  - intros [-> | ->]; reflexivity.
Qed.

Lemma multiply_with_carry_fixed_points_witness :
  fst (multiply_with_carry 18446702708879523839) = 18446702708879523839
  <-> 18446702708879523839 = 0 \/ 18446702708879523839 = 18446702708879523839.
Proof. apply (multiply_with_carry_fixed_points 18446702708879523839). lia. Defined.

(** **** The two primes *)

(** The prime factors of [mwc_period - 1]. *)
Definition mwc_period_factors : list Z := [2; 7283; 10517987; 60202679].

Lemma mwc_period_checked :
  forallb trial_prime mwc_period_factors = true /\
  mwc_period - 1 = fold_right Z.mul 1 mwc_period_factors /\
  power_mod 7 mwc_period (mwc_period - 1) = 1 /\
  forallb (fun q => negb (power_mod 7 mwc_period ((mwc_period - 1) / q) =? 1))
    mwc_period_factors = true.
Proof.
  split; [vm_cast_no_check (eq_refl true)|].
  split; [reflexivity|].
  split; [vm_cast_no_check (eq_refl 1) | vm_cast_no_check (eq_refl true)].
Qed.

Lemma mwc_period_prime : Z.prime mwc_period.
Proof.
  destruct mwc_period_checked as (Hp & Ef & H1 & Hc).
  apply (lucas_prime mwc_period 7 mwc_period_factors).
  - unfold mwc_period. lia.
  - exact Ef.
  - apply trial_primes_sound. exact Hp.
  - exact H1.
  - intros q Hq. apply Z.eqb_neq, negb_true_iff.
    exact (proj1 (forallb_forall _ _) Hc q Hq).
Qed.

Lemma mwc_modulus_checked :
  mwc_modulus - 1 = fold_right Z.mul 1 [2; mwc_period] /\
  power_mod 13 mwc_modulus (mwc_modulus - 1) = 1 /\
  forallb (fun q => negb (power_mod 13 mwc_modulus ((mwc_modulus - 1) / q) =? 1))
    [2; mwc_period] = true.
Proof.
  split; [reflexivity|].
  split; [vm_cast_no_check (eq_refl 1) | vm_cast_no_check (eq_refl true)].
Qed.

Lemma mwc_modulus_prime : Z.prime mwc_modulus.
Proof.
  destruct mwc_modulus_checked as (Ef & H1 & Hc).
  apply (lucas_prime mwc_modulus 13 [2; mwc_period]).
  - unfold mwc_modulus. lia.
  - exact Ef.
  - intros q [<-|[<-|[]]]; [exact Z.prime_2 | exact mwc_period_prime].
  - exact H1.
  - intros q Hq. apply Z.eqb_neq, negb_true_iff.
    exact (proj1 (forallb_forall _ _) Hc q Hq).
Qed.

(** **** The order of [2^32] *)

Lemma mwc_order_checked :
  power_mod (2 ^ 32) mwc_modulus mwc_period = 1 /\
  power_mod (2 ^ 32) mwc_modulus (mwc_period / mwc_period) <> 1.
Proof.
  split; [vm_cast_no_check (eq_refl 1)|].
  assert (H : negb (power_mod (2 ^ 32) mwc_modulus (mwc_period / mwc_period) =? 1) = true)
    by (vm_cast_no_check (eq_refl true)).
  apply Z.eqb_neq, negb_true_iff. exact H.
Qed.

Lemma mwc_order (d : Z) :
  1 <= d < mwc_period -> power_mod (2 ^ 32) mwc_modulus d <> 1.
Proof.
  destruct mwc_order_checked as [H1 Hc].
  apply (power_mod_order (2 ^ 32) mwc_modulus mwc_period [mwc_period]).
  - unfold mwc_modulus. lia.
  - unfold mwc_period. lia.
  - cbn [fold_right]. lia.
  - intros q [<-|[]]. exact mwc_period_prime.
  - exact H1.
  - intros q [<-|[]]. exact Hc.
Qed.

Definition mwc_state (s : Z) : Prop := 0 < s < mwc_modulus.

Lemma mwc_step_state (s : Z) : mwc_state s -> mwc_state (mwc_next s).
Proof.
  unfold mwc_state. intros Hs.
  pose proof (mwc_next_below s ltac:(lia)) as B.
  assert (mwc_next s <> 0); [|lia].
  intros E. assert (s = 0); [|lia].
  apply mwc_next_injective; [lia | unfold mwc_modulus; lia |].
  rewrite E. reflexivity.
Qed.

Lemma mwc_iter_below (k : nat) (s : Z) :
  0 <= s < mwc_modulus -> 0 <= Nat.iter k mwc_next s < mwc_modulus.
Proof.
  intros Hs. induction k as [|k IH]; [exact Hs|].
  rewrite Nat.iter_succ. now apply mwc_next_below.
Qed.

(** [k] steps divide by the [k]-th power of [2^32]. *)
Lemma mwc_iter (k : nat) (s : Z) :
  0 <= s < mwc_modulus ->
  (power_mod (2 ^ 32) mwc_modulus (Z.of_nat k) * Nat.iter k mwc_next s) mod mwc_modulus = s.
Proof.
  intros Hs.
  assert (Hm1 : 1 < mwc_modulus) by (unfold mwc_modulus; lia).
  assert (Hm : 0 < mwc_modulus) by lia.
  induction k as [|k IH].
  - change (Nat.iter 0 mwc_next s) with s. rewrite power_mod_spec by exact Hm.
    change (Z.of_nat 0) with 0. rewrite Z.pow_0_r. rewrite Z.mod_1_l by lia.
    rewrite Z.mul_1_l. apply Z.mod_small. exact Hs.
  - rewrite Nat.iter_succ. rewrite Nat2Z.inj_succ, <- Z.add_1_r.
    rewrite power_mod_add by lia.
    rewrite (power_mod_spec (2 ^ 32) mwc_modulus 1), Z.pow_1_r by exact Hm.
    rewrite (Z.mod_small (2 ^ 32) mwc_modulus) by (unfold mwc_modulus; lia).
    rewrite Z.mul_mod_idemp_l by lia.
    rewrite <- Z.mul_assoc.
    rewrite <- Z.mul_mod_idemp_r by lia.
    pose proof (mwc_iter_below k s Hs) as B.
    rewrite (mwc_congruent (Nat.iter k mwc_next s) (mwc_modulus_u64 _ B)).
    rewrite Z.mul_mod_idemp_r by lia. exact IH.
Qed.

Lemma mwc_no_short_return (v : Z) (k : nat) :
  mwc_state v -> (1 <= k < Z.to_nat mwc_period)%nat -> Nat.iter k mwc_next v <> v.
Proof.
  unfold mwc_state. intros Hv Hk E.
  assert (Hp : 0 < mwc_period) by (unfold mwc_period; lia).
  pose proof (mwc_iter k v ltac:(lia)) as I. rewrite E in I.
  apply (mwc_order (Z.of_nat k)); [lia|].
  pose proof (power_mod_range (2 ^ 32) mwc_modulus (Z.of_nat k) ltac:(lia)) as R.
  remember (power_mod (2 ^ 32) mwc_modulus (Z.of_nat k)) as w eqn:Ew.
  assert (D : (mwc_modulus | v * (w - 1))).
  { apply Z.mod_divide; [lia|].
    rewrite Z.mul_sub_distr_l, Z.mul_1_r, (Z.mul_comm v w).
    rewrite Zminus_mod, I, (Z.mod_small v) by lia.
    rewrite Z.sub_diag. reflexivity. }
  apply (Z.divide_prime_mul _ _ _ mwc_modulus_prime) in D as [D|D].
  - apply Z.divide_pos_le in D; lia.
  - destruct D as [t Ht]. clear - Ht R Hv.
    remember mwc_modulus as m eqn:Em. clear Em.
    assert (t = 0) by nia. subst t. lia.
Qed.

Lemma mwc_full_return (v : Z) :
  0 <= v < mwc_modulus -> Nat.iter (Z.to_nat mwc_period) mwc_next v = v.
Proof.
  intros Hv. pose proof (mwc_iter (Z.to_nat mwc_period) v Hv) as I.
  rewrite Z2Nat.id in I by (unfold mwc_period; lia).
  rewrite (proj1 mwc_order_checked), Z.mul_1_l in I.
  rewrite Z.mod_small in I; [exact I|]. now apply mwc_iter_below.
Qed.

(** Multiply-with-carry has the period 9223351354439761919 from every
    seed strictly between zero and the modulus, and from every seed whose
    first value lies there: the first 9223351354439761919 values are
    pairwise different, so are the values of the cells of a grid, and from
    there on the run repeats itself from its first value. *)
Theorem multiply_with_carry_period (seed : Z) :
  0 < seed < mwc_modulus \/ 0 < fst (multiply_with_carry seed) < mwc_modulus ->
  (forall n, (n <= Z.to_nat mwc_period)%nat ->
             List.NoDup (trajectory multiply_with_carry seed n)) /\
  List.NoDup (trajectory multiply_with_carry seed (Z.to_nat (App.GRID_W * App.GRID_H))) /\
  (forall n, trajectory multiply_with_carry seed (Z.to_nat mwc_period + n)
             = trajectory multiply_with_carry seed (Z.to_nat mwc_period)
               ++ trajectory multiply_with_carry seed n).
Proof.
  intros Hseed.
  assert (Hv : mwc_state (mwc_next seed)).
  { destruct Hseed as [Hseed|Hseed]; [now apply mwc_step_state | exact Hseed]. }
  assert (ND : forall n, (n <= Z.to_nat mwc_period)%nat ->
                         List.NoDup (trajectory multiply_with_carry seed n)).
  { intros n Hn. rewrite trajectory_iter.
    apply (orbit_distinct mwc_next mwc_state) with (m := Z.to_nat mwc_period).
    - exact mwc_step_state.
    - unfold mwc_state. intros x y Hx Hy. apply mwc_next_injective; lia.
    - exact Hv.
    - intros k Hk. apply mwc_no_short_return; [exact Hv | exact Hk].
    - exact Hn. }
  split; [exact ND|]. split.
  - apply ND. apply Z2Nat.inj_le; unfold App.GRID_W, App.GRID_H, mwc_period; lia.
  - intros n. apply trajectory_repeats; [unfold mwc_period; lia|].
    apply (mwc_full_return (mwc_next seed)). unfold mwc_state in Hv. lia.
Qed.

Lemma multiply_with_carry_period_witness :
  (forall n, (n <= Z.to_nat mwc_period)%nat ->
             List.NoDup (trajectory multiply_with_carry 12345 n)) /\
  List.NoDup (trajectory multiply_with_carry 12345 (Z.to_nat (App.GRID_W * App.GRID_H))) /\
  (forall n, trajectory multiply_with_carry 12345 (Z.to_nat mwc_period + n)
             = trajectory multiply_with_carry 12345 (Z.to_nat mwc_period)
               ++ trajectory multiply_with_carry 12345 n).
Proof.
  apply (multiply_with_carry_period 12345). left. unfold mwc_modulus. lia.
Defined.

End MultiplyWithCarry.
